(** * Ordered-key trees (AVL, BST + DSW) and the adjacency-list graph

    A shallow embedding of [arvore_binaria.py], [arvore_avl.py] and
    [grafo.py].  Python objects that the code mutates in place are
    exclusively owned and acyclic (a node is reachable from one parent
    only), so a tree object is modelled by the inductive tree it points
    to, and every method by the function from the tree before the call to
    the tree after it.  A tree operation that can raise [AttributeError]
    (an attribute read on [None]) returns [option]: [None] is the raised
    exception.  The graph is a record around its adjacency dict, a
    finite map; [dijkstra], whose loop ends only for the right weights,
    runs on fuel and returns an [outcome]. *)

From Equations Require Import Equations.
From Stdlib Require Import ZArith Lia.
From stdpp Require Import base option list sorting strings gmap.

Local Open Scope Z_scope.

(** ** Payloads

    The [data] argument of the trees is typed [Any] and defaults to
    [None]; it is modelled by [option Obj], [None] being Python's [None].
    The trees never look inside a payload; the AVL tree only asks for its
    truth value ([data or node.data]) and builds [{'graph': Graph()}] for
    a new node that was given no payload. *)

Class PyObject (Obj : Type) := {
  truthy : Obj → bool;
  new_city_data : Obj
}.

(** [a or b] on two payload slots: [None] is falsy. *)
Definition py_truth `{PyObject Obj} (a : option Obj) : bool :=
  match a with
  | Some o => truthy o
  | None => false
  end.

Definition py_or `{PyObject Obj} (a b : option Obj) : option Obj :=
  if py_truth a then a else b.

(** Strictly increasing key sequences. *)
Definition increasing (ks : list Z) : Prop := StronglySorted Z.lt ks.

Lemma increasing_app (xs ys : list Z) :
  increasing (xs ++ ys) ↔
  increasing xs ∧ increasing ys ∧ (∀ x y, x ∈ xs → y ∈ ys → x < y).
Proof.
  unfold increasing. induction xs as [|a xs IH]; simpl.
  - split.
    + intros Hs. split; [constructor|]. split; [done|]. intros x y Hx. inversion Hx.
    + intros (_ & Hs & _). done.
  - split.
    + intros Hs. apply StronglySorted_inv in Hs as [Hs Hall].
      apply IH in Hs as (Hx & Hy & Hxy).
      rewrite Forall_app in Hall. destruct Hall as [Ha1 Ha2].
      split; [by constructor|]. split; [done|].
      intros x y Hx' Hy'. apply elem_of_cons in Hx' as [->|Hx'].
      * rewrite Forall_forall in Ha2. by apply Ha2.
      * by apply Hxy.
    + intros (Hs & Hy & Hxy). apply StronglySorted_inv in Hs as [Hs Hall].
      constructor.
      * apply IH. split; [done|]. split; [done|].
        intros x y Hx' Hy'. apply Hxy; [by right|done].
      * rewrite Forall_app. split; [done|].
        rewrite Forall_forall. intros y Hy'. apply Hxy; [by left|done].
Qed.

Lemma increasing_cons (a : Z) (xs : list Z) :
  increasing (a :: xs) ↔ increasing xs ∧ (∀ x, x ∈ xs → a < x).
Proof.
  unfold increasing. split.
  - intros Hs. apply StronglySorted_inv in Hs as [Hs Hall].
    split; [done|]. by rewrite Forall_forall in Hall.
  - intros [Hs Hall]. constructor; [done|]. by rewrite Forall_forall.
Qed.

(** The payloads of the examples are dicts, given by their keys: [{}] is
    falsy and every other dict is truthy; [{'graph': Graph()}] has the one
    key ["graph"]. *)
Inductive pydict : Type := Dict (dict_keys : list string).

Definition pydict_truthy (o : pydict) : bool :=
  match o with
  | Dict [] => false
  | Dict (_ :: _) => true
  end.

#[export] Instance pydict_object : PyObject pydict :=
  {| truthy := pydict_truthy; new_city_data := Dict ["graph"%string] |}.

(** The calls a driver makes on a tree: [insert(key, name, data)] and
    [remove(key)]. *)
Inductive op (Obj : Type) : Type :=
| Insert (key : Z) (name : string) (data : option Obj)
| Remove (key : Z).
Arguments Insert {Obj} key name data.
Arguments Remove {Obj} key.

(** Proof steps shared by the tree developments. *)
Ltac splits := repeat match goal with |- _ ∧ _ => split end.

Ltac inorder_eq := simpl; repeat (rewrite <- !app_assoc; simpl); done.

(** * The binary search tree of [arvore_binaria.py] *)

Module BST.
Section bst.
Context {Obj : Type}.

(** [BSTNode]: key, name, data, left, right.  [Leaf] is [None]. *)
Inductive tree : Type :=
| Leaf
| Node (left : tree) (key : Z) (name : string) (data : option Obj) (right : tree).

(** What a traversal hands to [visit]: the node's key, name and data. *)
Definition entry : Type := Z * string * option Obj.

(** [BinarySearchTree.insert] ([_insert] is its inner function). *)
Fixpoint _insert (node : tree) (key : Z) (name : string) (data : option Obj) : tree :=
  match node with
  | Leaf => Node Leaf key name data Leaf
  | Node l k n d r =>
      if key <? k then Node (_insert l key name data) k n d r
      else if key >? k then Node l k n d (_insert r key name data)
      else Node l k name data r
  end.

Definition insert (key : Z) (name : string) (data : option Obj) (root : tree) : tree :=
  _insert root key name data.

(** [BinarySearchTree.search]: the node found, or [None]. *)
Fixpoint search (root : tree) (key : Z) : option tree :=
  match root with
  | Leaf => None
  | Node l k _ _ r =>
      if key =? k then Some root
      else if key <? k then search l key
      else search r key
  end.

(** [_min_node] of the node with left child [l] and contents [k], [n],
    [d]: the contents of the leftmost node.  The argument of the Python
    method is a node, never [None]. *)
Fixpoint _min_node (l : tree) (k : Z) (n : string) (d : option Obj) : entry :=
  match l with
  | Leaf => (k, n, d)
  | Node ll lk ln ld _ => _min_node ll lk ln ld
  end.

(** [BinarySearchTree.remove] ([_remove] is its inner function). *)
Fixpoint _remove (node : tree) (key : Z) : tree :=
  match node with
  | Leaf => Leaf
  | Node l k n d r =>
      if key <? k then Node (_remove l key) k n d r
      else if key >? k then Node l k n d (_remove r key)
      else
        match l, r with
        | Leaf, _ => r
        | _, Leaf => l
        | _, Node rl rk rn rd _ =>
            let '(sk, sn, sd) := _min_node rl rk rn rd in
            Node l sk sn sd (_remove r sk)
        end
  end.

Definition remove (key : Z) (root : tree) : tree := _remove root key.

(** [inorder]: the nodes in the order [visit] receives them. *)
Fixpoint inorder (root : tree) : list entry :=
  match root with
  | Leaf => []
  | Node l k n d r => inorder l ++ (k, n, d) :: inorder r
  end.

Definition keys (root : tree) : list Z := (λ e : entry, e.1.1) <$> inorder root.

(** Height with [height(empty) = 0]. *)
Fixpoint height (root : tree) : Z :=
  match root with
  | Leaf => 0
  | Node l _ _ _ r => 1 + Z.max (height l) (height r)
  end.

(** The number of nodes, as [_count] inside [dsw_balance] counts them. *)
Fixpoint _count (nod : tree) : Z :=
  match nod with
  | Leaf => 0
  | Node l _ _ _ r => _count l + 1 + _count r
  end.

(** *** DSW

    [_tree_to_vine] and [_compress] walk down the right spine from a
    pseudo-root.  The part of the spine already walked (from the
    pseudo-root's right child down to [tail], respectively [scanner]) is a
    list of frames, deepest first: a frame is a spine node without its
    right child.  [plug] links the frames back above the rest, which is
    the tree [pseudo_root.right] points to. *)
Definition frame : Type := tree * Z * string * option Obj.

Definition plug (walked : list frame) (rest : tree) : tree :=
  fold_left (λ below '(l, k, n, d), Node l k n d below) walked rest.

(** Measure of the vine loop: a node off the right spine is met twice
    (rotated onto the spine, then walked), a node on it once. *)
Fixpoint vine_weight (rest : tree) : nat :=
  match rest with
  | Leaf => 0
  | Node l _ _ _ r => S (2 * Z.to_nat (_count l) + vine_weight r)
  end.

Lemma _count_nonneg (t : tree) : 0 ≤ _count t.
Proof. induction t; simpl; lia. Qed.

(** The [while rest:] loop of [_tree_to_vine]. *)
Equations? _tree_to_vine_loop (walked : list frame) (rest : tree) : tree
  by wf (vine_weight rest) lt :=
_tree_to_vine_loop walked Leaf := plug walked Leaf;
_tree_to_vine_loop walked (Node Leaf k n d r) :=
  _tree_to_vine_loop ((Leaf, k, n, d) :: walked) r;
_tree_to_vine_loop walked (Node (Node ll lk ln ld lr) k n d r) :=
  _tree_to_vine_loop walked (Node ll lk ln ld (Node lr k n d r)).
Proof.
  - simpl. lia.
  - simpl. pose proof (_count_nonneg ll). pose proof (_count_nonneg lr). lia.
Defined.

Definition _tree_to_vine (root : tree) : tree := _tree_to_vine_loop [] root.

(** The [for _ in range(count):] loop of [_compress]: [i] iterations are
    left.  With [child = Node cl ck cn cd next_child], a missing
    [next_child] makes [next_child.left] raise. *)
Fixpoint _compress_loop (i : nat) (walked : list frame) (rest : tree) : option tree :=
  match i with
  | O => Some (plug walked rest)
  | S i' =>
      match rest with
      | Leaf => Some (plug walked rest)
      | Node cl ck cn cd Leaf => None
      | Node cl ck cn cd (Node nl nk nn nd nr) =>
          _compress_loop i' ((Node cl ck cn cd nl, nk, nn, nd) :: walked) nr
      end
  end.

Definition _compress (count : Z) (root : tree) : option tree :=
  _compress_loop (Z.to_nat count) [] root.

(** [m = 1; while m <= n: m = m << 1].  [m] starts at 1 and stays
    positive; the test [0 < m] only serves the termination proof. *)
Equations? _double_past (m n : Z) : Z by wf (Z.to_nat (n + 1 - m)) lt :=
_double_past m n with decide (m ≤ n ∧ 0 < m) := {
  | left _ => _double_past (m ≪ 1) n
  | right _ => m }.
Proof. rewrite Z.shiftl_mul_pow2 by lia. lia. Defined.

(** [while m > 1: m = m >> 1; self._compress(m)]. *)
Equations? _compress_passes (m : Z) (root : tree) : option tree
  by wf (Z.to_nat m) lt :=
_compress_passes m root with decide (1 < m) := {
  | left _ with _compress (m ≫ 1) root := {
      | Some root' => _compress_passes (m ≫ 1) root'
      | None => None }
  | right _ => Some root }.
Proof. rewrite Z.shiftr_div_pow2 by lia. change (2 ^ 1) with 2. apply Z2Nat.inj_lt; [|lia|]; [apply Z.div_pos; lia|]. apply Z.div_lt; lia. Defined.

(** [BinarySearchTree.dsw_balance]. *)
Definition dsw_balance (root : tree) : option tree :=
  let n := _count root in
  if n <=? 1 then Some root
  else
    let vine := _tree_to_vine root in
    let m := (_double_past 1 n ≫ 1) - 1 in
    first ← _compress (n - m) vine;
    _compress_passes m first.

(** Every node's key is above the keys to its left and below the keys
    to its right. *)
Fixpoint ordered (root : tree) : Prop :=
  match root with
  | Leaf => True
  | Node l k _ _ r =>
      ordered l ∧ ordered r ∧
      (∀ x, x ∈ keys l → x < k) ∧ (∀ x, x ∈ keys r → k < x)
  end.

(** The same tree with the contents of the node of key [key] replaced. *)
Fixpoint with_contents (key : Z) (name : string) (f : option Obj → option Obj)
    (root : tree) : tree :=
  match root with
  | Leaf => Leaf
  | Node l k n d r =>
      if key =? k
      then Node (with_contents key name f l) k name (f d) (with_contents key name f r)
      else Node (with_contents key name f l) k n d (with_contents key name f r)
  end.

(** One call of a sequence of [insert] and [remove] calls. *)
Definition apply_op (o : op Obj) (root : tree) : tree :=
  match o with
  | Insert key name data => insert key name data root
  | Remove key => remove key root
  end.

Fixpoint run (ops : list (op Obj)) (root : tree) : tree :=
  match ops with
  | [] => root
  | o :: ops' => run ops' (apply_op o root)
  end.

End bst.
Arguments tree : clear implicits.
Arguments entry : clear implicits.
Arguments frame : clear implicits.

(** ** Insertion and removal keep the key order *)

Section bst_order.
Context {Obj : Type}.
Implicit Types t l r : tree Obj.

Lemma bst_keys_node l k n d r : keys (Node l k n d r) = keys l ++ k :: keys r.
Proof. unfold keys. simpl. by rewrite fmap_app. Qed.

Lemma bst_keys_leaf : keys (@Leaf Obj) = [].
Proof. done. Qed.

Lemma bst_ordered_increasing t : ordered t ↔ increasing (keys t).
Proof.
  induction t as [|l IHl k n d r IHr]; simpl.
  - rewrite bst_keys_leaf. split; [constructor|done].
  - rewrite bst_keys_node, increasing_app, increasing_cons, IHl, IHr. split.
    + intros (Hl & Hr & Hlk & Hkr). splits; try done.
      intros x y Hx [->|Hy]%elem_of_cons; [by apply Hlk|].
      specialize (Hlk x Hx). specialize (Hkr y Hy). lia.
    + intros (Hl & [Hr Hkr] & Hlr). splits; try done.
      intros x Hx. apply Hlr; [done|by left].
Qed.

Lemma _insert_keys t key name data x :
  x ∈ keys (_insert t key name data) ↔ x = key ∨ x ∈ keys t.
Proof.
  induction t as [|l IHl k n d r IHr]; simpl.
  - rewrite bst_keys_node, bst_keys_leaf. simpl. rewrite list_elem_of_singleton, elem_of_nil. tauto.
  - destruct (Z.ltb_spec key k) as [Hlt|Hge].
    + rewrite !bst_keys_node, !elem_of_app, !elem_of_cons, IHl. tauto.
    + destruct (Z.gtb_spec key k) as [Hgt|Hle].
      * rewrite !bst_keys_node, !elem_of_app, !elem_of_cons, IHr. tauto.
      * assert (key = k) as -> by lia.
        rewrite !bst_keys_node, !elem_of_app, !elem_of_cons. tauto.
Qed.

Lemma _insert_increasing t key name data :
  increasing (keys t) → increasing (keys (_insert t key name data)).
Proof.
  induction t as [|l IHl k n d r IHr]; simpl.
  - intros _. rewrite bst_keys_node, bst_keys_leaf. simpl. repeat constructor.
  - destruct (Z.ltb_spec key k) as [Hlt|Hge].
    + rewrite !bst_keys_node, !increasing_app, !increasing_cons.
      intros (Il & [Ir Hkr] & Hlr). splits; auto.
      intros x y Hx Hy. apply _insert_keys in Hx as [->|Hx]; [|by apply Hlr].
      apply elem_of_cons in Hy as [->|Hy]; [done|]. specialize (Hkr y Hy). lia.
    + destruct (Z.gtb_spec key k) as [Hgt|Hle].
      * rewrite !bst_keys_node, !increasing_app, !increasing_cons.
        intros (Il & [Ir Hkr] & Hlr). splits; auto.
        -- intros x Hx. apply _insert_keys in Hx as [->|Hx]; [lia|by apply Hkr].
        -- intros x y Hx [->|Hy]%elem_of_cons; [apply Hlr; [done|by left]|].
           apply _insert_keys in Hy as [->|Hy]; [|apply Hlr; [done|by right]].
           specialize (Hlr x k Hx ltac:(by left)). lia.
      * by rewrite !bst_keys_node.
Qed.

Lemma bst_min_node_first l k n d r :
  ∃ rest, inorder (Node l k n d r) = _min_node l k n d :: rest.
Proof.
  revert k n d r. induction l as [|ll IHll lk ln ld lr _]; intros k n d r.
  - simpl. by eexists.
  - destruct (IHll lk ln ld lr) as [rest Hrest].
    change (inorder (Node (Node ll lk ln ld lr) k n d r))
      with (inorder (Node ll lk ln ld lr) ++ (k, n, d) :: inorder r).
    rewrite Hrest. simpl. by eexists.
Qed.

Lemma _remove_keys t key x : x ∈ keys (_remove t key) → x ∈ keys t.
Proof.
  revert key. induction t as [|l IHl k n d r IHr]; intros key; simpl; [done|].
  destruct (Z.ltb_spec key k) as [Hlt|Hge].
  - rewrite !bst_keys_node, !elem_of_app, !elem_of_cons. intros [Hx%IHl|Hx]; auto.
  - destruct (Z.gtb_spec key k) as [Hgt|Hle].
    + rewrite !bst_keys_node, !elem_of_app, !elem_of_cons. intros [Hx|[Hx|Hx%IHr]]; auto.
    + destruct l as [|ll lk ln ld lr].
      { intros Hx. rewrite bst_keys_node, elem_of_app, elem_of_cons. auto. }
      destruct r as [|rl rk rn rd rr].
      { intros Hx. rewrite bst_keys_node, elem_of_app. auto. }
      destruct (_min_node rl rk rn rd) as [[sk sn] sd] eqn:Hmin.
      rewrite bst_keys_node, (bst_keys_node _ k), !elem_of_app, !elem_of_cons.
      intros [Hx|[->|Hx%IHr]]; auto.
      right. right.
      destruct (bst_min_node_first rl rk rn rd rr) as [rest Hrest].
      unfold keys. rewrite Hrest, Hmin. simpl. by left.
Qed.

(** Removing the key of its leftmost node from a tree takes the first
    element off its in-order sequence. *)
Lemma bst_remove_min l k n d r :
  increasing (keys (Node l k n d r)) →
  inorder (Node l k n d r) =
  _min_node l k n d :: inorder (_remove (Node l k n d r) (_min_node l k n d).1.1).
Proof.
  revert k n d r.
  induction l as [|ll IHll lk ln ld lr _]; intros k n d r Hinc.
  - simpl. by rewrite Z.ltb_irrefl, Z.gtb_ltb, Z.ltb_irrefl.
  - change (_min_node (Node ll lk ln ld lr) k n d) with (_min_node ll lk ln ld) in *.
    set (sk := (_min_node ll lk ln ld).1.1) in *.
    destruct (bst_min_node_first ll lk ln ld lr) as [rest Hrest].
    assert (sk < k) as Hsk.
    { rewrite bst_keys_node, increasing_app in Hinc. destruct Hinc as (_ & _ & Hlr).
      apply Hlr; [|by left]. unfold keys. rewrite Hrest. by left. }
    change (_remove (Node (Node ll lk ln ld lr) k n d r) sk)
      with (if sk <? k
            then Node (_remove (Node ll lk ln ld lr) sk) k n d r
            else if sk >? k
            then Node (Node ll lk ln ld lr) k n d (_remove r sk)
            else match r with
                 | Leaf => Node ll lk ln ld lr
                 | Node rl rk rn rd _ =>
                     let '(sk', sn, sd) := _min_node rl rk rn rd in
                     Node (Node ll lk ln ld lr) sk' sn sd (_remove r sk')
                 end).
    destruct (Z.ltb_spec sk k) as [_|?]; [|lia].
    change (inorder (Node (Node ll lk ln ld lr) k n d r))
      with (inorder (Node ll lk ln ld lr) ++ (k, n, d) :: inorder r).
    rewrite (IHll lk ln ld lr) at 1; [done|].
    rewrite bst_keys_node, increasing_app in Hinc. tauto.
Qed.

Lemma bst_remove_increasing t key :
  increasing (keys t) → increasing (keys (_remove t key)).
Proof.
  revert key. induction t as [|l IHl k n d r IHr]; intros key Hinc; simpl; [done|].
  pose proof Hinc as Hinc0.
  rewrite bst_keys_node, increasing_app, increasing_cons in Hinc.
  destruct Hinc as (Il & [Ir Hkr] & Hlr).
  destruct (Z.ltb_spec key k) as [Hlt|Hge].
  - rewrite bst_keys_node, increasing_app, increasing_cons. splits; eauto.
    intros x y Hx Hy. apply _remove_keys in Hx. by apply Hlr.
  - destruct (Z.gtb_spec key k) as [Hgt|Hle].
    + rewrite bst_keys_node, increasing_app, increasing_cons. splits; eauto.
      * intros x Hx. apply _remove_keys in Hx. by apply Hkr.
      * intros x y Hx [->|Hy]%elem_of_cons; [apply Hlr; [done|by left]|].
        apply _remove_keys in Hy. apply Hlr; [done|by right].
    + destruct l as [|ll lk ln ld lr]; [done|].
      destruct r as [|rl rk rn rd rr]; [done|].
      pose proof (bst_remove_min rl rk rn rd rr Ir) as Hfirst.
      destruct (_min_node rl rk rn rd) as [[sk sn] sd] eqn:Hmin.
      simpl in Hfirst.
      assert (keys (Node rl rk rn rd rr) = sk :: keys (_remove (Node rl rk rn rd rr) sk)) as Hkeys.
      { unfold keys. by rewrite Hfirst at 1. }
      rewrite Hkeys in Ir, Hkr, Hlr. apply increasing_cons in Ir as [Ir' Hsk].
      rewrite bst_keys_node, increasing_app, increasing_cons. splits; eauto.
      intros x y Hx Hy.
      specialize (Hlr x k Hx ltac:(by left)).
      apply elem_of_cons in Hy as [->|Hy].
      * specialize (Hkr sk ltac:(by left)). lia.
      * specialize (Hkr y ltac:(by right)). lia.
Qed.

Lemma run_increasing (ops : list (op Obj)) t :
  increasing (keys t) → increasing (keys (run ops t)).
Proof.
  revert t. induction ops as [|[key name data|key] ops IH]; intros t Ht; simpl; [done| |].
  - apply IH. by apply _insert_increasing.
  - apply IH. by apply bst_remove_increasing.
Qed.

End bst_order.

(** ** Re-inserting a key, removing an absent key *)

Section bst_update.
Context {Obj : Type}.
Implicit Types t l r : tree Obj.

Lemma bst_with_contents_absent t key name f :
  key ∉ keys t → with_contents key name f t = t.
Proof.
  induction t as [|l IHl k n d r IHr]; simpl; [done|].
  rewrite bst_keys_node, elem_of_app, elem_of_cons. intros Hnot.
  destruct (Z.eqb_spec key k) as [->|Hne]; [tauto|].
  rewrite IHl, IHr by tauto. done.
Qed.

Lemma bst_insert_existing t key name data :
  increasing (keys t) → key ∈ keys t →
  _insert t key name data = with_contents key name (λ _, data) t.
Proof.
  induction t as [|l IHl k n d r IHr]; simpl.
  - intros _ Hin. by apply elem_of_nil in Hin.
  - rewrite bst_keys_node, increasing_app, increasing_cons, elem_of_app, elem_of_cons.
    intros (Il & [Ir Hkr] & Hlr) Hin.
    assert (∀ x, x ∈ keys l → x < k) as Hlk by (intros x Hx; apply Hlr; [done|by left]).
    destruct (Z.ltb_spec key k) as [Hlt|Hge].
    + destruct (Z.eqb_spec key k) as [->|_]; [lia|].
      rewrite IHl, (bst_with_contents_absent r); [done| |done|].
      * intros Hr. specialize (Hkr _ Hr). lia.
      * destruct Hin as [?|[->|Hr]]; [done|lia|]. specialize (Hkr _ Hr). lia.
    + destruct (Z.gtb_spec key k) as [Hgt|Hle].
      * destruct (Z.eqb_spec key k) as [->|_]; [lia|].
        rewrite IHr, (bst_with_contents_absent l); [done| |done|].
        -- intros Hl. specialize (Hlk _ Hl). lia.
        -- destruct Hin as [Hl|[->|?]]; [|lia|done]. specialize (Hlk _ Hl). lia.
      * assert (key = k) as -> by lia. rewrite Z.eqb_refl.
        rewrite !bst_with_contents_absent; [done| |].
        -- intros Hr. specialize (Hkr _ Hr). lia.
        -- intros Hl. specialize (Hlk _ Hl). lia.
Qed.

Lemma bst_remove_absent t key : key ∉ keys t → _remove t key = t.
Proof.
  induction t as [|l IHl k n d r IHr]; simpl; [done|].
  rewrite bst_keys_node, elem_of_app, elem_of_cons. intros Hnot.
  destruct (Z.ltb_spec key k) as [Hlt|Hge]; [by rewrite IHl by tauto|].
  destruct (Z.gtb_spec key k) as [Hgt|Hle]; [by rewrite IHr by tauto|].
  assert (key = k) by lia. tauto.
Qed.

End bst_update.

(** ** DSW keeps the in-order sequence whenever it returns *)

Section bst_dsw.
Context {Obj : Type}.
Implicit Types t l r rest : tree Obj.

(** The in-order sequence of the walked part of the spine. *)
Fixpoint spine (walked : list (frame Obj)) : list (entry Obj) :=
  match walked with
  | [] => []
  | (l, k, n, d) :: above => spine above ++ inorder l ++ [(k, n, d)]
  end.

Lemma inorder_plug walked rest :
  inorder (plug walked rest) = spine walked ++ inorder rest.
Proof.
  revert rest. induction walked as [|[[[l k] n] d] above IH]; intros rest; [done|].
  change (plug ((l, k, n, d) :: above) rest) with (plug above (Node l k n d rest)).
  rewrite IH. inorder_eq.
Qed.

Lemma inorder_tree_to_vine_loop walked rest :
  inorder (_tree_to_vine_loop walked rest) = spine walked ++ inorder rest.
Proof.
  funelim (_tree_to_vine_loop walked rest).
  - by rewrite inorder_plug.
  - rewrite H. inorder_eq.
  - rewrite H. inorder_eq.
Qed.

Lemma inorder_tree_to_vine t : inorder (_tree_to_vine t) = inorder t.
Proof. unfold _tree_to_vine. by rewrite inorder_tree_to_vine_loop. Qed.

Lemma inorder_compress_loop i walked rest t' :
  _compress_loop i walked rest = Some t' →
  inorder t' = spine walked ++ inorder rest.
Proof.
  revert walked rest. induction i as [|i IH]; intros walked rest; simpl.
  - intros [= <-]. apply inorder_plug.
  - destruct rest as [|cl ck cn cd [|nl nk nn nd nr]]; [|done|].
    + intros [= <-]. apply inorder_plug.
    + intros Hloop%IH. rewrite Hloop. inorder_eq.
Qed.

Lemma inorder_compress count t t' :
  _compress count t = Some t' → inorder t' = inorder t.
Proof. unfold _compress. by intros Hloop%inorder_compress_loop. Qed.

Lemma inorder_compress_passes m t t' :
  _compress_passes m t = Some t' → inorder t' = inorder t.
Proof.
  funelim (_compress_passes m t); try done.
  - by intros [= <-].
  - intros Hrec%H. rewrite Hrec. by eapply inorder_compress.
Qed.

(** Whenever [dsw_balance] returns, the in-order sequence is the one
    before the call. *)
Lemma inorder_dsw_balance t t' :
  dsw_balance t = Some t' → inorder t' = inorder t.
Proof.
  unfold dsw_balance. destruct (_count t <=? 1); [by intros [= <-]|].
  destruct (_compress _ (_tree_to_vine t)) as [first|] eqn:Hfirst; simpl; [|done].
  intros Hpasses%inorder_compress_passes. rewrite Hpasses.
  apply inorder_compress in Hfirst. by rewrite Hfirst, inorder_tree_to_vine.
Qed.

End bst_dsw.

(** ** When [dsw_balance] raises *)

Section bst_dsw_raises.
Context {Obj : Type}.
Implicit Types t l r rest : tree Obj.

(** The number of nodes on the right spine, and the number of nodes. *)
Fixpoint rspine t : nat :=
  match t with
  | Leaf => 0
  | Node _ _ _ _ r => S (rspine r)
  end.

Fixpoint size t : nat :=
  match t with
  | Leaf => 0
  | Node l _ _ _ r => S (size l + size r)
  end.

Lemma _count_size t : _count t = Z.of_nat (size t).
Proof. induction t; simpl; lia. Qed.

Lemma rspine_plug (walked : list (frame Obj)) rest :
  rspine (plug walked rest) = (length walked + rspine rest)%nat.
Proof.
  revert rest. induction walked as [|[[[l k] n] d] above IH]; intros rest; [done|].
  change (plug ((l, k, n, d) :: above) rest) with (plug above (Node l k n d rest)).
  rewrite IH. simpl. lia.
Qed.

(** The vine has every node on its right spine. *)
Lemma rspine_tree_to_vine_loop (walked : list (frame Obj)) rest :
  rspine (_tree_to_vine_loop walked rest) = (length walked + size rest)%nat.
Proof.
  funelim (_tree_to_vine_loop walked rest).
  - rewrite rspine_plug. done.
  - rewrite H. simpl. lia.
  - rewrite H. simpl. lia.
Qed.

Lemma rspine_tree_to_vine t : rspine (_tree_to_vine t) = size t.
Proof. unfold _tree_to_vine. by rewrite rspine_tree_to_vine_loop. Qed.

(** A pass of [i] rotations needs [2 * i] nodes on the spine. *)
Lemma _compress_loop_returns (i : nat) (walked : list (frame Obj)) rest :
  (2 * i ≤ rspine rest)%nat →
  ∃ t', _compress_loop i walked rest = Some t' ∧
        (rspine t' + i = length walked + rspine rest)%nat.
Proof.
  revert walked rest. induction i as [|i IH]; intros walked rest Hlen; simpl.
  - eexists. split; [done|]. rewrite rspine_plug. lia.
  - destruct rest as [|cl ck cn cd [|nl nk nn nd nr]]; simpl in Hlen; [lia..|].
    destruct (IH ((Node cl ck cn cd nl, nk, nn, nd) :: walked) nr ltac:(lia))
      as (t' & -> & Hspine).
    eexists. split; [done|]. simpl in *. lia.
Qed.

(** On a spine of [2 * q + 1] nodes the rotation after the [q]-th
    finds a child and no [next_child]. *)
Lemma _compress_loop_raises (q i : nat) (walked : list (frame Obj)) rest :
  rspine rest = (2 * q + 1)%nat → (q < i)%nat →
  _compress_loop i walked rest = None.
Proof.
  revert i walked rest. induction q as [|q IH]; intros i walked rest Hlen Hi.
  - destruct i as [|i]; [lia|].
    destruct rest as [|cl ck cn cd [|nl nk nn nd nr]]; simpl in *; [lia|done|lia].
  - destruct i as [|i]; [lia|].
    destruct rest as [|cl ck cn cd [|nl nk nn nd nr]]; simpl in Hlen; [lia..|].
    simpl. apply IH; lia.
Qed.

Lemma _compress_passes_returns (m : Z) t :
  (Z.to_nat m ≤ rspine t)%nat → ∃ t', _compress_passes m t = Some t'.
Proof.
  funelim (_compress_passes m t); intros Hlen.
  - by eexists.
  - apply H. unfold _compress in Heq.
    destruct (_compress_loop_returns (Z.to_nat (m ≫ 1)) [] root) as (t' & Ht' & Hspine).
    { rewrite Z.shiftr_div_pow2 by lia. change (2 ^ 1) with 2.
      assert (2 * (m / 2) ≤ m) by (apply Z.mul_div_le; lia). lia. }
    assert (t' = root') as -> by congruence.
    revert Hspine. rewrite Z.shiftr_div_pow2 by lia. change (2 ^ 1) with 2. simpl.
    assert (2 * (m / 2) ≤ m) by (apply Z.mul_div_le; lia). lia.
  - unfold _compress in Heq.
    destruct (_compress_loop_returns (Z.to_nat (m ≫ 1)) [] root) as (t' & Ht' & _).
    { rewrite Z.shiftr_div_pow2 by lia. change (2 ^ 1) with 2.
      assert (2 * (m / 2) ≤ m) by (apply Z.mul_div_le; lia). lia. }
    congruence.
Qed.

(** What [m = 1; while m <= n: m = m << 1] leaves in [m]. *)
Lemma _double_past_spec (m n : Z) :
  0 < m →
  (m ≤ n → n < _double_past m n ≤ 2 * n) ∧
  (n < m → _double_past m n = m) ∧
  ∃ j : nat, _double_past m n = m * 2 ^ Z.of_nat j.
Proof.
  funelim (_double_past m n); intros Hm.
  - destruct H as (IH1 & IH2 & j & IH3).
    { rewrite Z.shiftl_mul_pow2 by lia. lia. }
    rewrite Z.shiftl_mul_pow2 in * by lia. change (2 ^ 1) with 2 in *.
    split; [|split].
    + intros _. destruct (decide (m * 2 ≤ n)); [by apply IH1|].
      rewrite IH2 by lia. lia.
    + lia.
    + exists (S j). rewrite IH3, Nat2Z.inj_succ, Z.pow_succ_r by lia. lia.
  - split; [lia|]. split; [done|]. exists 0%nat. simpl. lia.
Qed.

(** [dsw_balance] raises exactly on the trees of [2^k - 1] nodes with
    [k >= 2]: 3, 7, 15, 31, ... nodes. *)
Lemma dsw_balance_raises_iff t :
  dsw_balance t = None ↔ ∃ k : nat, (2 ≤ k)%nat ∧ _count t = 2 ^ Z.of_nat k - 1.
Proof.
  unfold dsw_balance. rewrite _count_size. set (n := Z.of_nat (size t)).
  destruct (Z.leb_spec n 1) as [Hsmall|Hbig].
  { split; [done|]. intros (k & Hk & Hn).
    assert (2 ^ 2 ≤ 2 ^ Z.of_nat k) by (apply Z.pow_le_mono_r; lia).
    change (2 ^ 2) with 4 in *. lia. }
  destruct (_double_past_spec 1 n ltac:(lia)) as (Hr & _ & j & Hj).
  specialize (Hr ltac:(lia)). rewrite Z.mul_1_l in Hj.
  set (r := _double_past 1 n) in *.
  assert (j ≠ 0%nat) as Hj0 by (intros ->; simpl in Hj; lia).
  assert (r = 2 * (r ≫ 1)) as Heven.
  { rewrite Z.shiftr_div_pow2 by lia. change (2 ^ 1) with 2.
    destruct j as [|j]; [done|].
    rewrite Hj, Nat2Z.inj_succ, Z.pow_succ_r by lia.
    rewrite (Z.mul_comm 2), Z.div_mul by lia. lia. }
  set (M := r ≫ 1) in *.
  unfold _compress. pose proof (rspine_tree_to_vine t) as Hvine.
  destruct (decide (n + 1 = r)) as [Hfull|Hpart].
  - rewrite (_compress_loop_raises (Z.to_nat (M - 1))) by (unfold n in *; lia).
    split; [intros _|done]. exists j. split; [|lia].
    destruct j as [|[|j]]; [done|simpl in Hj; lia|lia].
  - destruct (_compress_loop_returns (Z.to_nat (n - (M - 1))) [] (_tree_to_vine t))
      as (first & -> & Hspine); [unfold n in *; lia|].
    simpl.
    destruct (_compress_passes_returns (M - 1) first) as [t' ->].
    { simpl in Hspine. unfold n in *. lia. }
    split; [done|]. intros (k & Hk & Hn). exfalso.
    assert (2 ^ Z.of_nat k < 2 ^ Z.of_nat j) as Hlt by lia.
    apply Z.pow_lt_mono_r_iff in Hlt; [|lia..].
    assert (2 ^ (Z.of_nat k + 1) ≤ 2 ^ Z.of_nat j) as Hle
      by (apply Z.pow_le_mono_r; lia).
    rewrite Z.pow_add_r in Hle by lia. lia.
Qed.

End bst_dsw_raises.

(** ** The height after [dsw_balance] returns *)

Section bst_dsw_height.
Context {Obj : Type}.
Implicit Types t l r rest : tree Obj.
Implicit Types hs body tail : list Z.

(** The heights of the left subtrees along the right spine, from the
    root down, and the height of a tree given by them. *)
Fixpoint spine_heights t : list Z :=
  match t with
  | Leaf => []
  | Node l _ _ _ r => height l :: spine_heights r
  end.

Fixpoint spine_height hs : Z :=
  match hs with
  | [] => 0
  | a :: hs' => 1 + Z.max a (spine_height hs')
  end.

Fixpoint walked_heights (walked : list (frame Obj)) : list Z :=
  match walked with
  | [] => []
  | (l, _, _, _) :: above => walked_heights above ++ [height l]
  end.

(** What a pass of [c] rotations does to the heights along the spine. *)
Fixpoint pass (c : nat) hs : list Z :=
  match c, hs with
  | S c', a :: b :: hs' => (1 + Z.max a b) :: pass c' hs'
  | _, _ => hs
  end.

Lemma height_spine t : height t = spine_height (spine_heights t).
Proof. induction t as [|l _ k n d r IH]; simpl; [done|]. by rewrite IH. Qed.

Lemma length_spine_heights t : length (spine_heights t) = rspine t.
Proof. induction t as [|l _ k n d r IH]; simpl; [done|]. by rewrite IH. Qed.

Lemma spine_heights_plug (walked : list (frame Obj)) rest :
  spine_heights (plug walked rest) = walked_heights walked ++ spine_heights rest.
Proof.
  revert rest. induction walked as [|[[[l k] n] d] above IH]; intros rest; [done|].
  change (plug ((l, k, n, d) :: above) rest) with (plug above (Node l k n d rest)).
  rewrite IH. simpl. by rewrite <- app_assoc.
Qed.

Lemma spine_heights_tree_to_vine_loop (walked : list (frame Obj)) rest :
  spine_heights (_tree_to_vine_loop walked rest) =
  walked_heights walked ++ replicate (size rest) 0.
Proof.
  funelim (_tree_to_vine_loop walked rest).
  - by rewrite spine_heights_plug.
  - rewrite H. simpl. by rewrite <- app_assoc.
  - rewrite H. do 2 f_equal. simpl. lia.
Qed.

Lemma spine_heights_compress_loop (i : nat) (walked : list (frame Obj)) rest t' :
  _compress_loop i walked rest = Some t' →
  spine_heights t' = walked_heights walked ++ pass i (spine_heights rest).
Proof.
  revert walked rest. induction i as [|i IH]; intros walked rest; simpl.
  - intros [= <-]. apply spine_heights_plug.
  - destruct rest as [|cl ck cn cd [|nl nk nn nd nr]]; [|done|].
    + intros [= <-]. apply spine_heights_plug.
    + intros Hloop. rewrite (IH _ _ Hloop). simpl. by rewrite <- app_assoc.
Qed.

Lemma pass_replicate (i n : nat) :
  (2 * i ≤ n)%nat →
  pass i (replicate n 0) = replicate i 1 ++ replicate (n - 2 * i) 0.
Proof.
  revert n. induction i as [|i IH]; intros n Hn; simpl.
  - by rewrite Nat.sub_0_r.
  - destruct n as [|[|n]]; [lia..|]. simpl. rewrite IH by lia.
    change (1 + Z.max 0 0) with 1. do 3 f_equal. lia.
Qed.

(** A pass over a body of [2 * c + 1] heights between [p] and [p + 1]
    pairs the first [2 * c] of them and leaves the last. *)
Lemma pass_body (c : nat) body tail (p : Z) :
  length body = (2 * c + 1)%nat → Forall (λ x, p ≤ x ≤ p + 1) body →
  ∃ body' e, pass c (body ++ tail) = body' ++ e :: tail ∧
             length body' = c ∧ Forall (λ x, p + 1 ≤ x ≤ p + 2) body' ∧
             p ≤ e ≤ p + 1.
Proof.
  revert body. induction c as [|c IH]; intros body Hlen Hall.
  - destruct body as [|e [|]]; simpl in Hlen; [lia| |lia].
    exists [], e. apply Forall_cons in Hall as [He _]. splits; try done; lia.
  - destruct body as [|a [|b body]]; simpl in Hlen; [lia..|].
    apply Forall_cons in Hall as [Ha Hall]. apply Forall_cons in Hall as [Hb Hall].
    destruct (IH body ltac:(lia) Hall) as (body' & e & Hpass & Hlen' & Hall' & He).
    exists ((1 + Z.max a b) :: body'), e. simpl. rewrite Hpass. splits; try done; try lia.
    constructor; [lia|done].
Qed.

(** The heights along the spine between two passes: a body of
    [2^q - 1] heights between [p] and [p + 1], the first [p + 1], and
    below it the nodes that earlier passes left over. *)
Definition level (p : Z) (q : nat) hs : Prop :=
  ∃ b body tail, hs = (b :: body) ++ tail ∧
    Z.of_nat (length (b :: body)) = 2 ^ Z.of_nat q - 1 ∧
    b = p + 1 ∧ Forall (λ x, p ≤ x ≤ p + 1) body ∧
    spine_height tail ≤ p + 1.

Lemma half_pow2 (q : nat) :
  (2 ^ Z.of_nat (S q) - 1) ≫ 1 = 2 ^ Z.of_nat q - 1.
Proof.
  rewrite Z.shiftr_div_pow2 by lia. change (2 ^ 1) with 2.
  rewrite Nat2Z.inj_succ, Z.pow_succ_r by lia. symmetry.
  apply (Z.div_unique _ 2 _ 1); lia.
Qed.

Lemma level_pass (p : Z) (q : nat) hs :
  level p (S (S q)) hs →
  level (p + 1) (S q) (pass (Z.to_nat (2 ^ Z.of_nat (S q) - 1)) hs).
Proof.
  intros (b & body & tail & -> & Hlen & -> & Hall & Htail).
  assert (0 < 2 ^ Z.of_nat q) as Hpos by (apply Z.pow_pos_nonneg; lia).
  rewrite !Nat2Z.inj_succ, !Z.pow_succ_r in Hlen by lia.
  rewrite Nat2Z.inj_succ, Z.pow_succ_r by lia.
  remember (Z.to_nat (2 * 2 ^ Z.of_nat q - 1)) as c eqn:Hc.
  destruct (pass_body c (p + 1 :: body) tail p) as (body' & e & Hpass & Hlen' & Hall' & He).
  { simpl in *. lia. }
  { constructor; [lia|done]. }
  destruct c as [|c]; [lia|].
  destruct body as [|b2 body]; [simpl in Hlen; lia|].
  destruct body' as [|b' body']; [done|].
  simpl in Hpass. injection Hpass as Hb' Hpass.
  apply Forall_cons in Hall as [Hb2 _].
  exists b', body', (e :: tail). splits.
  - simpl. by rewrite Hb', Hpass.
  - rewrite Hlen', (Nat2Z.inj_succ q), Z.pow_succ_r by lia. lia.
  - lia.
  - apply Forall_cons in Hall' as [_ Hall'].
    eapply Forall_impl; [exact Hall'|]. simpl. lia.
  - simpl. lia.
Qed.

Lemma _compress_passes_height (m : Z) t :
  ∀ (p : Z) (q : nat), m = 2 ^ Z.of_nat (S q) - 1 → level p (S q) (spine_heights t) →
  ∃ t', _compress_passes m t = Some t' ∧ height t' = p + Z.of_nat q + 2.
Proof.
  funelim (_compress_passes m t); intros p q Hm Hlevel.
  - (* m = 1: no pass is left *)
    assert (q = 0%nat) as ->.
    { destruct q as [|q]; [done|]. exfalso.
      rewrite !Nat2Z.inj_succ, !Z.pow_succ_r in Hm by lia.
      assert (0 < 2 ^ Z.of_nat q) by (apply Z.pow_pos_nonneg; lia). lia. }
    exists root. split; [done|]. rewrite height_spine.
    destruct Hlevel as (b & body & tail & -> & Hlen & -> & _ & Htail).
    destruct body; [|simpl in Hlen; lia]. simpl. lia.
  - (* a pass, and then the remaining ones *)
    destruct q as [|q].
    { simpl in Hm. lia. }
    assert (m ≫ 1 = 2 ^ Z.of_nat (S q) - 1) as Hhalf by (subst m; apply half_pow2).
    unfold _compress in Heq. apply spine_heights_compress_loop in Heq. simpl in Heq.
    destruct (H (p + 1) q Hhalf) as (t' & Ht' & Hheight).
    { rewrite Heq, Hhalf. by apply level_pass. }
    exists t'. split; [done|]. rewrite Hheight, Nat2Z.inj_succ. lia.
  - (* the pass has the nodes it needs *)
    exfalso. unfold _compress in Heq.
    destruct (_compress_loop_returns (Z.to_nat (m ≫ 1)) [] root) as (t' & Ht' & _);
      [|congruence].
    destruct Hlevel as (b & body & tail & Hhs & Hlen & _).
    rewrite <- length_spine_heights, Hhs, length_app.
    rewrite Z.shiftr_div_pow2 by lia. change (2 ^ 1) with 2.
    assert (2 * (m / 2) ≤ m) by (apply Z.mul_div_le; lia). lia.
Qed.

(** Whenever [dsw_balance] returns, the height is [ceil(log2(n + 1))]. *)
Lemma height_dsw_balance t t' :
  dsw_balance t = Some t' → height t' = Z.log2_up (_count t + 1).
Proof.
  intros Hdsw.
  assert (¬ ∃ k : nat, (2 ≤ k)%nat ∧ _count t = 2 ^ Z.of_nat k - 1) as Hnot.
  { intros Hk. apply dsw_balance_raises_iff in Hk. congruence. }
  revert Hdsw Hnot. unfold dsw_balance. rewrite _count_size.
  set (n := Z.of_nat (size t)).
  destruct (Z.leb_spec n 1) as [Hsmall|Hbig].
  { intros [= <-] _. destruct t as [|l k nm d r]; [done|].
    destruct l, r; simpl in n; try lia. done. }
  destruct (_double_past_spec 1 n ltac:(lia)) as (Hr & _ & j & Hj).
  specialize (Hr ltac:(lia)). rewrite Z.mul_1_l in Hj.
  set (r := _double_past 1 n) in *.
  destruct j as [|[|j]]; [simpl in Hj; lia..|].
  assert (r ≫ 1 = 2 ^ Z.of_nat (S j)) as HM.
  { rewrite Z.shiftr_div_pow2 by lia. change (2 ^ 1) with 2.
    rewrite Hj, (Nat2Z.inj_succ (S j)), Z.pow_succ_r by lia.
    rewrite (Z.mul_comm 2), Z.div_mul by lia. done. }
  rewrite HM. rewrite (Nat2Z.inj_succ (S j)), Z.pow_succ_r in Hj by lia.
  set (M := 2 ^ Z.of_nat (S j)) in *.
  intros Hdsw Hnot.
  assert (n + 1 ≠ r) as Hpart.
  { intros Hfull. apply Hnot. exists (S (S j)). split; [lia|].
    rewrite (Nat2Z.inj_succ (S j)), Z.pow_succ_r by lia. fold M. lia. }
  unfold _compress in Hdsw.
  destruct (_compress_loop (Z.to_nat (n - (M - 1))) [] (_tree_to_vine t))
    as [first|] eqn:Hfirst; simpl in Hdsw; [|done].
  apply spine_heights_compress_loop in Hfirst. simpl in Hfirst.
  unfold _tree_to_vine in Hfirst.
  rewrite spine_heights_tree_to_vine_loop in Hfirst. simpl in Hfirst.
  rewrite pass_replicate in Hfirst by (unfold n in *; lia).
  destruct (_compress_passes_height (M - 1) first 0 j eq_refl) as (t'' & Ht'' & Hheight).
  { destruct (Z.to_nat (n - (M - 1))) as [|i] eqn:Hi; [unfold n in *; lia|].
    simpl in Hfirst.
    exists 1, (replicate i 1 ++ replicate (size t - 2 * S i) 0), [].
    splits; try done.
    - by rewrite app_nil_r.
    - simpl. rewrite length_app, !length_replicate. fold M. unfold n in *. lia.
    - apply Forall_app. split; apply Forall_replicate; lia. }
  assert (t'' = t') as -> by congruence.
  rewrite Hheight. symmetry. apply Z.log2_up_unique; [lia|].
  replace (Z.pred (0 + Z.of_nat j + 2)) with (Z.of_nat (S j)) by lia.
  replace (0 + Z.of_nat j + 2) with (Z.succ (Z.of_nat (S j))) by lia.
  rewrite Z.pow_succ_r by lia. fold M. unfold n in *. lia.
Qed.

End bst_dsw_height.

(** ** [dsw_balance] on [2^k - 1] keys

    The docstring of [dsw_balance] asks for [m = 2^floor(log2(n+1)) - 1].
    The loop [while m <= n] stops at the first power of two above [n],
    not above [n + 1], so for [n = 2^k - 1] the code gets
    [m = 2^(k-1) - 1] and the first pass is asked for [n - m = 2^(k-1)]
    rotations on a vine of [2^k - 1] nodes; the last one finds no
    [next_child]. *)

(** The keys [lo, lo+1, ..., lo+len-1] inserted in ascending order. *)
Definition ascending (len : nat) (lo : Z) : list (op pydict) :=
  (λ i : nat, Insert (lo + Z.of_nat i) "" None) <$> seq 0 len.

(** C3, at a failing input: on the tree built by inserting 2, 1, 3
    [dsw_balance] raises instead of returning a tree with the same
    in-order sequence. *)
Theorem dsw_balance_three_keys_raises :
  let t := run [Insert 2 "" None; Insert 1 "" None; Insert 3 "" None] (@Leaf pydict) in
  keys t = [1; 2; 3] ∧ dsw_balance t = None.
Proof. by vm_compute. Qed.

(** C4, at a failing input: on the chain of the keys 1..15, for which
    the height 4 is expected, [dsw_balance] raises and no tree of height
    4 results. *)
Theorem dsw_balance_fifteen_keys_raises :
  let t := run (ascending 15 1) Leaf in
  _count t = 15 ∧ height t = 15 ∧ (_double_past 1 15 ≫ 1) - 1 = 7 ∧
  dsw_balance t = None.
Proof. by vm_compute. Qed.

(** C10, at a failing input: with three keys the first pass is
    [_compress(2)]; its second rotation scans the child 3, whose right
    child is missing, and reads [next_child.left] on it. *)
Theorem compress_reads_missing_next_child :
  let t := run (ascending 3 1) Leaf in
  let vine := _tree_to_vine t in
  let scanner : frame pydict := (Node Leaf 1 "" None Leaf, 2, ""%string, None) in
  let child : tree pydict := Node Leaf 3 "" None Leaf in
  _count t = 3 ∧ (_double_past 1 3 ≫ 1) - 1 = 1 ∧
  _compress_loop 2 [] vine = _compress_loop 1 [scanner] child ∧
  _compress_loop 1 [scanner] child = None ∧
  dsw_balance t = None.
Proof. by vm_compute. Qed.

(** Away from [n = 2^k - 1] the same chains are balanced to the minimal
    height, as [height_dsw_balance] says of every tree. *)
Example dsw_balance_other_sizes :
  (λ n : nat, height <$> dsw_balance (run (ascending n 1) Leaf)) <$> [2; 4; 5; 6; 8; 14; 16; 30]%nat
  = Some <$> [2; 3; 3; 3; 4; 4; 5; 5].
Proof. by vm_compute. Qed.

(** ** Re-inserting an existing key into the BST *)

(** C5 fails as stated: re-inserting key 7 without a payload replaces
    the payload of the node by [None]. *)
Lemma insert_without_payload_drops_payload :
  let old := Some (Dict ["graph"%string]) in
  let t := Node Leaf 7 "old" old Leaf in
  7 ∈ keys t ∧
  insert 7 "new" None t = Node Leaf 7 "new" None Leaf ∧
  inorder (insert 7 "new" None t) ≠ [(7, "new"%string, old)].
Proof. split; [by left|]. split; [done|]. by vm_compute. Qed.

(** C5, amended: in a BST, [insert] of a key that is present overwrites
    the label and the payload of its node with the arguments of the call
    (no payload leaves [None]), and changes nothing else. *)
Theorem bst_insert_existing_key {Obj : Type} (t : tree Obj) key name data :
  increasing (keys t) → key ∈ keys t →
  insert key name data t = with_contents key name (λ _, data) t.
Proof. apply bst_insert_existing. Qed.

Lemma bst_insert_existing_key_witness :
  let t := Node (Node Leaf 3 "c" None Leaf) 7 "old" (Some (Dict ["graph"%string])) Leaf in
  increasing (keys t) ∧ 7 ∈ keys t ∧
  insert 7 "new" None t = with_contents 7 "new" (λ _, None) t.
Proof.
  split; [|split].
  - repeat constructor; lia.
  - right. left.
  - apply (bst_insert_existing_key
             (Node (Node Leaf 3 "c" None Leaf) 7 "old" (Some (Dict ["graph"%string])) Leaf)).
    + repeat constructor; lia.
    + right. left.
Defined.


(** ** Lists of entries in key order

    Facts about the in-order sequence of an ordered tree, seen as a
    list sorted by key: what the entries below, above, equal to and
    different from a key are on both sides of an entry. *)

Section entries_by_key.
Context {A : Type} (kf : A → Z).
Implicit Types es il ir : list A.

Lemma filter_keeps_all (P : A → Prop) `{∀ x, Decision (P x)} es :
  (∀ x, x ∈ es → P x) → filter P es = es.
Proof.
  induction es as [|e es IH]; intros Hall; [done|].
  rewrite filter_cons_True by (apply Hall; by left).
  rewrite IH; [done|]. intros x Hx. apply Hall. by right.
Qed.

Lemma filter_keeps_none (P : A → Prop) `{∀ x, Decision (P x)} es :
  (∀ x, x ∈ es → ¬ P x) → filter P es = [].
Proof.
  induction es as [|e es IH]; intros Hall; [done|].
  rewrite filter_cons_False by (apply Hall; by left).
  apply IH. intros x Hx. apply Hall. by right.
Qed.

Lemma increasing_split il (e : A) ir :
  increasing (kf <$> (il ++ e :: ir)) →
  increasing (kf <$> il) ∧ increasing (kf <$> ir) ∧
  (∀ x, x ∈ il → kf x < kf e) ∧ (∀ x, x ∈ ir → kf e < kf x).
Proof.
  rewrite fmap_app, fmap_cons, increasing_app, increasing_cons.
  intros (Il & [Ir Hr] & Hlr). splits; try done.
  - intros x Hx. apply Hlr; [|by left]. by apply list_elem_of_fmap_2.
  - intros x Hx. apply Hr. by apply list_elem_of_fmap_2.
Qed.

(** The four filters around an entry [e], for a key below [e]'s. *)
Lemma filters_left (k : Z) il (e : A) ir :
  increasing (kf <$> (il ++ e :: ir)) → k < kf e →
  filter (λ x, kf x < k) (il ++ e :: ir) = filter (λ x, kf x < k) il ∧
  filter (λ x, k < kf x) (il ++ e :: ir) = filter (λ x, k < kf x) il ++ e :: ir ∧
  filter (λ x, kf x ≠ k) (il ++ e :: ir) = filter (λ x, kf x ≠ k) il ++ e :: ir ∧
  filter (λ x, kf x = k) (il ++ e :: ir) = filter (λ x, kf x = k) il.
Proof.
  intros (_ & _ & Hl & Hr)%increasing_split Hk.
  rewrite !filter_app. splits.
  - rewrite (filter_keeps_none (λ x, kf x < k) (e :: ir)); [by rewrite app_nil_r|].
    intros x [->|Hx%Hr]%elem_of_cons; lia.
  - rewrite (filter_keeps_all (λ x, k < kf x) (e :: ir)); [done|].
    intros x [->|Hx%Hr]%elem_of_cons; lia.
  - rewrite (filter_keeps_all (λ x, kf x ≠ k) (e :: ir)); [done|].
    intros x [->|Hx%Hr]%elem_of_cons; lia.
  - rewrite (filter_keeps_none (λ x, kf x = k) (e :: ir)); [by rewrite app_nil_r|].
    intros x [->|Hx%Hr]%elem_of_cons; lia.
Qed.

(** The same for a key above [e]'s. *)
Lemma filters_right (k : Z) il (e : A) ir :
  increasing (kf <$> (il ++ e :: ir)) → kf e < k →
  filter (λ x, kf x < k) (il ++ e :: ir) = il ++ e :: filter (λ x, kf x < k) ir ∧
  filter (λ x, k < kf x) (il ++ e :: ir) = filter (λ x, k < kf x) ir ∧
  filter (λ x, kf x ≠ k) (il ++ e :: ir) = il ++ e :: filter (λ x, kf x ≠ k) ir ∧
  filter (λ x, kf x = k) (il ++ e :: ir) = filter (λ x, kf x = k) ir.
Proof.
  intros (_ & _ & Hl & Hr)%increasing_split Hk.
  rewrite !filter_app. splits.
  - rewrite (filter_keeps_all (λ x, kf x < k) il) by (intros x Hx%Hl; lia).
    by rewrite filter_cons_True by done.
  - rewrite (filter_keeps_none (λ x, k < kf x) il) by (intros x Hx%Hl; lia).
    by rewrite filter_cons_False by lia.
  - rewrite (filter_keeps_all (λ x, kf x ≠ k) il) by (intros x Hx%Hl; lia).
    by rewrite filter_cons_True by lia.
  - rewrite (filter_keeps_none (λ x, kf x = k) il) by (intros x Hx%Hl; lia).
    by rewrite filter_cons_False by lia.
Qed.

(** The same for the key of [e]. *)
Lemma filters_here il (e : A) ir :
  increasing (kf <$> (il ++ e :: ir)) →
  filter (λ x, kf x < kf e) (il ++ e :: ir) = il ∧
  filter (λ x, kf e < kf x) (il ++ e :: ir) = ir ∧
  filter (λ x, kf x ≠ kf e) (il ++ e :: ir) = il ++ ir ∧
  filter (λ x, kf x = kf e) (il ++ e :: ir) = [e].
Proof.
  intros (_ & _ & Hl & Hr)%increasing_split.
  rewrite !filter_app. splits.
  - rewrite (filter_keeps_all (λ x, kf x < kf e) il) by (intros x Hx%Hl; lia).
    rewrite (filter_keeps_none (λ x, kf x < kf e) (e :: ir)); [by rewrite app_nil_r|].
    intros x [->|Hx%Hr]%elem_of_cons; lia.
  - rewrite (filter_keeps_none (λ x, kf e < kf x) il) by (intros x Hx%Hl; lia).
    rewrite filter_cons_False by lia.
    by rewrite (filter_keeps_all (λ x, kf e < kf x) ir) by (intros x Hx%Hr; lia).
  - rewrite (filter_keeps_all (λ x, kf x ≠ kf e) il) by (intros x Hx%Hl; lia).
    rewrite filter_cons_False by (intros ?; done).
    by rewrite (filter_keeps_all (λ x, kf x ≠ kf e) ir) by (intros x Hx%Hr; lia).
  - rewrite (filter_keeps_none (λ x, kf x = kf e) il) by (intros x Hx%Hl; lia).
    rewrite filter_cons_True by done.
    by rewrite (filter_keeps_none (λ x, kf x = kf e) ir) by (intros x Hx%Hr; lia).
Qed.

Lemma fmap_filter_key (P : Z → Prop) `{∀ z, Decision (P z)} es :
  kf <$> filter (λ x, P (kf x)) es = filter P (kf <$> es).
Proof.
  induction es as [|e es IH]; [done|]. rewrite fmap_cons.
  destruct (decide (P (kf e))).
  - rewrite !filter_cons_True by done. rewrite fmap_cons. by rewrite IH.
  - rewrite !filter_cons_False by done. done.
Qed.

End entries_by_key.


(** ** The BST as a map from keys to entries *)

Section bst_map.
Context {Obj : Type}.
Implicit Types t l r : tree Obj.

(** The contents of the node that [search] returns. *)
Definition node_entry t : option (entry Obj) :=
  match t with
  | Leaf => None
  | Node _ k n d _ => Some (k, n, d)
  end.

Lemma inorder_insert t key name data :
  increasing (keys t) →
  inorder (insert key name data t) =
  filter (λ e, e.1.1 < key) (inorder t) ++
  (key, name, data) :: filter (λ e, key < e.1.1) (inorder t).
Proof.
  unfold insert. induction t as [|l IHl k n d r IHr]; [done|].
  intros Hinc. unfold keys in Hinc. simpl in Hinc.
  destruct (increasing_split _ _ _ _ Hinc) as (Il & Ir & _ & _).
  simpl. destruct (Z.ltb_spec key k) as [Hlt|Hge].
  - destruct (filters_left _ key _ _ _ Hinc Hlt) as (F1 & F2 & _ & _).
    cbv beta in F1, F2. unfold entry in *. simpl. rewrite F1, F2, (IHl Il). by rewrite <- app_assoc.
  - destruct (Z.gtb_spec key k) as [Hgt|Hle].
    + destruct (filters_right _ key _ _ _ Hinc Hgt) as (F1 & F2 & _ & _).
      cbv beta in F1, F2. unfold entry in *. simpl. rewrite F1, F2, (IHr Ir). by rewrite <- app_assoc.
    + assert (key = k) as -> by lia.
      destruct (filters_here _ _ _ _ Hinc) as (F1 & F2 & _ & _).
      cbv beta in F1, F2. unfold entry in *. simpl in *. by rewrite F1, F2.
Qed.

Lemma inorder_remove t key :
  increasing (keys t) →
  inorder (remove key t) = filter (λ e, e.1.1 ≠ key) (inorder t).
Proof.
  unfold remove. revert key. induction t as [|l IHl k n d r IHr]; intros key; [done|].
  intros Hinc. pose proof Hinc as Hinc0. unfold keys in Hinc. simpl in Hinc.
  destruct (increasing_split _ _ _ _ Hinc) as (Il & Ir & _ & _).
  simpl. destruct (Z.ltb_spec key k) as [Hlt|Hge].
  - destruct (filters_left _ key _ _ _ Hinc Hlt) as (_ & _ & F3 & _).
    cbv beta in F3. unfold entry in *. simpl. by rewrite F3, (IHl _ Il).
  - destruct (Z.gtb_spec key k) as [Hgt|Hle].
    + destruct (filters_right _ key _ _ _ Hinc Hgt) as (_ & _ & F3 & _).
      cbv beta in F3. unfold entry in *. simpl. by rewrite F3, (IHr _ Ir).
    + assert (key = k) as -> by lia.
      destruct (filters_here _ _ _ _ Hinc) as (_ & _ & F3 & _).
      cbv beta in F3. unfold entry in *. simpl in F3. rewrite F3.
      destruct l as [|ll lk ln ld lr]; [done|].
      destruct r as [|rl rk rn rd rr]; [by rewrite app_nil_r|].
      pose proof (bst_remove_min rl rk rn rd rr Ir) as Hfirst.
      destruct (_min_node rl rk rn rd) as [[sk sn] sd].
      rewrite Hfirst. done.
Qed.

Lemma search_inorder t key :
  increasing (keys t) →
  search t key ≫= node_entry = head (filter (λ e, e.1.1 = key) (inorder t)).
Proof.
  induction t as [|l IHl k n d r IHr]; [done|].
  intros Hinc. unfold keys in Hinc. simpl in Hinc.
  destruct (increasing_split _ _ _ _ Hinc) as (Il & Ir & _ & _).
  simpl. destruct (Z.eqb_spec key k) as [->|Hne].
  - destruct (filters_here _ _ _ _ Hinc) as (_ & _ & _ & F4).
    cbv beta in F4. unfold entry in *. simpl in F4. by rewrite F4.
  - destruct (Z.ltb_spec key k) as [Hlt|Hge].
    + destruct (filters_left _ key _ _ _ Hinc Hlt) as (_ & _ & _ & F4).
      cbv beta in F4. unfold entry in *. rewrite F4. by apply IHl.
    + assert (k < key) as Hgt by lia.
      destruct (filters_right _ key _ _ _ Hinc Hgt) as (_ & _ & _ & F4).
      cbv beta in F4. unfold entry in *. rewrite F4. by apply IHr.
Qed.

Lemma search_insert_found t key name data :
  ∃ l r, search (insert key name data t) key = Some (Node l key name data r).
Proof.
  unfold insert. induction t as [|l IHl k n d r IHr]; simpl.
  - rewrite Z.eqb_refl. by eexists _, _.
  - destruct (Z.ltb_spec key k) as [Hlt|Hge]; simpl.
    + destruct (Z.eqb_spec key k); [lia|].
      destruct (Z.ltb_spec key k); [done|lia].
    + destruct (Z.gtb_spec key k) as [Hgt|Hle]; simpl.
      * destruct (Z.eqb_spec key k); [lia|].
        destruct (Z.ltb_spec key k); [lia|done].
      * assert (key = k) as -> by lia. rewrite Z.eqb_refl. by eexists _, _.
Qed.

Lemma search_insert_other t key name data key' :
  key' ≠ key →
  search (insert key name data t) key' ≫= node_entry = search t key' ≫= node_entry.
Proof.
  intros Hne. unfold insert. induction t as [|l IHl k n d r IHr]; simpl.
  - destruct (Z.eqb_spec key' key); [done|].
    by destruct (key' <? key).
  - destruct (Z.ltb_spec key k) as [Hlt|Hge]; simpl.
    + destruct (key' =? k); [done|]. by destruct (key' <? k).
    + destruct (Z.gtb_spec key k) as [Hgt|Hle]; simpl.
      * destruct (key' =? k); [done|]. by destruct (key' <? k).
      * assert (key = k) as -> by lia.
        destruct (Z.eqb_spec key' k); [done|]. by destruct (key' <? k).
Qed.

End bst_map.


(** ** What [insert], [remove] and [search] do to the entries *)

Section bst_map_laws.
Context {Obj : Type}.
Implicit Types t l r : tree Obj.

Lemma search_is_node t key nd :
  search t key = Some nd → ∃ l n d r, nd = Node l key n d r.
Proof.
  induction t as [|l IHl k n d r IHr]; simpl; [done|].
  destruct (Z.eqb_spec key k) as [->|Hne].
  - intros [= <-]. by eexists _, _, _, _.
  - by destruct (key <? k).
Qed.

Lemma search_none_entry t key :
  search t key = None ↔ search t key ≫= node_entry = None.
Proof.
  destruct (search t key) as [nd|] eqn:Hs; simpl; [|done].
  apply search_is_node in Hs as (l & n & d & r & ->). done.
Qed.

Lemma filter_eq_after_ne {A : Type} (kf : A → Z) (key key' : Z) (es : list A) :
  filter (λ e, kf e = key') (filter (λ e, kf e ≠ key) es) =
  if decide (key' = key) then [] else filter (λ e, kf e = key') es.
Proof.
  induction es as [|e es IH]; [by case_decide|].
  destruct (decide (kf e = key)) as [He|He].
  - rewrite (filter_cons_False (λ e, kf e ≠ key) e es) by (intros ?; done).
    rewrite IH. case_decide; [done|].
    by rewrite (filter_cons_False (λ e, kf e = key') e es) by congruence.
  - rewrite (filter_cons_True (λ e, kf e ≠ key) e es) by done.
    destruct (decide (kf e = key')) as [He'|He'].
    + rewrite !(filter_cons_True (λ e, kf e = key') e) by done.
      rewrite IH. case_decide; [congruence|done].
    + rewrite !(filter_cons_False (λ e, kf e = key') e) by done. by rewrite IH.
Qed.

(** X1: in a BST with increasing keys, after [insert(key, name, data)]
    the in-order traversal visits the entries that were below [key],
    then [(key, name, data)], then the entries that were above [key]. *)
Theorem bst_insert_entries t key name data :
  increasing (keys t) →
  inorder (insert key name data t) =
  filter (λ e, e.1.1 < key) (inorder t) ++
  (key, name, data) :: filter (λ e, key < e.1.1) (inorder t).
Proof. apply inorder_insert. Qed.

(** X2: in a BST with increasing keys, [remove(key)] takes the entry of
    [key] out of the in-order sequence and leaves every other entry,
    with its name and data, where it was (also when the node found has
    two children and takes over the contents of its successor). *)
Theorem bst_remove_entries t key :
  increasing (keys t) →
  inorder (remove key t) = filter (λ e, e.1.1 ≠ key) (inorder t).
Proof. apply inorder_remove. Qed.

(** X3: in a BST with increasing keys, [search(key)] returns the node
    holding the entry that the in-order traversal shows for [key], and
    [None] exactly when the traversal shows none. *)
Theorem bst_search_entries t key :
  increasing (keys t) →
  search t key ≫= node_entry = head (filter (λ e, e.1.1 = key) (inorder t)) ∧
  (search t key = None ↔ key ∉ keys t).
Proof.
  intros Hinc. split; [by apply search_inorder|].
  rewrite search_none_entry, (search_inorder t key Hinc). unfold keys.
  rewrite list_elem_of_fmap. split.
  - intros Hhead (e & -> & He).
    assert (e ∈ filter (λ e0 : Z * string * option Obj, e0.1.1 = e.1.1) (inorder t)) as Hin
      by (by apply list_elem_of_filter).
    destruct (filter _ (inorder t)); [by apply elem_of_nil in Hin|done].
  - intros Hnot. destruct (filter _ (inorder t)) as [|e es] eqn:Hf; [done|].
    exfalso. apply Hnot. exists e.
    assert (e ∈ filter (λ e0 : Z * string * option Obj, e0.1.1 = key) (inorder t)) as Hin
      by (rewrite Hf; by left).
    apply list_elem_of_filter in Hin as [-> Hin]. done.
Qed.

(** X4: on every BST, ordered or not, [search(key)] right after
    [insert(key, name, data)] returns a node with that key, name and
    data, and the search of any other key finds the contents it found
    before. *)
Theorem bst_search_after_insert t key name data :
  (∃ l r, search (insert key name data t) key = Some (Node l key name data r)) ∧
  ∀ key', key' ≠ key →
    search (insert key name data t) key' ≫= node_entry =
    search t key' ≫= node_entry.
Proof.
  split; [apply search_insert_found|]. intros key' Hne. by apply search_insert_other.
Qed.

(** X5: in a BST with increasing keys, [search(key)] right after
    [remove(key)] returns [None], and the search of any other key finds
    the contents it found before. *)
Theorem bst_search_after_remove t key :
  increasing (keys t) →
  search (remove key t) key = None ∧
  ∀ key', key' ≠ key →
    search (remove key t) key' ≫= node_entry = search t key' ≫= node_entry.
Proof.
  intros Hinc.
  assert (increasing (keys (remove key t))) as Hinc' by (by apply bst_remove_increasing).
  split.
  - rewrite search_none_entry, (search_inorder _ _ Hinc'), (inorder_remove _ _ Hinc).
    rewrite (filter_eq_after_ne (λ e : entry Obj, e.1.1)). by rewrite decide_True.
  - intros key' Hne.
    rewrite (search_inorder _ _ Hinc'), (search_inorder _ _ Hinc), (inorder_remove _ _ Hinc).
    rewrite (filter_eq_after_ne (λ e : entry Obj, e.1.1)). by rewrite decide_False.
Qed.

End bst_map_laws.

(** A BST with three cities, for the examples. *)
Definition three_cities : tree pydict :=
  Node (Node Leaf 3 "c" None Leaf) 7 "g" (Some (Dict ["graph"%string]))
       (Node Leaf 9 "i" None Leaf).

Lemma three_cities_increasing : increasing (keys three_cities).
Proof. repeat constructor; lia. Qed.

Lemma bst_insert_entries_witness :
  increasing (keys three_cities) ∧
  inorder (insert 8 "h" None three_cities) =
  [(3, "c"%string, None); (7, "g"%string, Some (Dict ["graph"%string]));
   (8, "h"%string, None); (9, "i"%string, None)].
Proof.
  split; [exact three_cities_increasing|].
  etrans.
  - apply (bst_insert_entries three_cities 8 "h" None three_cities_increasing).
  - reflexivity.
Defined.

Lemma bst_remove_entries_witness :
  increasing (keys three_cities) ∧
  inorder (remove 7 three_cities) = [(3, "c"%string, None); (9, "i"%string, None)].
Proof.
  split; [exact three_cities_increasing|].
  etrans.
  - apply (bst_remove_entries three_cities 7 three_cities_increasing).
  - reflexivity.
Defined.

Lemma bst_search_entries_witness :
  increasing (keys three_cities) ∧
  search three_cities 9 ≫= node_entry = Some (9, "i"%string, None) ∧
  (search three_cities 8 = None ↔ 8 ∉ keys three_cities).
Proof.
  split; [exact three_cities_increasing|].
  destruct (bst_search_entries three_cities 9 three_cities_increasing) as [H9 _].
  destruct (bst_search_entries three_cities 8 three_cities_increasing) as [_ H8].
  split; [|exact H8]. etrans; [exact H9|reflexivity].
Defined.

Lemma bst_search_after_remove_witness :
  increasing (keys three_cities) ∧
  search (remove 7 three_cities) 7 = None ∧
  search (remove 7 three_cities) 9 ≫= node_entry = Some (9, "i"%string, None).
Proof.
  split; [exact three_cities_increasing|].
  destruct (bst_search_after_remove three_cities 7 three_cities_increasing) as [H7 H9].
  split; [exact H7|]. etrans; [apply (H9 9); lia|reflexivity].
Defined.


(** ** The pieces of DSW, as a caller meets them *)

Section bst_dsw_laws.
Context {Obj : Type}.
Implicit Types t l r rest : tree Obj.

(** A vine: no node has a left child. *)
Fixpoint is_vine t : Prop :=
  match t with
  | Leaf => True
  | Node l _ _ _ r => l = Leaf ∧ is_vine r
  end.

Lemma is_vine_plug (walked : list (frame Obj)) rest :
  Forall (λ f : frame Obj, f.1.1.1 = Leaf) walked → is_vine rest →
  is_vine (plug walked rest).
Proof.
  revert rest. induction walked as [|[[[l k] n] d] above IH]; intros rest Hall Hrest; [done|].
  apply Forall_cons in Hall as [Hl Hall]. simpl in Hl. subst l.
  change (plug ((Leaf, k, n, d) :: above) rest) with (plug above (Node Leaf k n d rest)).
  by apply IH.
Qed.

Lemma is_vine_tree_to_vine_loop (walked : list (frame Obj)) rest :
  Forall (λ f : frame Obj, f.1.1.1 = Leaf) walked →
  is_vine (_tree_to_vine_loop walked rest).
Proof.
  funelim (_tree_to_vine_loop walked rest); intros Hall.
  - by apply is_vine_plug.
  - apply H. by constructor.
  - by apply H.
Qed.

(** X6: [_tree_to_vine] turns every tree into a vine (no node keeps a
    left child) with the same in-order sequence; every node ends up on
    the right spine. *)
Theorem tree_to_vine_is_vine t :
  is_vine (_tree_to_vine t) ∧
  inorder (_tree_to_vine t) = inorder t ∧
  Z.of_nat (rspine (_tree_to_vine t)) = _count t.
Proof.
  splits.
  - by apply is_vine_tree_to_vine_loop.
  - apply inorder_tree_to_vine.
  - by rewrite rspine_tree_to_vine, _count_size.
Qed.

Lemma _compress_loop_none_iff (i : nat) (walked : list (frame Obj)) rest :
  _compress_loop i walked rest = None ↔
  Nat.odd (rspine rest) = true ∧ (rspine rest < 2 * i)%nat.
Proof.
  revert walked rest. induction i as [|i IH]; intros walked rest; simpl.
  - split; [done|]. intros [_ ?]. lia.
  - destruct rest as [|cl ck cn cd [|nl nk nn nd nr]].
    + split; [done|]. by intros [? _].
    + split; [|done]. intros _. split; [done|simpl; lia].
    + rewrite IH. change (rspine (Node cl ck cn cd (Node nl nk nn nd nr)))
        with (S (S (rspine nr))).
      change (Nat.odd (S (S (rspine nr)))) with (Nat.odd (rspine nr)).
      split; intros [? ?]; (split; [done|lia]).
Qed.

(** X7: [_compress(count)] raises exactly when the right spine has an
    odd number of nodes, fewer than [2 * count]: the rotation that finds
    a last child without a right child.  When it returns, the in-order
    sequence is unchanged. *)
Theorem compress_raises_iff (count : Z) t :
  (_compress count t = None ↔
   Nat.odd (rspine t) = true ∧ Z.of_nat (rspine t) < 2 * count) ∧
  ∀ t', _compress count t = Some t' → inorder t' = inorder t.
Proof.
  split; [|intros t'; apply inorder_compress].
  unfold _compress. rewrite _compress_loop_none_iff.
  split; intros [Hodd Hlt]; (split; [done|lia]).
Qed.

(** X8: [dsw_balance] raises exactly on the trees of [2^k - 1] nodes
    with [k >= 2] (3, 7, 15, 31, ... nodes), and returns on every other
    tree. *)
Theorem dsw_balance_raises_exactly t :
  dsw_balance t = None ↔ ∃ k : nat, (2 ≤ k)%nat ∧ _count t = 2 ^ Z.of_nat k - 1.
Proof. apply dsw_balance_raises_iff. Qed.

(** X9: whenever [dsw_balance] returns, the tree it leaves has the
    in-order sequence of the tree before the call, so it has the same
    entries and is ordered if the tree was. *)
Theorem dsw_balance_keeps_entries t t' :
  dsw_balance t = Some t' →
  inorder t' = inorder t ∧ (increasing (keys t) → ordered t').
Proof.
  intros Hdsw. pose proof (inorder_dsw_balance t t' Hdsw) as Hio.
  split; [done|]. intros Hinc. apply bst_ordered_increasing.
  unfold keys in *. by rewrite Hio.
Qed.

(** X10: whenever [dsw_balance] returns, the tree it leaves has the
    least height a binary tree of [n] nodes can have,
    [ceil(log2(n + 1))]. *)
Theorem dsw_balance_minimal_height t t' :
  dsw_balance t = Some t' → height t' = Z.log2_up (_count t + 1).
Proof. apply height_dsw_balance. Qed.

End bst_dsw_laws.

(** The chain of the keys 1..6 and what [dsw_balance] makes of it. *)
Definition six_chain : tree pydict := run (ascending 6 1) Leaf.

Definition six_balanced : tree pydict :=
  Node (Node (Node Leaf 1 "" None Leaf) 2 "" None (Node Leaf 3 "" None Leaf))
       4 "" None
       (Node (Node Leaf 5 "" None Leaf) 6 "" None Leaf).

Lemma dsw_balance_keeps_entries_witness :
  dsw_balance six_chain = Some six_balanced ∧
  inorder six_balanced = inorder six_chain ∧
  (increasing (keys six_chain) → ordered six_balanced).
Proof.
  split; [reflexivity|].
  apply (dsw_balance_keeps_entries six_chain six_balanced). reflexivity.
Defined.

Lemma dsw_balance_minimal_height_witness :
  dsw_balance six_chain = Some six_balanced ∧
  height six_balanced = Z.log2_up (_count six_chain + 1).
Proof.
  split; [reflexivity|].
  apply (dsw_balance_minimal_height six_chain six_balanced). reflexivity.
Defined.

(** ** The other traversals *)

Section bst_traversals.
Context {Obj : Type}.
Implicit Types t l r : tree Obj.

(** [preorder] and [postorder]: the nodes in the order [visit] receives
    them. *)
Fixpoint preorder t : list (entry Obj) :=
  match t with
  | Leaf => []
  | Node l k n d r => (k, n, d) :: preorder l ++ preorder r
  end.

Fixpoint postorder t : list (entry Obj) :=
  match t with
  | Leaf => []
  | Node l k n d r => postorder l ++ postorder r ++ [(k, n, d)]
  end.

Lemma preorder_perm t : preorder t ≡ₚ inorder t.
Proof.
  induction t as [|l IHl k n d r IHr]; simpl; [done|].
  rewrite IHl, IHr. apply Permutation_middle.
Qed.

Lemma postorder_perm t : postorder t ≡ₚ inorder t.
Proof.
  induction t as [|l IHl k n d r IHr]; simpl; [done|].
  rewrite IHl, IHr. apply Permutation_app_head. symmetry. apply Permutation_cons_append.
Qed.

Lemma length_inorder t : length (inorder t) = size t.
Proof.
  induction t as [|l IHl k n d r IHr]; simpl; [done|].
  rewrite length_app. simpl. lia.
Qed.

(** Inserting a sequence of entries one after the other. *)
Definition insert_all (es : list (entry Obj)) t : tree Obj :=
  foldl (λ b e, insert e.1.1 e.1.2 e.2 b) t es.

Lemma insert_all_app es1 es2 t :
  insert_all (es1 ++ es2) t = insert_all es2 (insert_all es1 t).
Proof. apply foldl_app. Qed.

Lemma insert_all_left es l k n d r :
  (∀ e, e ∈ es → e.1.1 < k) →
  insert_all es (Node l k n d r) = Node (insert_all es l) k n d r.
Proof.
  revert l. induction es as [|e es IH]; intros l Hall; [done|].
  assert (e.1.1 < k) as He by (apply Hall; by left).
  change (insert_all (e :: es) (Node l k n d r))
    with (insert_all es (_insert (Node l k n d r) e.1.1 e.1.2 e.2)).
  simpl. rewrite (proj2 (Z.ltb_lt _ _) He).
  rewrite IH; [done|]. intros x Hx. apply Hall. by right.
Qed.

Lemma insert_all_right es l k n d r :
  (∀ e, e ∈ es → k < e.1.1) →
  insert_all es (Node l k n d r) = Node l k n d (insert_all es r).
Proof.
  revert r. induction es as [|e es IH]; intros r Hall; [done|].
  assert (k < e.1.1) as He by (apply Hall; by left).
  change (insert_all (e :: es) (Node l k n d r))
    with (insert_all es (_insert (Node l k n d r) e.1.1 e.1.2 e.2)).
  simpl. rewrite (proj2 (Z.ltb_ge _ _)) by lia.
  rewrite Z.gtb_ltb, (proj2 (Z.ltb_lt _ _) He).
  rewrite IH; [done|]. intros x Hx. apply Hall. by right.
Qed.

Lemma insert_all_preorder t :
  increasing (keys t) → insert_all (preorder t) Leaf = t.
Proof.
  induction t as [|l IHl k n d r IHr]; [done|].
  intros Hinc. unfold keys in Hinc. simpl in Hinc.
  destruct (increasing_split (λ e : Z * string * option Obj, e.1.1) _ _ _ Hinc)
    as (Il & Ir & Hl & Hr).
  change (insert_all (preorder (Node l k n d r)) Leaf)
    with (insert_all (preorder l ++ preorder r) (Node Leaf k n d Leaf)).
  rewrite insert_all_app, insert_all_left, insert_all_right.
  - by rewrite (IHl Il), (IHr Ir).
  - intros e He. apply (Hr e). by rewrite <- (preorder_perm r).
  - intros e He. apply (Hl e). by rewrite <- (preorder_perm l).
Qed.

(** Inserting entries of increasing keys, all above the keys of the
    tree, appends them to the in-order sequence. *)
Lemma inorder_insert_all es t :
  increasing ((λ e : Z * string * option Obj, e.1.1) <$> (inorder t ++ es)) →
  inorder (insert_all es t) = inorder t ++ es.
Proof.
  revert t. induction es as [|e es IH]; intros t Hinc; [by rewrite app_nil_r|].
  change (insert_all (e :: es) t) with (insert_all es (insert e.1.1 e.1.2 e.2 t)).
  destruct (increasing_split (λ e : Z * string * option Obj, e.1.1) _ _ _ Hinc)
    as (It & _ & Ht & _).
  assert (inorder (insert e.1.1 e.1.2 e.2 t) = inorder t ++ [e]) as Hio.
  { rewrite (inorder_insert t _ _ _ It).
    rewrite (filter_keeps_all (λ x : Z * string * option Obj, x.1.1 < e.1.1))
      by (intros x Hx; by apply Ht).
    rewrite (filter_keeps_none (λ x : Z * string * option Obj, e.1.1 < x.1.1)).
    - by destruct e as [[??]?].
    - intros x Hx. specialize (Ht x Hx). simpl in Ht. lia. }
  rewrite IH; rewrite Hio, <- app_assoc; done.
Qed.

(** Inserting a key above all keys of a vine leaves a vine: the tree
    grows along its right spine only. *)
Lemma is_vine_insert_above t key name data :
  is_vine t → (∀ x, x ∈ keys t → x < key) → is_vine (insert key name data t).
Proof.
  unfold insert. induction t as [|l IHl k n d r IHr]; [done|].
  intros [-> Hr] Hall. simpl.
  assert (k < key) as Hk.
  { apply Hall. rewrite bst_keys_node. apply elem_of_app. right. by left. }
  rewrite (proj2 (Z.ltb_ge _ _)) by lia. rewrite Z.gtb_ltb, (proj2 (Z.ltb_lt _ _) Hk).
  split; [done|]. apply IHr; [done|].
  intros x Hx. apply Hall. rewrite bst_keys_node. apply elem_of_app. right. by right.
Qed.

Lemma is_vine_insert_all es t :
  is_vine t →
  increasing ((λ e : Z * string * option Obj, e.1.1) <$> (inorder t ++ es)) →
  is_vine (insert_all es t).
Proof.
  revert t. induction es as [|e es IH]; intros t Ht Hinc; [done|].
  change (insert_all (e :: es) t) with (insert_all es (insert e.1.1 e.1.2 e.2 t)).
  destruct (increasing_split (λ e : Z * string * option Obj, e.1.1) _ _ _ Hinc)
    as (_ & _ & Hbelow & _).
  assert (increasing ((λ e : Z * string * option Obj, e.1.1) <$> (inorder t ++ [e])))
    as Hinc1.
  { replace (inorder t ++ e :: es) with ((inorder t ++ [e]) ++ es) in Hinc
      by (by rewrite <- app_assoc).
    rewrite fmap_app in Hinc. by apply increasing_app in Hinc as (? & _). }
  pose proof (inorder_insert_all [e] t Hinc1) as Hio.
  change (insert_all [e] t) with (insert e.1.1 e.1.2 e.2 t) in Hio.
  apply IH.
  - apply is_vine_insert_above; [done|]. intros x Hx.
    unfold keys in Hx. apply list_elem_of_fmap in Hx as (y & -> & Hy). by apply Hbelow.
  - by rewrite Hio, <- app_assoc.
Qed.

(** A vine is as high as it has nodes. *)
Lemma height_vine t : is_vine t → height t = Z.of_nat (size t).
Proof.
  induction t as [|l IHl k n d r IHr]; [done|]. intros [-> Hr].
  simpl. rewrite (IHr Hr). lia.
Qed.

End bst_traversals.

End BST.

(** * The AVL tree of [arvore_avl.py] *)

Module AVL.
Section avl.
Context `{PyObject Obj}.

(** [AVLNode]: key, name, data, left, right and the stored [height]
    field.  [Leaf] is [None]. *)
Inductive tree : Type :=
| Leaf
| Node (left : tree) (key : Z) (name : string) (data : option Obj)
       (height : Z) (right : tree).

Definition entry : Type := Z * string * option Obj.

(** [node.height if node else 0]: the stored field is read. *)
Definition _height (node : tree) : Z :=
  match node with
  | Leaf => 0
  | Node _ _ _ _ h _ => h
  end.

Definition _update_height (node : tree) : option tree :=
  match node with
  | Leaf => None
  | Node l k n d _ r => Some (Node l k n d (1 + Z.max (_height l) (_height r)) r)
  end.

Definition _balance_factor (node : tree) : option Z :=
  match node with
  | Leaf => None
  | Node l _ _ _ _ r => Some (_height l - _height r)
  end.

Definition _rotate_right (y : tree) : option tree :=
  match y with
  | Node (Node xl xk xn xd xh T2) k n d h r =>
      y' ← _update_height (Node T2 k n d h r);
      _update_height (Node xl xk xn xd xh y')
  | _ => None
  end.

Definition _rotate_left (x : tree) : option tree :=
  match x with
  | Node l k n d h (Node T2 yk yn yd yh yr) =>
      x' ← _update_height (Node l k n d h T2);
      _update_height (Node x' yk yn yd yh yr)
  | _ => None
  end.

Definition _rebalance (node : tree) : option tree :=
  node ← _update_height node;
  bf ← _balance_factor node;
  match node with
  | Leaf => None
  | Node l k n d h r =>
      if bf >? 1 then
        lbf ← _balance_factor l;
        node' ← (if lbf <? 0
                 then l' ← _rotate_left l; Some (Node l' k n d h r)
                 else Some node);
        _rotate_right node'
      else if bf <? -1 then
        rbf ← _balance_factor r;
        node' ← (if rbf >? 0
                 then r' ← _rotate_right r; Some (Node l k n d h r')
                 else Some node);
        _rotate_left node'
      else Some node
  end.

(** [AVLTree.insert] ([_insert] is its inner function).  A new node
    gets height 1 and, when no payload was given, a fresh city record. *)
Fixpoint _insert (node : tree) (key : Z) (name : string) (data : option Obj)
  : option tree :=
  match node with
  | Leaf =>
      let data := match data with None => Some new_city_data | Some _ => data end in
      Some (Node Leaf key name data 1 Leaf)
  | Node l k n d h r =>
      if key <? k then
        l' ← _insert l key name data; _rebalance (Node l' k n d h r)
      else if key >? k then
        r' ← _insert r key name data; _rebalance (Node l k n d h r')
      else Some (Node l k name (py_or data d) h r)
  end.

Definition insert (key : Z) (name : string) (data : option Obj) (root : tree)
  : option tree :=
  _insert root key name data.

(** [AVLTree.search]. *)
Fixpoint search (root : tree) (key : Z) : option tree :=
  match root with
  | Leaf => None
  | Node l k _ _ _ r =>
      if key =? k then Some root
      else if key <? k then search l key
      else search r key
  end.

(** [_min_node] of the node with left child [l] and contents [k], [n],
    [d]: the contents of the leftmost node. *)
Fixpoint _min_node (l : tree) (k : Z) (n : string) (d : option Obj) : entry :=
  match l with
  | Leaf => (k, n, d)
  | Node ll lk ln ld _ _ => _min_node ll lk ln ld
  end.

(** [AVLTree.remove] ([_remove] is its inner function). *)
Fixpoint _remove (node : tree) (key : Z) : option tree :=
  match node with
  | Leaf => Some Leaf
  | Node l k n d h r =>
      if key <? k then
        l' ← _remove l key; _rebalance (Node l' k n d h r)
      else if key >? k then
        r' ← _remove r key; _rebalance (Node l k n d h r')
      else
        match l, r with
        | Leaf, _ => Some r
        | _, Leaf => Some l
        | _, Node rl rk rn rd _ _ =>
            let '(sk, sn, sd) := _min_node rl rk rn rd in
            r' ← _remove r sk; _rebalance (Node l sk sn sd h r')
        end
  end.

Definition remove (key : Z) (root : tree) : option tree := _remove root key.

Fixpoint inorder (root : tree) : list entry :=
  match root with
  | Leaf => []
  | Node l k n d _ r => inorder l ++ (k, n, d) :: inorder r
  end.

Definition keys (root : tree) : list Z := (λ e : entry, e.1.1) <$> inorder root.

(** The height the invariant speaks of: [height(empty) = 0] and
    [height(node) = 1 + max(height(left), height(right))]. *)
Fixpoint height (root : tree) : Z :=
  match root with
  | Leaf => 0
  | Node l _ _ _ _ r => 1 + Z.max (height l) (height r)
  end.

(** Every node has [|height(left) - height(right)| <= 1]. *)
Fixpoint balanced (root : tree) : Prop :=
  match root with
  | Leaf => True
  | Node l _ _ _ _ r =>
      balanced l ∧ balanced r ∧ -1 ≤ height l - height r ≤ 1
  end.

(** Every stored [height] field holds the node's height. *)
Fixpoint heights_stored (root : tree) : Prop :=
  match root with
  | Leaf => True
  | Node l _ _ _ h r =>
      heights_stored l ∧ heights_stored r ∧ h = 1 + Z.max (height l) (height r)
  end.

(** Every node's key is above the keys to its left and below the keys
    to its right. *)
Fixpoint ordered (root : tree) : Prop :=
  match root with
  | Leaf => True
  | Node l k _ _ _ r =>
      ordered l ∧ ordered r ∧
      (∀ x, x ∈ keys l → x < k) ∧ (∀ x, x ∈ keys r → k < x)
  end.

(** The same tree with the contents of the node of key [key] replaced. *)
Fixpoint with_contents (key : Z) (name : string) (f : option Obj → option Obj)
    (root : tree) : tree :=
  match root with
  | Leaf => Leaf
  | Node l k n d h r =>
      if key =? k
      then Node (with_contents key name f l) k name (f d) h (with_contents key name f r)
      else Node (with_contents key name f l) k n d h (with_contents key name f r)
  end.

(** One call of a sequence of [insert] and [remove] calls. *)
Definition apply_op (o : op Obj) (root : tree) : option tree :=
  match o with
  | Insert key name data => insert key name data root
  | Remove key => remove key root
  end.

Fixpoint run (ops : list (op Obj)) (root : tree) : option tree :=
  match ops with
  | [] => Some root
  | o :: ops' => root' ← apply_op o root; run ops' root'
  end.

End avl.
Arguments tree : clear implicits.

(** ** Rebalancing keeps the AVL shape *)

Section avl_shape.
Context `{PyObject Obj}.
Implicit Types t l r : tree Obj.

Lemma height_nonneg t : 0 ≤ height t.
Proof. induction t; simpl; lia. Qed.

Lemma _height_stored t : heights_stored t → _height t = height t.
Proof. destruct t; simpl; [done|]. by intros (_ & _ & ->). Qed.

(** The shape a tree is in between two operations. *)
Definition avl t : Prop := heights_stored t ∧ balanced t.

Lemma avl_node l k n d h r :
  avl (Node l k n d h r) ↔
  avl l ∧ avl r ∧ h = 1 + Z.max (height l) (height r) ∧
  -1 ≤ height l - height r ≤ 1.
Proof. unfold avl; simpl. tauto. Qed.

Lemma avl_leaf : avl (@Leaf Obj).
Proof. by split. Qed.

Lemma _height_avl t : avl t → _height t = height t.
Proof. intros [? _]. by apply _height_stored. Qed.

Ltac split_avl :=
  repeat match goal with
  | H : avl (Node _ _ _ _ _ _) |- _ => apply avl_node in H; destruct H as (? & ? & ? & ?)
  | H : avl Leaf |- _ => clear H
  end.

Ltac read_heights :=
  repeat match goal with
  | H : avl ?t |- context [_height ?t] => rewrite (_height_avl t H)
  end.

Ltac height_facts :=
  repeat match goal with
  | |- context [height ?t] =>
      lazymatch goal with
      | _ : 0 ≤ height t |- _ => fail
      | _ => pose proof (height_nonneg t)
      end
  | _ : context [height ?t] |- _ =>
      lazymatch goal with
      | _ : 0 ≤ height t |- _ => fail
      | _ => pose proof (height_nonneg t)
      end
  end.

(** [_rebalance] on a node whose subtrees are AVL trees that differ in
    height by at most two: it succeeds, the result is an AVL tree with
    the same in-order sequence, and it is the node itself (with its
    height field set) when the subtrees differ by at most one. *)
Lemma _rebalance_spec l k n d h r :
  avl l → avl r → -2 ≤ height l - height r ≤ 2 →
  ∃ t', _rebalance (Node l k n d h r) = Some t' ∧ avl t' ∧
        inorder t' = inorder l ++ (k, n, d) :: inorder r ∧
        Z.max (height l) (height r) ≤ height t' ≤ 1 + Z.max (height l) (height r) ∧
        (-1 ≤ height l - height r ≤ 1 →
         t' = Node l k n d (1 + Z.max (height l) (height r)) r ∧
         height t' = 1 + Z.max (height l) (height r)).
Proof.
  intros Hl Hr Hd. unfold _rebalance. simpl. read_heights.
  destruct (Z.gtb_spec (height l - height r) 1) as [Hbf|Hbf].
  - (* left heavy *)
    destruct l as [|ll lk ln ld lh lr]; simpl in *.
    { pose proof (height_nonneg r). lia. }
    split_avl. read_heights.
    destruct (Z.ltb_spec (height ll - height lr) 0) as [Hlbf|Hlbf].
    + destruct lr as [|lrl lrk lrn lrd lrh lrr]; simpl in *.
      { pose proof (height_nonneg ll). lia. }
      split_avl. read_heights. eexists. split; [done|].
      height_facts.
      split; [|split; [|split]].
      * rewrite !avl_node. simpl. read_heights. splits; try done; lia.
      * inorder_eq.
      * simpl. lia.
      * lia.
    + eexists. split; [done|]. height_facts.
      split; [|split; [|split]].
      * rewrite !avl_node. simpl. read_heights. splits; try done; lia.
      * inorder_eq.
      * simpl. lia.
      * lia.
  - destruct (Z.ltb_spec (height l - height r) (-1)) as [Hbf'|Hbf'].
    + (* right heavy *)
      destruct r as [|rl rk rn rd rh rr]; simpl in *.
      { pose proof (height_nonneg l). lia. }
      split_avl. read_heights.
      destruct (Z.gtb_spec (height rl - height rr) 0) as [Hrbf|Hrbf].
      * destruct rl as [|rll rlk rln rld rlh rlr]; simpl in *.
        { pose proof (height_nonneg rr). lia. }
        split_avl. read_heights. eexists. split; [done|].
        height_facts.
        split; [|split; [|split]].
        -- rewrite !avl_node. simpl. read_heights. splits; try done; lia.
        -- inorder_eq.
        -- simpl. lia.
        -- lia.
      * eexists. split; [done|]. height_facts.
        split; [|split; [|split]].
        -- rewrite !avl_node. simpl. read_heights. splits; try done; lia.
        -- inorder_eq.
        -- simpl. lia.
        -- lia.
    + eexists. split; [done|].
      split; [|split; [|split]].
      * rewrite avl_node. splits; try done; lia.
      * done.
      * simpl. lia.
      * done.
Qed.

End avl_shape.

(** ** Insertion and removal keep the AVL shape and the key order *)

Section avl_ops.
Context `{PyObject Obj}.
Implicit Types t l r : tree Obj.

Lemma avl_keys_node l k n d h r : keys (Node l k n d h r) = keys l ++ k :: keys r.
Proof. unfold keys. simpl. by rewrite fmap_app. Qed.

Lemma avl_keys_leaf : keys (@Leaf Obj) = [].
Proof. done. Qed.

Lemma keys_of_inorder t l (e : entry) r :
  inorder t = inorder l ++ e :: inorder r → keys t = keys l ++ e.1.1 :: keys r.
Proof. unfold keys. intros ->. by rewrite fmap_app. Qed.

Lemma avl_ordered_increasing t : ordered t ↔ increasing (keys t).
Proof.
  induction t as [|l IHl k n d h r IHr]; simpl.
  - rewrite avl_keys_leaf. split; [constructor|done].
  - rewrite avl_keys_node, increasing_app, increasing_cons, IHl, IHr. split.
    + intros (Hl & Hr & Hlk & Hkr). splits; try done.
      intros x y Hx [->|Hy]%elem_of_cons; [by apply Hlk|].
      specialize (Hlk x Hx). specialize (Hkr y Hy). lia.
    + intros (Hl & [Hr Hkr] & Hlr). splits; try done.
      intros x Hx. apply Hlr; [done|by left].
Qed.

Lemma _insert_spec t key name data :
  avl t →
  ∃ t', _insert t key name data = Some t' ∧ avl t' ∧
        height t ≤ height t' ≤ height t + 1 ∧
        (∀ x, x ∈ keys t' ↔ x = key ∨ x ∈ keys t) ∧
        (increasing (keys t) → increasing (keys t')).
Proof.
  induction t as [|l IHl k n d h r IHr]; intros Ht.
  - simpl. eexists. split; [done|]. splits.
    + rewrite avl_node. simpl. splits; try apply avl_leaf; lia.
    + simpl. lia.
    + simpl. lia.
    + intros x. rewrite avl_keys_node, avl_keys_leaf. simpl. rewrite list_elem_of_singleton.
      rewrite elem_of_nil. tauto.
    + intros _. rewrite avl_keys_node, avl_keys_leaf. simpl. repeat constructor.
  - apply avl_node in Ht as (Hl & Hr & Hh & Hb). simpl.
    destruct (Z.ltb_spec key k) as [Hlt|Hge].
    + destruct (IHl Hl) as (l' & -> & Hl' & Hhl & Hmem & Hinc). simpl.
      destruct (_rebalance_spec l' k n d h r Hl' Hr ltac:(lia))
        as (t' & -> & Ht' & Hio & Hht & Hid).
      exists t'. split; [done|]. apply keys_of_inorder in Hio. simpl in Hio.
      splits; try done.
      * destruct (decide (-1 ≤ height l' - height r ≤ 1)) as [Hs|Hs];
          [destruct (Hid Hs)|]; lia.
      * destruct (decide (-1 ≤ height l' - height r ≤ 1)) as [Hs|Hs];
          [destruct (Hid Hs)|]; lia.
      * intros x. rewrite Hio, avl_keys_node, !elem_of_app, !elem_of_cons, Hmem. tauto.
      * rewrite Hio, avl_keys_node, !increasing_app, !increasing_cons.
        intros (Il & [Ir Hkr] & Hlr). splits; auto.
        intros x y [->|Hx]%Hmem Hy; [|by apply Hlr].
        apply elem_of_cons in Hy as [->|Hy]; [done|]. specialize (Hkr y Hy). lia.
    + destruct (Z.gtb_spec key k) as [Hgt|Hle].
      * destruct (IHr Hr) as (r' & -> & Hr' & Hhr & Hmem & Hinc). simpl.
        destruct (_rebalance_spec l k n d h r' Hl Hr' ltac:(lia))
          as (t' & -> & Ht' & Hio & Hht & Hid).
        exists t'. split; [done|]. apply keys_of_inorder in Hio. simpl in Hio.
        splits; try done.
        -- destruct (decide (-1 ≤ height l - height r' ≤ 1)) as [Hs|Hs];
             [destruct (Hid Hs)|]; lia.
        -- destruct (decide (-1 ≤ height l - height r' ≤ 1)) as [Hs|Hs];
             [destruct (Hid Hs)|]; lia.
        -- intros x. rewrite Hio, avl_keys_node, !elem_of_app, !elem_of_cons, Hmem. tauto.
        -- rewrite Hio, avl_keys_node, !increasing_app, !increasing_cons.
           intros (Il & [Ir Hkr] & Hlr). splits; auto.
           ++ intros x [->|Hx]%Hmem; [lia|by apply Hkr].
           ++ intros x y Hx [->|Hy]%elem_of_cons; [apply Hlr; [done|by left]|].
              apply Hmem in Hy as [->|Hy]; [|apply Hlr; [done|by right]].
              specialize (Hlr x k Hx ltac:(by left)). lia.
      * assert (key = k) as -> by lia.
        eexists. split; [done|]. splits.
        -- rewrite avl_node. splits; try done; lia.
        -- simpl. lia.
        -- simpl. lia.
        -- intros x. rewrite !avl_keys_node, !elem_of_app, !elem_of_cons. tauto.
        -- by rewrite !avl_keys_node.
Qed.

Lemma avl_min_node_first l k n d h r :
  ∃ rest, inorder (Node l k n d h r) = _min_node l k n d :: rest.
Proof.
  revert k n d h r. induction l as [|ll IHll lk ln ld lh lr _]; intros k n d h r.
  - simpl. by eexists.
  - destruct (IHll lk ln ld lh lr) as [rest Hrest].
    change (inorder (Node (Node ll lk ln ld lh lr) k n d h r))
      with (inorder (Node ll lk ln ld lh lr) ++ (k, n, d) :: inorder r).
    rewrite Hrest. simpl. by eexists.
Qed.

Lemma _remove_spec t key :
  avl t →
  ∃ t', _remove t key = Some t' ∧ avl t' ∧
        height t - 1 ≤ height t' ≤ height t ∧
        (∀ x, x ∈ keys t' → x ∈ keys t).
Proof.
  revert key. induction t as [|l IHl k n d h r IHr]; intros key Ht.
  - simpl. exists Leaf. by splits.
  - apply avl_node in Ht as (Hl & Hr & Hh & Hb). simpl.
    destruct (Z.ltb_spec key k) as [Hlt|Hge].
    + destruct (IHl key Hl) as (l' & -> & Hl' & Hhl & Hmem). simpl.
      destruct (_rebalance_spec l' k n d h r Hl' Hr ltac:(lia))
        as (t' & -> & Ht' & Hio & Hht & Hid).
      exists t'. split; [done|]. apply keys_of_inorder in Hio. simpl in Hio.
      splits; try done.
      * lia.
      * destruct (decide (-1 ≤ height l' - height r ≤ 1)) as [Hs|Hs];
          [destruct (Hid Hs)|]; lia.
      * intros x. rewrite Hio, avl_keys_node, !elem_of_app, !elem_of_cons.
        intros [?|?]; auto.
    + destruct (Z.gtb_spec key k) as [Hgt|Hle].
      * destruct (IHr key Hr) as (r' & -> & Hr' & Hhr & Hmem). simpl.
        destruct (_rebalance_spec l k n d h r' Hl Hr' ltac:(lia))
          as (t' & -> & Ht' & Hio & Hht & Hid).
        exists t'. split; [done|]. apply keys_of_inorder in Hio. simpl in Hio.
        splits; try done.
        -- lia.
        -- destruct (decide (-1 ≤ height l - height r' ≤ 1)) as [Hs|Hs];
             [destruct (Hid Hs)|]; lia.
        -- intros x. rewrite Hio, avl_keys_node, !elem_of_app, !elem_of_cons.
           intros [?|[?|?]]; auto.
      * destruct l as [|ll lk ln ld lh lr].
        { exists r. splits; try done.
          - simpl. pose proof (height_nonneg r). lia.
          - simpl. pose proof (height_nonneg r). lia.
          - intros x Hx. rewrite avl_keys_node, elem_of_app, elem_of_cons. auto. }
        destruct r as [|rl rk rn rd rh rr].
        { pose proof (height_nonneg (Node ll lk ln ld lh lr)).
          eexists. splits; try done.
          - simpl in *. lia.
          - simpl in *. lia.
          - intros x Hx. rewrite avl_keys_node, elem_of_app. auto. }
        destruct (_min_node rl rk rn rd) as [[sk sn] sd] eqn:Hmin.
        destruct (IHr sk Hr) as (r' & -> & Hr' & Hhr & Hmem). simpl.
        destruct (_rebalance_spec (Node ll lk ln ld lh lr) sk sn sd h r' Hl Hr' ltac:(lia))
          as (t' & -> & Ht' & Hio & Hht & Hid).
        exists t'. split; [done|]. apply keys_of_inorder in Hio. simpl in Hio.
        splits; try done.
        -- simpl in *. lia.
        -- destruct (decide (-1 ≤ height (Node ll lk ln ld lh lr) - height r' ≤ 1)) as [Hs|Hs];
             [destruct (Hid Hs)|]; simpl in *; lia.
        -- intros x. rewrite Hio. rewrite (avl_keys_node _ k).
           rewrite !elem_of_app, !elem_of_cons.
           intros [?|[->|?]]; auto.
           right. right.
           destruct (avl_min_node_first rl rk rn rd rh rr) as [rest Hrest].
           unfold keys. rewrite Hrest, Hmin. simpl. by left.
Qed.

(** Removing the key of its leftmost node from a tree takes the first
    element off its in-order sequence. *)
Lemma avl_remove_min l k n d h r t' :
  avl (Node l k n d h r) → increasing (keys (Node l k n d h r)) →
  _remove (Node l k n d h r) (_min_node l k n d).1.1 = Some t' →
  inorder (Node l k n d h r) = _min_node l k n d :: inorder t'.
Proof.
  revert k n d h r t'.
  induction l as [|ll IHll lk ln ld lh lr _]; intros k n d h r t' Ht Hinc Hrem.
  - simpl in *. rewrite Z.ltb_irrefl in Hrem.
    rewrite Z.gtb_ltb, Z.ltb_irrefl in Hrem.
    by injection Hrem as <-.
  - change (_min_node (Node ll lk ln ld lh lr) k n d) with (_min_node ll lk ln ld) in *.
    set (sk := (_min_node ll lk ln ld).1.1) in *.
    destruct (avl_min_node_first ll lk ln ld lh lr) as [rest Hrest].
    assert (sk < k) as Hsk.
    { rewrite avl_keys_node, increasing_app in Hinc. destruct Hinc as (_ & _ & Hlr).
      apply Hlr; [|by left]. unfold keys. rewrite Hrest. by left. }
    apply avl_node in Ht as (Hl & Hr & Hh & Hb).
    change (_remove (Node (Node ll lk ln ld lh lr) k n d h r) sk)
      with (if sk <? k
            then l' ← _remove (Node ll lk ln ld lh lr) sk; _rebalance (Node l' k n d h r)
            else if sk >? k
            then r' ← _remove r sk; _rebalance (Node (Node ll lk ln ld lh lr) k n d h r')
            else match r with
                 | Leaf => Some (Node ll lk ln ld lh lr)
                 | Node rl rk rn rd _ _ =>
                     let '(sk', sn, sd) := _min_node rl rk rn rd in
                     r' ← _remove r sk'; _rebalance (Node (Node ll lk ln ld lh lr) sk' sn sd h r')
                 end) in Hrem.
    destruct (Z.ltb_spec sk k) as [_|?]; [|lia].
    destruct (_remove_spec (Node ll lk ln ld lh lr) sk Hl) as (l' & Hl'eq & Hl' & Hhl & _).
    rewrite Hl'eq in Hrem. simpl in Hrem.
    destruct (_rebalance_spec l' k n d h r Hl' Hr ltac:(lia))
      as (t'' & Ht'' & _ & Hio & _).
    rewrite Ht'' in Hrem. injection Hrem as <-.
    rewrite Hio.
    change (inorder (Node (Node ll lk ln ld lh lr) k n d h r))
      with (inorder (Node ll lk ln ld lh lr) ++ (k, n, d) :: inorder r).
    rewrite (IHll lk ln ld lh lr l'); [done|done| |done].
    rewrite avl_keys_node, increasing_app in Hinc. tauto.
Qed.

Lemma avl_remove_increasing t key t' :
  avl t → increasing (keys t) → _remove t key = Some t' → increasing (keys t').
Proof.
  revert key t'. induction t as [|l IHl k n d h r IHr]; intros key t' Ht Hinc Hrem.
  - simpl in Hrem. by simplify_eq.
  - pose proof Ht as Ht0. apply avl_node in Ht as (Hl & Hr & Hh & Hb).
    pose proof Hinc as Hinc0.
    rewrite avl_keys_node, increasing_app, increasing_cons in Hinc.
    destruct Hinc as (Il & [Ir Hkr] & Hlr).
    simpl in Hrem.
    destruct (Z.ltb_spec key k) as [Hlt|Hge].
    + destruct (_remove_spec l key Hl) as (l' & Hl'eq & Hl' & Hhl & Hmem).
      rewrite Hl'eq in Hrem. simpl in Hrem.
      destruct (_rebalance_spec l' k n d h r Hl' Hr ltac:(lia))
        as (t'' & Ht'' & _ & Hio & _).
      rewrite Ht'' in Hrem. simplify_eq.
      apply keys_of_inorder in Hio. simpl in Hio.
      rewrite Hio, increasing_app, increasing_cons. splits; eauto.
    + destruct (Z.gtb_spec key k) as [Hgt|Hle].
      * destruct (_remove_spec r key Hr) as (r' & Hr'eq & Hr' & Hhr & Hmem).
        rewrite Hr'eq in Hrem. simpl in Hrem.
        destruct (_rebalance_spec l k n d h r' Hl Hr' ltac:(lia))
          as (t'' & Ht'' & _ & Hio & _).
        rewrite Ht'' in Hrem. simplify_eq.
        apply keys_of_inorder in Hio. simpl in Hio.
        rewrite Hio, increasing_app, increasing_cons. splits; eauto.
        intros x y Hx [->|Hy]%elem_of_cons; [apply Hlr; [done|by left]|].
        apply Hlr; [done|]. right. by apply Hmem.
      * destruct l as [|ll lk ln ld lh lr]; [by simplify_eq|].
        destruct r as [|rl rk rn rd rh rr]; [by simplify_eq|].
        destruct (_min_node rl rk rn rd) as [[sk sn] sd] eqn:Hmin.
        destruct (_remove_spec (Node rl rk rn rd rh rr) sk Hr) as (r' & Hr'eq & Hr' & Hhr & Hmem).
        rewrite Hr'eq in Hrem. simpl in Hrem.
        destruct (_rebalance_spec (Node ll lk ln ld lh lr) sk sn sd h r' Hl Hr' ltac:(lia))
          as (t'' & Ht'' & _ & Hio & _).
        rewrite Ht'' in Hrem. simplify_eq.
        apply keys_of_inorder in Hio. simpl in Hio.
        pose proof (avl_remove_min rl rk rn rd rh rr r' Hr Ir) as Hfirst.
        rewrite Hmin in Hfirst. specialize (Hfirst Hr'eq).
        assert (keys (Node rl rk rn rd rh rr) = sk :: keys r') as Hkeys.
        { unfold keys. by rewrite Hfirst. }
        rewrite Hkeys in Ir, Hkr, Hlr. apply increasing_cons in Ir as [Ir' Hsk].
        rewrite Hio, increasing_app, increasing_cons. splits; eauto.
        intros x y Hx Hy. 
        specialize (Hlr x k Hx ltac:(by left)).
        apply elem_of_cons in Hy as [->|Hy].
        -- specialize (Hkr sk ltac:(by left)). lia.
        -- specialize (Hkr y ltac:(by right)). lia.
Qed.

End avl_ops.

(** ** Re-inserting a key, removing an absent key *)

Section avl_update.
Context `{PyObject Obj}.
Implicit Types t l r : tree Obj.

Lemma avl_with_contents_absent t key name f :
  key ∉ keys t → with_contents key name f t = t.
Proof.
  induction t as [|l IHl k n d h r IHr]; simpl; [done|].
  rewrite avl_keys_node, elem_of_app, elem_of_cons. intros Hnot.
  destruct (Z.eqb_spec key k) as [->|Hne]; [tauto|].
  rewrite IHl, IHr by tauto. done.
Qed.

Lemma height_with_contents t key name f :
  height (with_contents key name f t) = height t.
Proof.
  induction t as [|l IHl k n d h r IHr]; simpl; [done|].
  destruct (key =? k); simpl; by rewrite IHl, IHr.
Qed.

Lemma avl_with_contents t key name f : avl t → avl (with_contents key name f t).
Proof.
  induction t as [|l IHl k n d h r IHr]; simpl; [done|].
  rewrite avl_node. intros (Hl & Hr & Hh & Hb).
  destruct (key =? k); rewrite avl_node, !height_with_contents; auto.
Qed.

Lemma avl_insert_existing t key name data :
  avl t → increasing (keys t) → key ∈ keys t →
  _insert t key name data = Some (with_contents key name (py_or data) t).
Proof.
  induction t as [|l IHl k n d h r IHr]; simpl.
  - intros _ _ Hin. by apply elem_of_nil in Hin.
  - rewrite avl_node, avl_keys_node, increasing_app, increasing_cons, elem_of_app, elem_of_cons.
    intros (Hl & Hr & Hh & Hb) (Il & [Ir Hkr] & Hlr) Hin.
    assert (∀ x, x ∈ keys l → x < k) as Hlk by (intros x Hx; apply Hlr; [done|by left]).
    destruct (Z.ltb_spec key k) as [Hlt|Hge].
    + destruct (Z.eqb_spec key k) as [->|_]; [lia|].
      assert (key ∈ keys l) as Hinl.
      { destruct Hin as [?|[->|Hin]]; [done|lia|]. specialize (Hkr _ Hin). lia. }
      rewrite (IHl Hl Il Hinl). simpl.
      destruct (_rebalance_spec (with_contents key name (py_or data) l) k n d h r)
        as (t' & -> & _ & _ & _ & Hid).
      { by apply avl_with_contents. } { done. }
      { rewrite height_with_contents. lia. }
      rewrite height_with_contents in Hid. destruct (Hid Hb) as [-> _].
      rewrite (avl_with_contents_absent r), Hh; [done|].
      intros Hinr. specialize (Hkr _ Hinr). lia.
    + destruct (Z.gtb_spec key k) as [Hgt|Hle].
      * destruct (Z.eqb_spec key k) as [->|_]; [lia|].
        assert (key ∈ keys r) as Hinr.
        { destruct Hin as [Hin|[->|?]]; [|lia|done]. specialize (Hlk _ Hin). lia. }
        rewrite (IHr Hr Ir Hinr). simpl.
        destruct (_rebalance_spec l k n d h (with_contents key name (py_or data) r))
          as (t' & -> & _ & _ & _ & Hid).
        { done. } { by apply avl_with_contents. }
        { rewrite height_with_contents. lia. }
        rewrite height_with_contents in Hid. destruct (Hid Hb) as [-> _].
        rewrite (avl_with_contents_absent l), Hh; [done|].
        intros Hinl. specialize (Hlk _ Hinl). lia.
      * assert (key = k) as -> by lia. rewrite Z.eqb_refl.
        rewrite !avl_with_contents_absent; [done| |].
        -- intros Hinr. specialize (Hkr _ Hinr). lia.
        -- intros Hinl. specialize (Hlk _ Hinl). lia.
Qed.

Lemma avl_remove_absent t key : avl t → key ∉ keys t → _remove t key = Some t.
Proof.
  induction t as [|l IHl k n d h r IHr]; simpl; [done|].
  rewrite avl_node, avl_keys_node, elem_of_app, elem_of_cons.
  intros (Hl & Hr & Hh & Hb) Hnot.
  destruct (Z.ltb_spec key k) as [Hlt|Hge].
  - rewrite IHl by tauto. simpl.
    destruct (_rebalance_spec l k n d h r Hl Hr ltac:(lia)) as (t' & -> & _ & _ & _ & Hid).
    destruct (Hid Hb) as [-> _]. by rewrite Hh.
  - destruct (Z.gtb_spec key k) as [Hgt|Hle].
    + rewrite IHr by tauto. simpl.
      destruct (_rebalance_spec l k n d h r Hl Hr ltac:(lia)) as (t' & -> & _ & _ & _ & Hid).
      destruct (Hid Hb) as [-> _]. by rewrite Hh.
    + assert (key = k) by lia. tauto.
Qed.

(** Every sequence of calls runs without error and leaves an AVL tree
    with increasing keys. *)
Lemma run_avl (ops : list (op Obj)) t :
  avl t → increasing (keys t) →
  ∃ t', run ops t = Some t' ∧ avl t' ∧ increasing (keys t').
Proof.
  revert t. induction ops as [|[key name data|key] ops IH]; intros t Ht Hinc; simpl.
  - by exists t.
  - unfold insert.
    destruct (_insert_spec t key name data Ht) as (t1 & -> & Ht1 & _ & _ & Hinc1).
    simpl. apply IH; auto.
  - unfold remove.
    destruct (_remove_spec t key Ht) as (t1 & Hrem & Ht1 & _ & _).
    rewrite Hrem. simpl. apply IH; [done|]. exact (avl_remove_increasing t key t1 Ht Hinc Hrem).
Qed.

(** C1: after every sequence of [insert] and [remove] calls on an empty
    AVL tree (so after each call of a longer sequence too) the calls
    have returned a tree, and at every node of it the heights of the two
    subtrees differ by at most one, where [height(empty) = 0] and
    [height(node) = 1 + max(height(left), height(right))]. *)
Theorem balance_invariant (ops : list (op Obj)) :
  ∃ t, run ops Leaf = Some t ∧ balanced t.
Proof.
  destruct (run_avl ops Leaf avl_leaf) as (t & Hrun & [_ Hbal] & _).
  { rewrite avl_keys_leaf. constructor. }
  by exists t.
Qed.

(** C6: [insert] of a key that is present in an AVL tree overwrites the
    label of its node, overwrites the payload exactly when the payload
    given is truthy (a missing or empty one keeps the old payload), and
    leaves the shape, the heights and every other node as they were. *)
Theorem avl_insert_existing_key t key name data :
  avl t → increasing (keys t) → key ∈ keys t →
  insert key name data t =
  Some (with_contents key name (λ old, if py_truth data then data else old) t).
Proof. apply avl_insert_existing. Qed.

End avl_update.

Lemma avl_insert_existing_key_witness :
  let t := Node (Node Leaf 10 "a" (Some (Dict ["graph"%string])) 1 Leaf)
                20 "b" (Some (Dict ["graph"%string])) 2
                (Node Leaf 30 "c" None 1 Leaf) in
  avl t ∧ increasing (keys t) ∧ 20 ∈ keys t ∧
  insert 20 "B" (Some (Dict [])) t =
  Some (Node (Node Leaf 10 "a" (Some (Dict ["graph"%string])) 1 Leaf)
             20 "B" (Some (Dict ["graph"%string])) 2
             (Node Leaf 30 "c" None 1 Leaf)).
Proof.
  split; [|split; [|split]].
  - unfold avl. simpl. splits; done || lia.
  - repeat constructor; lia.
  - right. left.
  - etrans.
    + apply (avl_insert_existing_key
               (Node (Node Leaf 10 "a" (Some (Dict ["graph"%string])) 1 Leaf)
                     20 "b" (Some (Dict ["graph"%string])) 2
                     (Node Leaf 30 "c" None 1 Leaf))
               20 "B" (Some (Dict []))).
      * unfold avl. simpl. splits; done || lia.
      * repeat constructor; lia.
      * right. left.
    + reflexivity.
Defined.

(** ** The AVL tree as a map from keys to entries *)

Section avl_map.
Context `{PyObject Obj}.
Implicit Types t l r : tree Obj.

(** The contents of the node that [search] returns. *)
Definition node_entry t : option (@entry Obj) :=
  match t with
  | Leaf => None
  | Node _ k n d _ _ => Some (k, n, d)
  end.

(** The payload a node has after [insert(key, name, data)]: a node that
    was there keeps its payload unless [data] is truthy, a new node gets
    [data] or, for [None], a fresh city record. *)
Definition stored_payload (data : option Obj) (old : option (@entry Obj)) : option Obj :=
  match old with
  | Some e => py_or data e.2
  | None => match data with None => Some new_city_data | Some _ => data end
  end.

(** The number of nodes. *)
Fixpoint size t : nat :=
  match t with
  | Leaf => 0
  | Node l _ _ _ _ r => S (size l + size r)
  end.

Lemma avl_inorder_insert t key name data :
  avl t → increasing (keys t) →
  ∃ t', insert key name data t = Some t' ∧
    inorder t' =
    filter (λ e, e.1.1 < key) (inorder t) ++
    (key, name, stored_payload data (head (filter (λ e, e.1.1 = key) (inorder t))))
    :: filter (λ e, key < e.1.1) (inorder t).
Proof.
  unfold insert. induction t as [|l IHl k n d h r IHr]; intros Ht Hinc.
  { simpl. eexists. split; [done|]. done. }
  unfold keys in Hinc. simpl in Hinc.
  destruct (BST.increasing_split _ _ _ _ Hinc) as (Il & Ir & _ & _).
  apply avl_node in Ht as (Hl & Hr & Hh & Hb). simpl.
  destruct (Z.ltb_spec key k) as [Hlt|Hge].
  - destruct (BST.filters_left _ key _ _ _ Hinc Hlt) as (F1 & F2 & _ & F4).
    cbv beta in F1, F2, F4. unfold entry in *. rewrite F1, F2, F4.
    destruct (IHl Hl Il) as (l' & Hl'eq & Hio).
    destruct (_insert_spec l key name data Hl) as (l'' & Heq & Hl' & Hhl & _).
    assert (l'' = l') as -> by congruence. rewrite Hl'eq. simpl.
    destruct (_rebalance_spec l' k n d h r Hl' Hr ltac:(lia)) as (t' & -> & _ & Hio' & _).
    exists t'. split; [done|]. rewrite Hio', Hio. by rewrite <- app_assoc.
  - destruct (Z.gtb_spec key k) as [Hgt|Hle].
    + destruct (BST.filters_right _ key _ _ _ Hinc Hgt) as (F1 & F2 & _ & F4).
      cbv beta in F1, F2, F4. unfold entry in *. rewrite F1, F2, F4.
      destruct (IHr Hr Ir) as (r' & Hr'eq & Hio).
      destruct (_insert_spec r key name data Hr) as (r'' & Heq & Hr' & Hhr & _).
      assert (r'' = r') as -> by congruence. rewrite Hr'eq. simpl.
      destruct (_rebalance_spec l k n d h r' Hl Hr' ltac:(lia)) as (t' & -> & _ & Hio' & _).
      exists t'. split; [done|]. rewrite Hio', Hio. by rewrite <- app_assoc.
    + assert (key = k) as -> by lia.
      destruct (BST.filters_here _ _ _ _ Hinc) as (F1 & F2 & _ & F4).
      cbv beta in F1, F2, F4. simpl in F1, F2, F4. unfold entry in *.
      rewrite F1, F2, F4. eexists. split; [done|]. done.
Qed.

Lemma avl_inorder_remove t key :
  avl t → increasing (keys t) →
  ∃ t', remove key t = Some t' ∧
        inorder t' = filter (λ e, e.1.1 ≠ key) (inorder t).
Proof.
  unfold remove. revert key.
  induction t as [|l IHl k n d h r IHr]; intros key Ht Hinc.
  { simpl. by eexists. }
  pose proof Hinc as Hinc0. unfold keys in Hinc. simpl in Hinc.
  destruct (BST.increasing_split _ _ _ _ Hinc) as (Il & Ir & _ & _).
  apply avl_node in Ht as (Hl & Hr & Hh & Hb). simpl.
  destruct (Z.ltb_spec key k) as [Hlt|Hge].
  - destruct (BST.filters_left _ key _ _ _ Hinc Hlt) as (_ & _ & F3 & _).
    cbv beta in F3. unfold entry in *. rewrite F3.
    destruct (IHl key Hl Il) as (l' & Hl'eq & Hio).
    destruct (_remove_spec l key Hl) as (l'' & Heq & Hl' & Hhl & _).
    assert (l'' = l') as -> by congruence. rewrite Hl'eq. simpl.
    destruct (_rebalance_spec l' k n d h r Hl' Hr ltac:(lia)) as (t' & -> & _ & Hio' & _).
    exists t'. split; [done|]. by rewrite Hio', Hio.
  - destruct (Z.gtb_spec key k) as [Hgt|Hle].
    + destruct (BST.filters_right _ key _ _ _ Hinc Hgt) as (_ & _ & F3 & _).
      cbv beta in F3. unfold entry in *. rewrite F3.
      destruct (IHr key Hr Ir) as (r' & Hr'eq & Hio).
      destruct (_remove_spec r key Hr) as (r'' & Heq & Hr' & Hhr & _).
      assert (r'' = r') as -> by congruence. rewrite Hr'eq. simpl.
      destruct (_rebalance_spec l k n d h r' Hl Hr' ltac:(lia)) as (t' & -> & _ & Hio' & _).
      exists t'. split; [done|]. by rewrite Hio', Hio.
    + assert (key = k) as -> by lia.
      destruct (BST.filters_here _ _ _ _ Hinc) as (_ & _ & F3 & _).
      cbv beta in F3. simpl in F3. unfold entry in *. rewrite F3.
      destruct l as [|ll lk ln ld lh lr]; [by eexists|].
      destruct r as [|rl rk rn rd rh rr]; [eexists; by rewrite app_nil_r|].
      destruct (_min_node rl rk rn rd) as [[sk sn] sd] eqn:Hmin.
      destruct (_remove_spec (Node rl rk rn rd rh rr) sk Hr) as (r' & Hr'eq & Hr' & Hhr & _).
      rewrite Hr'eq. simpl.
      destruct (_rebalance_spec (Node ll lk ln ld lh lr) sk sn sd h r' Hl Hr' ltac:(lia))
        as (t' & -> & _ & Hio' & _).
      exists t'. split; [done|]. rewrite Hio'.
      pose proof (avl_remove_min rl rk rn rd rh rr r' Hr Ir) as Hfirst.
      rewrite Hmin in Hfirst. specialize (Hfirst Hr'eq).
      simpl in Hfirst. simpl. by rewrite Hfirst.
Qed.

Lemma avl_search_inorder t key :
  increasing (keys t) →
  search t key ≫= node_entry = head (filter (λ e, e.1.1 = key) (inorder t)).
Proof.
  induction t as [|l IHl k n d h r IHr]; [done|].
  intros Hinc. unfold keys in Hinc. simpl in Hinc.
  destruct (BST.increasing_split _ _ _ _ Hinc) as (Il & Ir & _ & _).
  simpl. destruct (Z.eqb_spec key k) as [->|Hne].
  - destruct (BST.filters_here _ _ _ _ Hinc) as (_ & _ & _ & F4).
    cbv beta in F4. unfold entry in *. simpl in F4. by rewrite F4.
  - destruct (Z.ltb_spec key k) as [Hlt|Hge].
    + destruct (BST.filters_left _ key _ _ _ Hinc Hlt) as (_ & _ & _ & F4).
      cbv beta in F4. unfold entry in *. rewrite F4. by apply IHl.
    + assert (k < key) as Hgt by lia.
      destruct (BST.filters_right _ key _ _ _ Hinc Hgt) as (_ & _ & _ & F4).
      cbv beta in F4. unfold entry in *. rewrite F4. by apply IHr.
Qed.

Lemma avl_search_is_node t key nd :
  search t key = Some nd → ∃ l n d h r, nd = Node l key n d h r.
Proof.
  induction t as [|l IHl k n d h r IHr]; simpl; [done|].
  destruct (Z.eqb_spec key k) as [->|Hne].
  - intros [= <-]. by eexists _, _, _, _, _.
  - by destruct (key <? k).
Qed.

Lemma avl_search_none_entry t key :
  search t key = None ↔ search t key ≫= node_entry = None.
Proof.
  destruct (search t key) as [nd|] eqn:Hs; simpl; [|done].
  apply avl_search_is_node in Hs as (l & n & d & h & r & ->). done.
Qed.

(** The height of an AVL tree is logarithmic in its size. *)
Lemma avl_height_log t :
  avl t → 2 ^ height t ≤ (Z.of_nat (size t) + 1) ^ 2.
Proof.
  induction t as [|l IHl k n d h r IHr]; [done|].
  rewrite avl_node. intros (Hl & Hr & _ & Hb).
  specialize (IHl Hl). specialize (IHr Hr).
  pose proof (height_nonneg l) as Hnl. pose proof (height_nonneg r) as Hnr.
  change (height (Node l k n d h r)) with (1 + Z.max (height l) (height r)).
  change (size (Node l k n d h r)) with (S (size l + size r)).
  set (fl := Z.of_nat (size l) + 1) in *. set (fr := Z.of_nat (size r) + 1) in *.
  replace (Z.of_nat (S (size l + size r)) + 1) with (fl + fr) by (unfold fl, fr; lia).
  assert (1 ≤ fl ∧ 1 ≤ fr) as [Hfl Hfr] by (unfold fl, fr; lia).
  rewrite Z.pow_add_r, Z.pow_1_r by lia.
  assert (0 < 2 ^ height l) as Hpl by (apply Z.pow_pos_nonneg; lia).
  assert (0 < 2 ^ height r) as Hpr by (apply Z.pow_pos_nonneg; lia).
  rewrite Z.pow_2_r in *.
  destruct (decide (height l = height r)) as [Heq|Hneq].
  - rewrite Heq, Z.max_id in *. nia.
  - destruct (decide (height l = height r + 1)) as [Hl1|Hl1].
    + rewrite Z.max_l by lia. rewrite Hl1, Z.pow_add_r, Z.pow_1_r in * by lia.
      assert (2 ^ height r ≤ fl * fr) by nia. nia.
    + assert (height r = height l + 1) as Hr1 by lia.
      rewrite Z.max_r by lia. rewrite Hr1, Z.pow_add_r, Z.pow_1_r in * by lia.
      assert (2 ^ height l ≤ fl * fr) by nia. nia.
Qed.

End avl_map.


(** ** What a caller of the AVL tree sees *)

Section avl_map_laws.
Context `{PyObject Obj}.
Implicit Types t l r : tree Obj.

Lemma filter_eq_after_put {A : Type} (kf : A → Z) (key key' : Z) (e : A) (es : list A) :
  kf e = key →
  filter (λ x, kf x = key')
    (filter (λ x, kf x < key) es ++ e :: filter (λ x, key < kf x) es) =
  if decide (key' = key) then [e] else filter (λ x, kf x = key') es.
Proof.
  intros He. rewrite filter_app. case_decide as Hk.
  - subst key'. rewrite filter_cons_True by done.
    rewrite !(BST.filter_keeps_none (λ x, kf x = key)); [done| |].
    + intros x [Hx _]%list_elem_of_filter. lia.
    + intros x [Hx _]%list_elem_of_filter. lia.
  - rewrite filter_cons_False by congruence.
    destruct (Z.lt_ge_cases key' key) as [Hlt|Hge].
    + rewrite (BST.filter_keeps_none (λ x, kf x = key') (filter (λ x, key < kf x) es)).
      * rewrite app_nil_r. apply list_filter_filter_l. intros x. lia.
      * intros x [Hx _]%list_elem_of_filter. lia.
    + rewrite (BST.filter_keeps_none (λ x, kf x = key') (filter (λ x, kf x < key) es)).
      * simpl. apply list_filter_filter_l. intros x. lia.
      * intros x [Hx _]%list_elem_of_filter. lia.
Qed.

(** X11: in an AVL tree with increasing keys, [insert(key, name, data)]
    returns, and afterwards the in-order traversal visits the entries
    that were below [key], then [key] with the new name, then the
    entries that were above [key].  The payload of [key] is [data] when
    [data] is truthy; otherwise a node that was there keeps its payload,
    and a new node gets [data], or a fresh city record when [data] is
    [None]. *)
Theorem avl_insert_entries t key name data :
  avl t → increasing (keys t) →
  ∃ t', insert key name data t = Some t' ∧
    inorder t' =
    filter (λ e, e.1.1 < key) (inorder t) ++
    (key, name, stored_payload data (head (filter (λ e, e.1.1 = key) (inorder t))))
    :: filter (λ e, key < e.1.1) (inorder t).
Proof. apply avl_inorder_insert. Qed.

(** X12: in an AVL tree with increasing keys, [remove(key)] returns, and
    it takes the entry of [key] out of the in-order sequence and leaves
    every other entry, with its name and payload, where it was, whatever
    rotations the rebalancing makes. *)
Theorem avl_remove_entries t key :
  avl t → increasing (keys t) →
  ∃ t', remove key t = Some t' ∧
        inorder t' = filter (λ e, e.1.1 ≠ key) (inorder t).
Proof. apply avl_inorder_remove. Qed.

(** X13: in an AVL tree with increasing keys, [search(key)] returns the
    node holding the entry that the in-order traversal shows for [key],
    and [None] exactly when the traversal shows none. *)
Theorem avl_search_entries t key :
  increasing (keys t) →
  search t key ≫= node_entry = head (filter (λ e, e.1.1 = key) (inorder t)) ∧
  (search t key = None ↔ key ∉ keys t).
Proof.
  intros Hinc. split; [by apply avl_search_inorder|].
  rewrite avl_search_none_entry, (avl_search_inorder t key Hinc). unfold keys.
  rewrite list_elem_of_fmap. split.
  - intros Hhead (e & -> & He).
    assert (e ∈ filter (λ e0 : Z * string * option Obj, e0.1.1 = e.1.1) (inorder t)) as Hin
      by (by apply list_elem_of_filter).
    destruct (filter _ (inorder t)); [by apply elem_of_nil in Hin|done].
  - intros Hnot. destruct (filter _ (inorder t)) as [|e es] eqn:Hf; [done|].
    exfalso. apply Hnot. exists e.
    assert (e ∈ filter (λ e0 : Z * string * option Obj, e0.1.1 = key) (inorder t)) as Hin
      by (rewrite Hf; by left).
    apply list_elem_of_filter in Hin as [-> Hin]. done.
Qed.

(** X14: in an AVL tree with increasing keys, [search(key)] right after
    [insert(key, name, data)] finds [key] with the new name and the
    payload of the insertion rule, [search(key)] right after
    [remove(key)] returns [None], and after either call the search of
    any other key finds the contents it found before. *)
Theorem avl_search_after_update t key name data :
  avl t → increasing (keys t) →
  (∃ t', insert key name data t = Some t' ∧
     search t' key ≫= node_entry =
       Some (key, name, stored_payload data (search t key ≫= node_entry)) ∧
     ∀ key', key' ≠ key →
       search t' key' ≫= node_entry = search t key' ≫= node_entry) ∧
  (∃ t', remove key t = Some t' ∧ search t' key = None ∧
     ∀ key', key' ≠ key →
       search t' key' ≫= node_entry = search t key' ≫= node_entry).
Proof.
  intros Ht Hinc. split.
  - destruct (avl_inorder_insert t key name data Ht Hinc) as (t' & Hins & Hio).
    destruct (_insert_spec t key name data Ht) as (t'' & Hins' & _ & _ & _ & Hinc').
    unfold insert in Hins. assert (t'' = t') as -> by congruence.
    specialize (Hinc' Hinc). exists t'. split; [done|]. split.
    + rewrite (avl_search_inorder _ _ Hinc'), (avl_search_inorder _ _ Hinc), Hio.
      rewrite (filter_eq_after_put (λ e : Z * string * option Obj, e.1.1)) by done.
      by rewrite decide_True.
    + intros key' Hne.
      rewrite (avl_search_inorder _ _ Hinc'), (avl_search_inorder _ _ Hinc), Hio.
      rewrite (filter_eq_after_put (λ e : Z * string * option Obj, e.1.1)) by done.
      by rewrite decide_False.
  - destruct (avl_inorder_remove t key Ht Hinc) as (t' & Hrem & Hio).
    assert (increasing (keys t')) as Hinc'
      by exact (avl_remove_increasing t key t' Ht Hinc Hrem).
    exists t'. split; [done|]. split.
    + rewrite avl_search_none_entry, (avl_search_inorder _ _ Hinc'), Hio.
      rewrite (BST.filter_eq_after_ne (λ e : Z * string * option Obj, e.1.1)).
      by rewrite decide_True.
    + intros key' Hne.
      rewrite (avl_search_inorder _ _ Hinc'), (avl_search_inorder _ _ Hinc), Hio.
      rewrite (BST.filter_eq_after_ne (λ e : Z * string * option Obj, e.1.1)).
      by rewrite decide_False.
Qed.

(** X15: after every sequence of [insert] and [remove] calls on an empty
    AVL tree, the [height] field of every node (the value the menu
    prints) is the height of the subtree below it, and the height [h] of
    the tree and its number of nodes [n] satisfy [2^h <= (n+1)^2], that
    is [h <= 2 log2(n+1)]. *)
Theorem avl_run_heights (ops : list (op Obj)) :
  ∃ t, run ops Leaf = Some t ∧ heights_stored t ∧ _height t = height t ∧
       2 ^ height t ≤ (Z.of_nat (size t) + 1) ^ 2.
Proof.
  destruct (run_avl ops Leaf avl_leaf) as (t & Hrun & Ht & _).
  { rewrite avl_keys_leaf. constructor. }
  exists t. split; [done|]. split; [apply Ht|]. split.
  - apply _height_stored, Ht.
  - by apply avl_height_log.
Qed.

(** X16: a rotation that returns keeps the in-order sequence, and on a
    tree whose height fields are right the opposite rotation of the
    result returns the tree that was rotated, height fields included;
    [_rotate_right] raises exactly when the node has no left child and
    [_rotate_left] exactly when it has no right child. *)
Theorem rotations_undo_each_other l k n d h r :
  (∀ x, _rotate_right (Node l k n d h r) = Some x →
        inorder x = inorder (Node l k n d h r) ∧
        (heights_stored (Node l k n d h r) → _rotate_left x = Some (Node l k n d h r))) ∧
  (∀ y, _rotate_left (Node l k n d h r) = Some y →
        inorder y = inorder (Node l k n d h r) ∧
        (heights_stored (Node l k n d h r) → _rotate_right y = Some (Node l k n d h r))) ∧
  (_rotate_right (Node l k n d h r) = None ↔ l = Leaf) ∧
  (_rotate_left (Node l k n d h r) = None ↔ r = Leaf).
Proof.
  splits.
  - intros x. destruct l as [|xl xk xn xd xh T2]; [done|]. simpl. intros [= <-].
    split; [inorder_eq|].
    intros ((Hxl & HT2 & ->) & Hr & ->). simpl.
    rewrite !_height_stored by done. done.
  - intros y. destruct r as [|T2 yk yn yd yh yr]; [done|]. simpl. intros [= <-].
    split; [inorder_eq|].
    intros (Hl & (HT2 & Hyr & ->) & ->). simpl.
    rewrite !_height_stored by done. done.
  - by destruct l.
  - by destruct r.
Qed.

End avl_map_laws.

(** An AVL tree with three cities, for the examples. *)
Definition avl_three_cities : tree pydict :=
  Node (Node Leaf 3 "c" None 1 Leaf) 7 "g" (Some (Dict ["graph"%string])) 2
       (Node Leaf 9 "i" None 1 Leaf).

Lemma avl_three_cities_avl : avl avl_three_cities.
Proof. unfold avl. simpl. splits; done || lia. Qed.

Lemma avl_three_cities_increasing : increasing (keys avl_three_cities).
Proof. repeat constructor; lia. Qed.

Lemma avl_insert_entries_witness :
  avl avl_three_cities ∧ increasing (keys avl_three_cities) ∧
  ∃ t', insert 8 "h" None avl_three_cities = Some t' ∧
    inorder t' =
    [(3, "c"%string, None); (7, "g"%string, Some (Dict ["graph"%string]));
     (8, "h"%string, Some (Dict ["graph"%string])); (9, "i"%string, None)].
Proof.
  split; [exact avl_three_cities_avl|]. split; [exact avl_three_cities_increasing|].
  destruct (avl_insert_entries avl_three_cities 8 "h" None
              avl_three_cities_avl avl_three_cities_increasing) as (t' & Hins & Hio).
  exists t'. split; [exact Hins|]. etrans; [exact Hio|reflexivity].
Defined.

Lemma avl_remove_entries_witness :
  avl avl_three_cities ∧ increasing (keys avl_three_cities) ∧
  ∃ t', remove 7 avl_three_cities = Some t' ∧
    inorder t' = [(3, "c"%string, None); (9, "i"%string, None)].
Proof.
  split; [exact avl_three_cities_avl|]. split; [exact avl_three_cities_increasing|].
  destruct (avl_remove_entries avl_three_cities 7
              avl_three_cities_avl avl_three_cities_increasing) as (t' & Hrem & Hio).
  exists t'. split; [exact Hrem|]. etrans; [exact Hio|reflexivity].
Defined.

Lemma avl_search_entries_witness :
  increasing (keys avl_three_cities) ∧
  search avl_three_cities 9 ≫= node_entry = Some (9, "i"%string, None) ∧
  (search avl_three_cities 8 = None ↔ 8 ∉ keys avl_three_cities).
Proof.
  split; [exact avl_three_cities_increasing|].
  destruct (avl_search_entries avl_three_cities 9 avl_three_cities_increasing) as [H9 _].
  destruct (avl_search_entries avl_three_cities 8 avl_three_cities_increasing) as [_ H8].
  split; [|exact H8]. etrans; [exact H9|reflexivity].
Defined.

Lemma avl_search_after_update_witness :
  avl avl_three_cities ∧ increasing (keys avl_three_cities) ∧
  (∃ t', insert 7 "G" (Some (Dict [])) avl_three_cities = Some t' ∧
         search t' 7 ≫= node_entry = Some (7, "G"%string, Some (Dict ["graph"%string]))) ∧
  (∃ t', remove 7 avl_three_cities = Some t' ∧ search t' 7 = None).
Proof.
  split; [exact avl_three_cities_avl|]. split; [exact avl_three_cities_increasing|].
  destruct (avl_search_after_update avl_three_cities 7 "G" (Some (Dict []))
              avl_three_cities_avl avl_three_cities_increasing)
    as [(t1 & Hins & Hfound & _) (t2 & Hrem & Hgone & _)].
  split.
  - exists t1. split; [exact Hins|]. etrans; [exact Hfound|reflexivity].
  - exists t2. split; [exact Hrem|exact Hgone].
Defined.

Lemma rotations_undo_each_other_witness :
  let y : tree pydict := Node (Node Leaf 3 "c" None 1 Leaf) 7 "g" None 2 Leaf in
  let x : tree pydict := Node Leaf 3 "c" None 2 (Node Leaf 7 "g" None 1 Leaf) in
  _rotate_right y = Some x ∧ heights_stored y ∧
  inorder x = inorder y ∧ _rotate_left x = Some y.
Proof.
  intros y x.
  assert (_rotate_right y = Some x) as Hrot by reflexivity.
  assert (heights_stored y) as Hst by (simpl; splits; done || lia).
  split; [exact Hrot|]. split; [exact Hst|].
  destruct (rotations_undo_each_other (Obj:=pydict) (Node Leaf 3 "c" None 1 Leaf) 7 "g" None 2 Leaf)
    as (Hright & _ & _ & _).
  destruct (Hright x Hrot) as [Hio Hback]. split; [exact Hio|exact (Hback Hst)].
Defined.


(** ** The other traversals *)

Section avl_traversals.
Context `{PyObject Obj}.
Implicit Types t l r : tree Obj.

(** [preorder] and [postorder]: the nodes in the order [visit] receives
    them. *)
Fixpoint preorder t : list (@entry Obj) :=
  match t with
  | Leaf => []
  | Node l k n d _ r => (k, n, d) :: preorder l ++ preorder r
  end.

Fixpoint postorder t : list (@entry Obj) :=
  match t with
  | Leaf => []
  | Node l k n d _ r => postorder l ++ postorder r ++ [(k, n, d)]
  end.

Lemma avl_preorder_perm t : preorder t ≡ₚ inorder t.
Proof.
  induction t as [|l IHl k n d h r IHr]; simpl; [done|].
  rewrite IHl, IHr. apply Permutation_middle.
Qed.

Lemma avl_postorder_perm t : postorder t ≡ₚ inorder t.
Proof.
  induction t as [|l IHl k n d h r IHr]; simpl; [done|].
  rewrite IHl, IHr. apply Permutation_app_head. symmetry. apply Permutation_cons_append.
Qed.

End avl_traversals.

End AVL.

(** * Both trees *)

(** C2: after every sequence of [insert] and [remove] calls on an empty
    tree of either type, the in-order traversal visits strictly
    increasing keys; equivalently every node's key is above all keys of
    its left subtree and below all keys of its right subtree. *)
Theorem order_invariant `{PyObject Obj} (ops : list (op Obj)) :
  (∃ t, AVL.run ops AVL.Leaf = Some t ∧
        increasing (AVL.keys t) ∧ AVL.ordered t) ∧
  increasing (BST.keys (BST.run ops BST.Leaf)) ∧
  BST.ordered (BST.run ops BST.Leaf).
Proof.
  split; [|split].
  - destruct (AVL.run_avl ops AVL.Leaf AVL.avl_leaf) as (t & Hrun & _ & Hinc).
    { constructor. }
    exists t. split; [done|]. split; [done|]. by apply AVL.avl_ordered_increasing.
  - apply BST.run_increasing. constructor.
  - apply BST.bst_ordered_increasing, BST.run_increasing. constructor.
Qed.

(** C8: [remove] of a key that is not in the tree raises nothing and
    returns the tree it was given, in an AVL tree and in a BST. *)
Theorem remove_absent_key `{PyObject Obj}
    (avl_root : AVL.tree Obj) (bst_root : BST.tree Obj) (key : Z) :
  AVL.avl avl_root → key ∉ AVL.keys avl_root → key ∉ BST.keys bst_root →
  AVL.remove key avl_root = Some avl_root ∧ BST.remove key bst_root = bst_root.
Proof.
  intros Havl Hnot1 Hnot2. split.
  - by apply AVL.avl_remove_absent.
  - by apply BST.bst_remove_absent.
Qed.

Lemma remove_absent_key_witness :
  let avl_root := AVL.Node (AVL.Node AVL.Leaf 10 "a" None 1 AVL.Leaf)
                           20 "b" (Some (Dict ["graph"%string])) 2 AVL.Leaf in
  let bst_root := BST.Node BST.Leaf 10 "a" (Some (Dict ["graph"%string]))
                           (BST.Node BST.Leaf 20 "b" None BST.Leaf) in
  AVL.avl avl_root ∧ (15 ∉ AVL.keys avl_root) ∧ (15 ∉ BST.keys bst_root) ∧
  AVL.remove 15 avl_root = Some avl_root ∧ BST.remove 15 bst_root = bst_root.
Proof.
  assert (∀ l : list Z, l = [10; 20] → 15 ∉ l) as Hnot.
  { intros l -> Hin. apply list_elem_of_In in Hin. simpl in Hin. lia. }
  split; [|split; [|split]].
  - unfold AVL.avl. simpl. splits; done || lia.
  - by apply Hnot.
  - by apply Hnot.
  - apply (remove_absent_key
             (AVL.Node (AVL.Node AVL.Leaf 10 "a" None 1 AVL.Leaf)
                       20 "b" (Some (Dict ["graph"%string])) 2 AVL.Leaf)
             (BST.Node BST.Leaf 10 "a" (Some (Dict ["graph"%string]))
                       (BST.Node BST.Leaf 20 "b" None BST.Leaf)) 15).
    + unfold AVL.avl. simpl. splits; done || lia.
    + by apply Hnot.
    + by apply Hnot.
Defined.


(** ** The two trees side by side, and the export of menu option 5 *)

Section both_trees.
Context `{PyObject Obj}.

Lemma fmap_filter_through {A B : Type} (f : A → B) (P : B → Prop)
    `{∀ b, Decision (P b)} (l : list A) :
  f <$> filter (λ x, P (f x)) l = filter P (f <$> l).
Proof.
  induction l as [|a l IH]; [done|]. rewrite fmap_cons.
  destruct (decide (P (f a))).
  - rewrite !filter_cons_True by done. rewrite fmap_cons. by rewrite IH.
  - rewrite !filter_cons_False by done. done.
Qed.

(** What the menu prints of the nodes it visits: key and name. *)
Definition labels (es : list (Z * string * option Obj)) : list (Z * string) :=
  fst <$> es.

Lemma keys_of_labels (es : list (Z * string * option Obj)) :
  (λ e : Z * string * option Obj, e.1.1) <$> es = fst <$> labels es.
Proof. unfold labels. by rewrite <- list_fmap_compose. Qed.

Lemma labels_app (es1 es2 : list (Z * string * option Obj)) :
  labels (es1 ++ es2) = labels es1 ++ labels es2.
Proof. apply fmap_app. Qed.

Lemma labels_cons (e : Z * string * option Obj) es :
  labels (e :: es) = e.1 :: labels es.
Proof. done. Qed.

Lemma labels_below key (es : list (Z * string * option Obj)) :
  labels (filter (λ e, e.1.1 < key) es) = filter (λ p, p.1 < key) (labels es).
Proof.
  exact (fmap_filter_through (@fst (Z * string) (option Obj))
           (λ p : Z * string, p.1 < key) es).
Qed.

Lemma labels_above key (es : list (Z * string * option Obj)) :
  labels (filter (λ e, key < e.1.1) es) = filter (λ p, key < p.1) (labels es).
Proof.
  exact (fmap_filter_through (@fst (Z * string) (option Obj))
           (λ p : Z * string, key < p.1) es).
Qed.

Lemma labels_other key (es : list (Z * string * option Obj)) :
  labels (filter (λ e, e.1.1 ≠ key) es) = filter (λ p, p.1 ≠ key) (labels es).
Proof.
  exact (fmap_filter_through (@fst (Z * string) (option Obj))
           (λ p : Z * string, p.1 ≠ key) es).
Qed.

Lemma run_both (ops : list (op Obj)) (ta : AVL.tree Obj) (tb : BST.tree Obj) :
  AVL.avl ta → increasing (AVL.keys ta) → increasing (BST.keys tb) →
  labels (AVL.inorder ta) = labels (BST.inorder tb) →
  ∃ ta', AVL.run ops ta = Some ta' ∧
         labels (AVL.inorder ta') = labels (BST.inorder (BST.run ops tb)).
Proof.
  revert ta tb.
  induction ops as [|[key name data|key] ops IH]; intros ta tb Ha Ia Ib Hlab; simpl.
  - by exists ta.
  - destruct (AVL.avl_inorder_insert ta key name data Ha Ia) as (ta1 & Hins & Hio).
    destruct (AVL._insert_spec ta key name data Ha) as (ta2 & Hins' & Ha1 & _ & _ & Ia1).
    unfold AVL.insert in *. assert (ta2 = ta1) as -> by congruence.
    rewrite Hins. simpl. apply IH; [done|by apply Ia1|by apply BST._insert_increasing|].
    rewrite Hio, (BST.inorder_insert tb key name data Ib).
    rewrite !labels_app, !labels_cons.
    by rewrite !labels_below, !labels_above, Hlab.
  - destruct (AVL.avl_inorder_remove ta key Ha Ia) as (ta1 & Hrem & Hio).
    destruct (AVL._remove_spec ta key Ha) as (ta2 & Hrem' & Ha1 & _).
    unfold AVL.remove in *. assert (ta2 = ta1) as -> by congruence.
    rewrite Hrem. simpl. apply IH; [done| |by apply BST.bst_remove_increasing|].
    + exact (AVL.avl_remove_increasing ta key ta1 Ha Ia Hrem).
    + rewrite Hio, (BST.inorder_remove tb key Ib).
      by rewrite !labels_other, Hlab.
Qed.

(** Menu option 5: the cities of the AVL tree are inserted, in order,
    into a new BST ([collect_insert]); [export] is the BST these calls
    leave when they have returned.  The option then calls [dsw_balance]
    on it and prints it in order.  The recursion limit of the
    interpreter is outside the model. *)
Definition export (ta : AVL.tree Obj) : BST.tree Obj :=
  BST.insert_all (AVL.inorder ta) BST.Leaf.

Lemma inorder_export ta :
  increasing (AVL.keys ta) → BST.inorder (export ta) = AVL.inorder ta.
Proof. intros Hinc. unfold export. by rewrite BST.inorder_insert_all. Qed.

(** X17: in both trees the pre-order and the post-order traversal visit
    the nodes that the in-order traversal visits, each as often, the
    pre-order starting and the post-order ending with the root. *)
Theorem traversals_visit_the_same_nodes (ta : AVL.tree Obj) (tb : BST.tree Obj) :
  (AVL.preorder ta ≡ₚ AVL.inorder ta ∧ AVL.postorder ta ≡ₚ AVL.inorder ta ∧
   head (AVL.preorder ta) = last (AVL.postorder ta)) ∧
  (BST.preorder tb ≡ₚ BST.inorder tb ∧ BST.postorder tb ≡ₚ BST.inorder tb ∧
   head (BST.preorder tb) = last (BST.postorder tb)).
Proof.
  split; (split; [|split]).
  - apply AVL.avl_preorder_perm.
  - apply AVL.avl_postorder_perm.
  - destruct ta; [done|]. simpl. by rewrite app_assoc, last_snoc.
  - apply BST.preorder_perm.
  - apply BST.postorder_perm.
  - destruct tb; [done|]. simpl. by rewrite app_assoc, last_snoc.
Qed.

(** X18: a BST with increasing keys is rebuilt, shape and contents, by
    inserting the sequence of its pre-order traversal into an empty
    tree. *)
Theorem preorder_rebuilds_the_tree (tb : BST.tree Obj) :
  increasing (BST.keys tb) → BST.insert_all (BST.preorder tb) BST.Leaf = tb.
Proof. apply BST.insert_all_preorder. Qed.

(** X19: the same sequence of [insert] and [remove] calls, made on an
    empty AVL tree and on an empty BST, leaves two trees whose in-order
    traversals show the same keys with the same names. *)
Theorem trees_agree (ops : list (op Obj)) :
  ∃ ta, AVL.run ops AVL.Leaf = Some ta ∧
        labels (AVL.inorder ta) = labels (BST.inorder (BST.run ops BST.Leaf)) ∧
        AVL.keys ta = BST.keys (BST.run ops BST.Leaf).
Proof.
  destruct (run_both ops AVL.Leaf BST.Leaf AVL.avl_leaf) as (ta & Hrun & Hlab);
    [constructor|constructor|done|].
  exists ta. split; [done|]. split; [done|].
  unfold AVL.keys, BST.keys. by rewrite !keys_of_labels, Hlab.
Qed.

(** X20: the BST that menu option 5 has built once its insertions
    have returned has the in-order sequence of the AVL tree and is a
    chain to the right: no node has a left child, and the height is the
    number [n] of cities (so inserting the last city nests [n] calls of
    [_insert]).  On that BST [dsw_balance] raises exactly when [n] is
    [2^k - 1] with [k >= 2] (3, 7, 15, ...), and whenever it returns,
    the tree that the option then prints in order shows the entries of
    the AVL tree in their order. *)
Theorem option5_export (ta : AVL.tree Obj) :
  increasing (AVL.keys ta) →
  BST.inorder (export ta) = AVL.inorder ta ∧
  BST.is_vine (export ta) ∧
  BST.height (export ta) = Z.of_nat (length (AVL.inorder ta)) ∧
  (BST.dsw_balance (export ta) = None ↔
   ∃ k : nat, (2 ≤ k)%nat ∧
              Z.of_nat (length (AVL.inorder ta)) = 2 ^ Z.of_nat k - 1) ∧
  (∀ bst, BST.dsw_balance (export ta) = Some bst →
          BST.inorder bst = AVL.inorder ta).
Proof.
  intros Hinc. pose proof (inorder_export ta Hinc) as Hio.
  assert (BST.is_vine (export ta)) as Hvine.
  { unfold export. by apply BST.is_vine_insert_all. }
  splits.
  - done.
  - done.
  - by rewrite (BST.height_vine _ Hvine), <- BST.length_inorder, Hio.
  - rewrite <- Hio, BST.length_inorder, <- BST._count_size.
    apply BST.dsw_balance_raises_iff.
  - intros bst Hdsw. by rewrite (BST.inorder_dsw_balance _ _ Hdsw).
Qed.

End both_trees.

Lemma preorder_rebuilds_the_tree_witness :
  increasing (BST.keys BST.three_cities) ∧
  BST.insert_all
    [(7, "g"%string, Some (Dict ["graph"%string])); (3, "c"%string, None);
     (9, "i"%string, None)] BST.Leaf = BST.three_cities.
Proof.
  split; [exact BST.three_cities_increasing|].
  exact (preorder_rebuilds_the_tree BST.three_cities BST.three_cities_increasing).
Defined.

Lemma option5_export_witness :
  increasing (AVL.keys AVL.avl_three_cities) ∧
  BST.height (export AVL.avl_three_cities) = 3 ∧
  BST.dsw_balance (export AVL.avl_three_cities) = None.
Proof.
  split; [exact AVL.avl_three_cities_increasing|].
  destruct (option5_export AVL.avl_three_cities AVL.avl_three_cities_increasing)
    as (_ & _ & Hheight & Hraises & _).
  split; [exact Hheight|].
  apply Hraises. exists 2%nat. split; [lia|reflexivity].
Defined.

(** * The graph of [grafo.py] *)

Module Graph.

(** ** Numbers

    Weights and distances are Python numbers: [0], [float('inf')], the
    weights given to [add_edge] and their sums.  The code compares them
    with [<] and [>] and adds them.  [Number] asks of the numbers what
    Python's integers and its floats other than NaN provide: [<] is a
    strict weak order (two numbers may compare equal without being the
    same value, as [0.0] and [-0.0]), [float('inf')] is above [0] and
    below nothing, and adding a number that is not below [0] does not
    take a number down. *)
Class Number (W : Type) := {
  nzero : W;
  ninf : W;
  nadd : W → W → W;
  nlt : W → W → bool;
  nlt_irrefl a : nlt a a = false;
  nlt_trans a b c : nlt a b = true → nlt b c = true → nlt a c = true;
  nle_trans a b c : nlt b a = false → nlt c b = false → nlt c a = false;
  ninf_top a : nlt ninf a = false;
  nzero_lt_inf : nlt nzero ninf = true;
  nadd_nonneg d w : nlt w nzero = false → nlt (nadd d w) d = false
}.

(** [a <= b], as [not (b < a)]. *)
Definition nle `{Number W} (a b : W) : Prop := nlt b a = false.

(** [a == b] on numbers. *)
Definition neqb `{Number W} (a b : W) : bool := negb (nlt a b) && negb (nlt b a).

(** Integers and [float('inf')]. *)
Inductive pynum : Type := Fin (z : Z) | Inf.

Definition pynum_add (a b : pynum) : pynum :=
  match a, b with
  | Fin x, Fin y => Fin (x + y)
  | _, _ => Inf
  end.

Definition pynum_lt (a b : pynum) : bool :=
  match a, b with
  | Fin x, Fin y => x <? y
  | Fin _, Inf => true
  | Inf, _ => false
  end.

#[export, refine] Instance pynum_number : Number pynum :=
  {| nzero := Fin 0; ninf := Inf; nadd := pynum_add; nlt := pynum_lt |}.
Proof.
  - intros [x|]; simpl; [apply Z.ltb_irrefl|done].
  - intros [x|] [y|] [z|]; simpl; try done. rewrite !Z.ltb_lt. lia.
  - intros [x|] [y|] [z|]; simpl; try done. rewrite !Z.ltb_ge. lia.
  - by intros [x|].
  - done.
  - intros [x|] [y|]; simpl; try done. rewrite !Z.ltb_ge. lia.
Defined.

(** How a call ends: it returns, it raises (a [KeyError] from [dist[u]]),
    or the model ran out of fuel. *)
Inductive outcome (A : Type) : Type :=
| Returns (a : A)
| Raises
| OutOfFuel.
Arguments Returns {A} a.
Arguments Raises {A}.
Arguments OutOfFuel {A}.

(** An entry [(d, u)] of the heap. *)
Abbreviation item W := (W * string)%type (only parsing).

Section graph.
Context `{Number W}.

(** [Graph]: [adj] maps a vertex to its list of [(neighbour, weight)];
    it is a [defaultdict(list)], so reading [adj[u]] for a missing [u]
    stores an empty list under [u].  Vertices are strings, as [main.py]
    reads them from the user. *)
Record Graph : Type := {
  adj : gmap string (list (string * W));
  directed : bool
}.

(** [Graph(directed)]. *)
Definition new (directed : bool) : Graph := {| adj := ∅; directed := directed |}.

(** [self.adj[u]] on the [defaultdict]: the list read and the dict
    after the read. *)
Definition adj_getitem (u : string) (a : gmap string (list (string * W)))
  : list (string * W) * gmap string (list (string * W)) :=
  match a !! u with
  | Some l => (l, a)
  | None => ([], <[u := []]> a)
  end.

(** [self.adj[u].append(x)]. *)
Definition adj_append (u : string) (x : string * W)
    (a : gmap string (list (string * W))) : gmap string (list (string * W)) :=
  let '(l, a') := adj_getitem u a in <[u := l ++ [x]]> a'.

Definition add_vertex (v : string) (g : Graph) : Graph :=
  match adj g !! v with
  | Some _ => g
  | None => {| adj := <[v := []]> (adj g); directed := directed g |}
  end.

Definition add_edge (u v : string) (weight : W) (g : Graph) : Graph :=
  let a := adj_append u (v, weight) (adj g) in
  let a := if negb (directed g) then adj_append v (u, weight) a else a in
  {| adj := a; directed := directed g |}.

(** [vertices()]: the keys of [adj], in an order that is not specified. *)
Definition vertices (g : Graph) : list string := (map_to_list (adj g)).*1.

(** *** Dijkstra *)

(** [dist.get(v, float('inf'))]. *)
Definition dist_get (dist : gmap string W) (v : string) : W :=
  default ninf (dist !! v).

(** [<] on the tuples [(d, u)] of the heap: the first components decide
    unless they are equal. *)
Definition item_lt (a b : item W) : bool :=
  if neqb a.1 b.1 then String.ltb a.2 b.2 else nlt a.1 b.1.

(** [heapq] keeps its list so that the least item is popped;
    the heap is modelled by the list of its items, [heappush] adding one
    and [heappop] taking the least one out.  [pop_least x h] is the
    least item of [x :: h] and the others. *)
Fixpoint pop_least (x : item W) (h : list (item W)) : item W * list (item W) :=
  match h with
  | [] => (x, [])
  | y :: h' =>
      if item_lt y x
      then let '(m, rest) := pop_least y h' in (m, x :: rest)
      else let '(m, rest) := pop_least x h' in (m, y :: rest)
  end.

Definition heappop (h : list (item W)) : option (item W * list (item W)) :=
  match h with
  | [] => None
  | x :: h' => Some (pop_least x h')
  end.

Definition heappush (h : list (item W)) (x : item W) : list (item W) := x :: h.

(** The variables of [dijkstra], and [self.adj]. *)
Record state : Type := {
  dist : gmap string W;
  prev : gmap string (option string);
  heap : list (item W);
  adj_now : gmap string (list (string * W))
}.

(** The body of [for v, w in self.adj[u]:]. *)
Definition relax_edge (u : string) (vw : string * W) (st : state) : outcome state :=
  let '(v, w) := vw in
  match dist st !! u with
  | None => Raises
  | Some du =>
      let alt := nadd du w in
      if nlt alt (dist_get (dist st) v) then
        let dist1 := <[v := alt]> (dist st) in
        let prev1 := <[v := Some u]> (prev st) in
        let heap1 := heappush (heap st) (alt, v) in
        let dist2 := match dist1 !! v with
                     | Some _ => dist1
                     | None => <[v := alt]> dist1
                     end in
        Returns {| dist := dist2; prev := prev1; heap := heap1; adj_now := adj_now st |}
      else Returns st
  end.

Fixpoint relax_all (u : string) (nbrs : list (string * W)) (st : state) : outcome state :=
  match nbrs with
  | [] => Returns st
  | vw :: nbrs' =>
      match relax_edge u vw st with
      | Returns st' => relax_all u nbrs' st'
      | Raises => Raises
      | OutOfFuel => OutOfFuel
      end
  end.

(** [while heap:], with one unit of fuel for each test of the loop. *)
Fixpoint loop (fuel : nat) (st : state) : outcome state :=
  match fuel with
  | O => OutOfFuel
  | S fuel' =>
      match heappop (heap st) with
      | None => Returns st
      | Some ((d, u), rest) =>
          match dist st !! u with
          | None => Raises
          | Some du =>
              if nlt du d then
                loop fuel' {| dist := dist st; prev := prev st; heap := rest;
                              adj_now := adj_now st |}
              else
                let '(nbrs, a) := adj_getitem u (adj_now st) in
                match relax_all u nbrs {| dist := dist st; prev := prev st;
                                          heap := rest; adj_now := a |} with
                | Returns st' => loop fuel' st'
                | Raises => Raises
                | OutOfFuel => OutOfFuel
                end
          end
      end
  end.

(** [dijkstra(source)]: [(dist, prev)], and the graph after the call. *)
Definition dijkstra (fuel : nat) (source : string) (g : Graph)
  : outcome (gmap string W * gmap string (option string) * Graph) :=
  let dist0 : gmap string W := (λ _, ninf) <$> adj g in
  let prev0 : gmap string (option string) := (λ _, None) <$> adj g in
  match adj g !! source with
  | None => Returns (dist0, prev0, g)
  | Some _ =>
      let st := {| dist := <[source := nzero]> dist0; prev := prev0;
                   heap := [(nzero, source)]; adj_now := adj g |} in
      match loop fuel st with
      | Returns st' =>
          Returns (dist st', prev st', {| adj := adj_now st'; directed := directed g |})
      | Raises => Raises
      | OutOfFuel => OutOfFuel
      end
  end.

(** [shortest_path(source, target)]. *)
Fixpoint walk_back (fuel : nat) (prev : gmap string (option string))
    (cur : option string) (path : list string) : list string :=
  match fuel, cur with
  | S fuel', Some c => walk_back fuel' prev (default None (prev !! c)) (c :: path)
  | _, _ => path
  end.

Definition shortest_path (fuel : nat) (source target : string) (g : Graph)
  : outcome (W * list string) :=
  match dijkstra fuel source g with
  | Returns (dist, prev, _) =>
      if neqb (dist_get dist target) ninf then Returns (ninf, [])
      else
        match dist !! target with
        | Some d => Returns (d, walk_back fuel prev (Some target) [])
        | None => Raises
        end
  | Raises => Raises
  | OutOfFuel => OutOfFuel
  end.

(** Every weight is at least [0]. *)
Definition nonneg_weights (g : Graph) : Prop :=
  map_Forall (λ _ l, Forall (λ vw : string * W, nle nzero vw.2) l) (adj g).

(** The number of [(neighbour, weight)] entries of the graph. *)
Definition num_edges (g : Graph) : nat :=
  sum_list_with (λ ul : string * list (string * W), length ul.2) (map_to_list (adj g)).

End graph.
Arguments Graph : clear implicits.
Arguments state : clear implicits.

(** ** The order on numbers *)

Section numbers.
Context `{Number W}.
Implicit Types a b c d w : W.

Lemma nle_refl a : nle a a.
Proof. apply nlt_irrefl. Qed.

Lemma nle_transitive a b c : nle a b → nle b c → nle a c.
Proof. apply nle_trans. Qed.

Lemma nlt_nle a b : nlt a b = true → nle a b.
Proof.
  intros Hab. unfold nle. destruct (nlt b a) eqn:Hba; [|done].
  by rewrite <- (nlt_irrefl a), (nlt_trans a b a Hab Hba).
Qed.

Lemma nlt_le_trans a b c : nlt a b = true → nle b c → nlt a c = true.
Proof.
  intros Hab Hbc. destruct (nlt a c) eqn:Hac; [done|].
  by rewrite (nle_transitive b c a Hbc Hac) in Hab.
Qed.

Lemma nle_lt_trans a b c : nle a b → nlt b c = true → nlt a c = true.
Proof.
  intros Hab Hbc. destruct (nlt a c) eqn:Hac; [done|].
  by rewrite (nle_transitive c a b Hac Hab) in Hbc.
Qed.

Lemma nle_inf a : nle a ninf.
Proof. apply ninf_top. Qed.

Lemma nle_add d w : nle nzero w → nle d (nadd d w).
Proof. apply nadd_nonneg. Qed.

Lemma nle_zero_inf : nle nzero ninf.
Proof. apply nle_inf. Qed.

End numbers.

(** ** The heap *)

Section heap.
Context `{Number W}.
Implicit Types x y m : item W.
Implicit Types h rest : list (item W).

Lemma item_lt_le x y : item_lt x y = true → nle x.1 y.1.
Proof.
  unfold item_lt, neqb.
  destruct (nlt x.1 y.1) eqn:Hxy, (nlt y.1 x.1) eqn:Hyx; simpl; try done.
  intros _. by apply nlt_nle.
Qed.

Lemma item_lt_ge x y : item_lt x y = false → nle y.1 x.1.
Proof.
  unfold item_lt, neqb, nle.
  destruct (nlt x.1 y.1) eqn:Hxy, (nlt y.1 x.1) eqn:Hyx; simpl; done.
Qed.

Lemma pop_least_perm x h m rest :
  pop_least x h = (m, rest) → m :: rest ≡ₚ x :: h.
Proof.
  revert x m rest. induction h as [|y h IH]; intros x m rest; simpl.
  - by intros [= -> <-].
  - destruct (item_lt y x).
    + destruct (pop_least y h) as [m' rest'] eqn:Hpop. intros [= -> <-].
      by rewrite (Permutation_swap x m rest'), (IH _ _ _ Hpop).
    + destruct (pop_least x h) as [m' rest'] eqn:Hpop. intros [= -> <-].
      rewrite (Permutation_swap y m rest'), (IH _ _ _ Hpop). apply Permutation_swap.
Qed.

Lemma pop_least_min x h m rest :
  pop_least x h = (m, rest) → ∀ e, e ∈ x :: h → nle m.1 e.1.
Proof.
  revert x m rest. induction h as [|y h IH]; intros x m rest; simpl.
  - intros [= -> <-] e ->%list_elem_of_singleton. apply nle_refl.
  - destruct (item_lt y x) eqn:Hlt.
    + destruct (pop_least y h) as [m' rest'] eqn:Hpop. intros [= -> <-] e.
      rewrite elem_of_cons. intros [->|He]; [|by eapply IH].
      eapply nle_transitive; [|by apply item_lt_le].
      eapply IH; [done|by left].
    + destruct (pop_least x h) as [m' rest'] eqn:Hpop. intros [= -> <-] e.
      rewrite (Permutation_swap y x h), elem_of_cons. intros [->|He]; [|by eapply IH].
      eapply nle_transitive; [|by apply item_lt_ge].
      eapply IH; [done|by left].
Qed.

End heap.

(** ** [add_edge] and the vertex set *)

Section graph_edges.
Context `{Number W}.
Implicit Types g : Graph W.

(** [adj.get(u, [])]: the neighbours of [u]. *)
Definition neighbours (a : gmap string (list (string * W))) (u : string)
  : list (string * W) :=
  default [] (a !! u).

Lemma elem_of_vertices g x : x ∈ vertices g ↔ is_Some (adj g !! x).
Proof.
  unfold vertices. rewrite list_elem_of_fmap. split.
  - intros ([y l] & -> & Hin). apply elem_of_map_to_list in Hin. by eexists.
  - intros [l Hl]. exists (x, l). split; [done|]. by apply elem_of_map_to_list.
Qed.

Lemma adj_append_eq u x (a : gmap string (list (string * W))) :
  adj_append u x a = <[u := neighbours a u ++ [x]]> a.
Proof.
  unfold adj_append, adj_getitem, neighbours.
  destruct (a !! u) as [l|]; simpl; [done|]. by rewrite insert_insert_eq.
Qed.

(** C7, amended: [add_edge(u, v, weight)] appends [(v, weight)] to the
    neighbours of [u] and, in an undirected graph, [(u, weight)] to the
    neighbours of [v]; the vertices afterwards are the vertices before
    together with [u] and, in an undirected graph, [v]. *)
Theorem add_edge_vertices g u v weight :
  let a1 := <[u := neighbours (adj g) u ++ [(v, weight)]]> (adj g) in
  adj (add_edge u v weight g) =
    (if directed g then a1 else <[v := neighbours a1 v ++ [(u, weight)]]> a1) ∧
  directed (add_edge u v weight g) = directed g ∧
  ∀ x, x ∈ vertices (add_edge u v weight g) ↔
       x ∈ vertices g ∨ x = u ∨ (directed g = false ∧ x = v).
Proof.
  intros a1.
  assert (adj (add_edge u v weight g) =
          (if directed g then a1 else <[v := neighbours a1 v ++ [(u, weight)]]> a1)) as Hadj.
  { unfold add_edge. simpl. rewrite !adj_append_eq. by destruct (directed g). }
  split; [done|]. split; [done|].
  intros x. rewrite !elem_of_vertices, Hadj. unfold a1.
  destruct (directed g).
  - rewrite lookup_insert. case_decide as Hx.
    + subst x. split; [auto|]. intros _. by eexists.
    + split; [auto|]. intros [?|[?|[? _]]]; congruence.
  - rewrite !lookup_insert. case_decide as Hv; [|case_decide as Hu].
    + subst x. split; [auto|]. intros _. by eexists.
    + subst x. split; [auto|]. intros _. by eexists.
    + split; [auto|]. intros [?|[?|[_ ?]]]; congruence.
Qed.

End graph_edges.

(** ** The invariant of the loop of [dijkstra] *)

Section dijkstra_invariant.
Context `{Number W}.
Variable adj0 : gmap string (list (string * W)).
Variable source : string.
Hypothesis weights_nonneg :
  ∀ u l v w, adj0 !! u = Some l → (v, w) ∈ l → nle nzero w.

Implicit Types ds : gmap string W.
Implicit Types h rest : list (item W).
Implicit Types st : state W.
Implicit Types u v x y : string.

(** An entry [(d, v)] that the loop would not skip: [not (d > dist[v])]. *)
Definition fresh ds (e : item W) : bool := negb (nlt (dist_get ds e.2) e.1).

Definition counts ds v (e : item W) : nat :=
  if bool_decide (e.2 = v) && fresh ds e then 1 else 0.

(** The number of entries of [v] in the heap that would not be skipped. *)
Definition pending ds h v : nat := sum_list_with (counts ds v) h.

(** [v] has a distance below infinity and no such entry: the loop is
    done with it. *)
Definition closed ds h v : bool :=
  nlt (dist_get ds v) ninf && bool_decide (pending ds h v = 0%nat).

Record Inv (skip : option string) (lo : W) st : Prop := {
  inv_adj : ∀ u, neighbours (adj_now st) u = neighbours adj0 u;
  inv_heap : ∀ d v, (d, v) ∈ heap st →
    nlt d ninf = true ∧ nle lo d ∧ is_Some (dist st !! v) ∧
    nle (dist_get (dist st) v) d;
  inv_nonneg : ∀ v, nle nzero (dist_get (dist st) v);
  inv_lo : nle nzero lo;
  inv_closed : ∀ v, Some v ≠ skip → closed (dist st) (heap st) v = true →
    nle (dist_get (dist st) v) lo ∧
    ∀ x w, (x, w) ∈ neighbours adj0 v →
           nle (dist_get (dist st) x) (nadd (dist_get (dist st) v) w);
  inv_once : ∀ v, (pending (dist st) (heap st) v ≤ 1)%nat;
  inv_source : dist st !! source = Some nzero;
  inv_dom : ∀ v, is_Some (adj0 !! v) → is_Some (dist st !! v)
}.

(** The vertex whose neighbours are being relaxed: popped at [lo]. *)
Record current (lo : W) u st : Prop := {
  cur_some : is_Some (dist st !! u);
  cur_le : nle (dist_get (dist st) u) lo;
  cur_ge : nle lo (dist_get (dist st) u);
  cur_pending : pending (dist st) (heap st) u = 0%nat
}.

Lemma dist_get_insert ds x (a : W) y :
  dist_get (<[x := a]> ds) y = if decide (x = y) then a else dist_get ds y.
Proof. unfold dist_get. rewrite lookup_insert. by case_decide. Qed.

Lemma dist_get_some ds v (d : W) : ds !! v = Some d → dist_get ds v = d.
Proof. unfold dist_get. by intros ->. Qed.

Lemma pending_ext ds ds' h v :
  dist_get ds' v = dist_get ds v → pending ds' h v = pending ds h v.
Proof.
  intros Hv. unfold pending. induction h as [|e h IH]; simpl; [done|].
  rewrite IH. f_equal. unfold counts, fresh.
  case_bool_decide as He; [|done]. by rewrite He, Hv.
Qed.

Lemma pending_pop ds h (m : item W) rest v :
  m :: rest ≡ₚ h → pending ds h v = (counts ds v m + pending ds rest v)%nat.
Proof. unfold pending. by intros <-. Qed.

Lemma pending_zero ds h v :
  (∀ e, e ∈ h → e.2 = v → fresh ds e = false) → pending ds h v = 0%nat.
Proof.
  unfold pending. induction h as [|e h IH]; simpl; [done|]. intros Hall.
  rewrite IH by (intros e' He'; apply Hall; by right).
  unfold counts. case_bool_decide as He; [|done].
  by rewrite (Hall e) by (done || by left).
Qed.

Lemma closed_ext ds ds' h v :
  dist_get ds' v = dist_get ds v → closed ds' h v = closed ds h v.
Proof. intros Hv. unfold closed. by rewrite (pending_ext ds ds' h v Hv), Hv. Qed.

(** One pass through the body of the [for] loop. *)
Lemma relax_edge_spec lo u x (w : W) st :
  Inv (Some u) lo st → current lo u st → nle nzero w →
  ∃ st', relax_edge u (x, w) st = Returns st' ∧
    Inv (Some u) lo st' ∧ current lo u st' ∧
    dist_get (dist st') u = dist_get (dist st) u ∧
    (∀ y, nle (dist_get (dist st') y) (dist_get (dist st) y)) ∧
    nle (dist_get (dist st') x) (nadd (dist_get (dist st) u) w) ∧
    (length (heap st') ≤ S (length (heap st)))%nat ∧
    (∀ v, closed (dist st) (heap st) v = true →
          closed (dist st') (heap st') v = true).
Proof.
  intros HI [[du Hdu] Hle Hge Hpend] Hw. unfold relax_edge. rewrite Hdu.
  rewrite (dist_get_some _ _ _ Hdu) in *.
  set (alt := nadd du w).
  assert (nle du alt) as Hdu_alt by (by apply nle_add).
  destruct (nlt alt (dist_get (dist st) x)) eqn:Hrelax; last first.
  { exists st. split; [done|]. split; [done|].
    split; [split; [by exists du|by rewrite (dist_get_some _ _ _ Hdu)..|done]|].
    split; [by apply dist_get_some|]. split; [intros y; apply nle_refl|].
    split; [exact Hrelax|]. split; [lia|done]. }
  rewrite lookup_insert_eq. unfold heappush.
  assert (x ≠ u) as Hxu.
  { intros ->. rewrite (dist_get_some _ _ _ Hdu) in Hrelax.
    unfold nle in Hdu_alt. congruence. }
  assert (x ≠ source) as Hxs.
  { intros ->. rewrite (dist_get_some _ _ _ (inv_source _ _ _ HI)) in Hrelax.
    assert (nle nzero alt) as Hz.
    { eapply nle_transitive; [|exact Hdu_alt].
      rewrite <- (dist_get_some _ _ _ Hdu). apply (inv_nonneg _ _ _ HI). }
    unfold nle in Hz. congruence. }
  set (ds' := <[x := alt]> (dist st)).
  assert (dist_get ds' x = alt) as Hgx.
  { unfold ds'. rewrite dist_get_insert. by case_decide. }
  assert (∀ y, y ≠ x → dist_get ds' y = dist_get (dist st) y) as Hgy.
  { intros y Hy. unfold ds'. rewrite dist_get_insert. by case_decide. }
  assert (∀ v, v ≠ x →
            pending ds' ((alt, x) :: heap st) v = pending (dist st) (heap st) v) as Hpy.
  { intros v Hv. unfold pending at 1. simpl. fold (pending ds' (heap st) v).
    rewrite (pending_ext (dist st)) by by apply Hgy.
    unfold counts. simpl. case_bool_decide; [congruence|done]. }
  assert (pending ds' ((alt, x) :: heap st) x = 1%nat) as Hpx.
  { unfold pending at 1. simpl. fold (pending ds' (heap st) x).
    rewrite pending_zero.
    - unfold counts, fresh. simpl. rewrite bool_decide_eq_true_2 by done.
      rewrite Hgx. by rewrite nlt_irrefl.
    - intros [d v] Hin Hv. simpl in Hv. subst v. unfold fresh. simpl. rewrite Hgx.
      destruct (inv_heap _ _ _ HI d x Hin) as (_ & _ & _ & Hd).
      by rewrite (nlt_le_trans alt _ d Hrelax Hd). }
  assert (∀ v, closed (dist st) (heap st) v = true → v ≠ x) as Hclosed_x.
  { intros v Hcl ->.
    destruct (inv_closed _ _ _ HI x ltac:(congruence) Hcl) as [Hxlo _].
    assert (nle (dist_get (dist st) x) alt) as Hcontra.
    { eapply nle_transitive; [exact Hxlo|]. by eapply nle_transitive. }
    unfold nle in Hcontra. congruence. }
  eexists. split; [done|]. cbn [dist heap adj_now prev]. fold ds'. splits.
  - split; cbn [dist heap adj_now prev].
    + apply (inv_adj _ _ _ HI).
    + intros d v [[= -> ->]|Hin]%elem_of_cons.
      * rewrite Hgx. splits.
        -- eapply nlt_le_trans; [exact Hrelax|apply nle_inf].
        -- by eapply nle_transitive.
        -- unfold ds'. rewrite lookup_insert_eq. by eexists.
        -- apply nle_refl.
      * destruct (inv_heap _ _ _ HI d v Hin) as (Hd1 & Hd2 & Hd3 & Hd4).
        splits; try done.
        -- unfold ds'. rewrite lookup_insert. by case_decide.
        -- destruct (decide (v = x)) as [->|Hv]; [|by rewrite Hgy].
           rewrite Hgx. eapply nle_transitive; [|exact Hd4]. by apply nlt_nle.
    + intros v. destruct (decide (v = x)) as [->|Hv].
      * rewrite Hgx. eapply nle_transitive; [|exact Hdu_alt].
        rewrite <- (dist_get_some _ _ _ Hdu). apply (inv_nonneg _ _ _ HI).
      * rewrite Hgy by done. apply (inv_nonneg _ _ _ HI).
    + apply (inv_lo _ _ _ HI).
    + intros v Hskip Hcl.
      assert (v ≠ x) as Hv.
      { intros ->. unfold closed in Hcl. rewrite Hpx in Hcl.
        by rewrite andb_false_r in Hcl. }
      unfold closed in Hcl. rewrite Hpy, Hgy in Hcl by done.
      destruct (inv_closed _ _ _ HI v Hskip Hcl) as [Hvlo Hedges].
      rewrite Hgy by done. split; [done|]. intros y w' Hy.
      eapply nle_transitive; [|by apply Hedges].
      destruct (decide (y = x)) as [->|Hyx]; [|rewrite Hgy by done; apply nle_refl].
      rewrite Hgx. by apply nlt_nle.
    + intros v. destruct (decide (v = x)) as [->|Hv]; [by rewrite Hpx|].
      rewrite Hpy by done. apply (inv_once _ _ _ HI).
    + unfold ds'. rewrite lookup_insert_ne by done. apply (inv_source _ _ _ HI).
    + intros v Hv. unfold ds'. rewrite lookup_insert. case_decide; [by eexists|].
      by apply (inv_dom _ _ _ HI).
  - split; cbn [dist heap adj_now prev].
    + unfold ds'. rewrite lookup_insert_ne by done. by exists du.
    + rewrite Hgy by done. by rewrite (dist_get_some _ _ _ Hdu).
    + rewrite Hgy by done. by rewrite (dist_get_some _ _ _ Hdu).
    + by rewrite Hpy.
  - rewrite Hgy by done. by rewrite (dist_get_some _ _ _ Hdu).
  - intros y. destruct (decide (y = x)) as [->|Hyx]; [|rewrite Hgy by done; apply nle_refl].
    rewrite Hgx. by apply nlt_nle.
  - rewrite Hgx. apply nle_refl.
  - simpl. lia.
  - intros v Hcl. pose proof (Hclosed_x v Hcl) as Hv.
    unfold closed. rewrite Hpy, Hgy by done. exact Hcl.
Qed.

(** The whole [for] loop over the neighbours of [u]. *)
Lemma relax_all_spec lo u (l : list (string * W)) st :
  Inv (Some u) lo st → current lo u st →
  (∀ x w, (x, w) ∈ l → nle nzero w) →
  ∃ st', relax_all u l st = Returns st' ∧
    Inv (Some u) lo st' ∧ current lo u st' ∧
    dist_get (dist st') u = dist_get (dist st) u ∧
    (∀ y, nle (dist_get (dist st') y) (dist_get (dist st) y)) ∧
    (∀ x w, (x, w) ∈ l →
            nle (dist_get (dist st') x) (nadd (dist_get (dist st) u) w)) ∧
    (length (heap st') ≤ length l + length (heap st))%nat ∧
    (∀ v, closed (dist st) (heap st) v = true →
          closed (dist st') (heap st') v = true).
Proof.
  revert st. induction l as [|[x w] l IH]; intros st HI Hc Hw.
  - exists st. splits; try done.
    + intros y. apply nle_refl.
    + intros x w Hin. by apply elem_of_nil in Hin.
  - destruct (relax_edge_spec lo u x w st HI Hc) as
      (st1 & Heq1 & HI1 & Hc1 & Hu1 & Hmono1 & Hx1 & Hlen1 & Hcl1).
    { apply (Hw x w). by left. }
    destruct (IH st1 HI1 Hc1) as
      (st2 & Heq2 & HI2 & Hc2 & Hu2 & Hmono2 & Hall2 & Hlen2 & Hcl2).
    { intros y w' Hin. apply (Hw y w'). by right. }
    exists st2. cbn [relax_all]. rewrite Heq1. splits; try done.
    + by rewrite Hu2.
    + intros y. by eapply nle_transitive.
    + intros y w' [[= -> ->]|Hin]%elem_of_cons.
      * by eapply nle_transitive.
      * rewrite <- Hu1. by apply Hall2.
    + simpl. lia.
    + auto.
Qed.

(** Once its neighbours are relaxed, [u] is like every closed vertex. *)
Lemma inv_release lo u st :
  Inv (Some u) lo st → current lo u st →
  (∀ x w, (x, w) ∈ neighbours adj0 u →
          nle (dist_get (dist st) x) (nadd (dist_get (dist st) u) w)) →
  Inv None lo st.
Proof.
  intros HI Hc Hedges. split; try apply HI.
  intros v _ Hcl. destruct (decide (v = u)) as [->|Hv].
  - split; [apply Hc|done].
  - apply (inv_closed _ _ _ HI); [congruence|done].
Qed.

(** *** The measure that bounds the number of iterations *)

Definition open_deg ds h (ul : string * list (string * W)) : nat :=
  if closed ds h ul.1 then 0%nat else length ul.2.

Definition potential ds h : nat :=
  sum_list_with (open_deg ds h) (map_to_list adj0).

Definition measure st : nat :=
  (length (heap st) + potential (dist st) (heap st))%nat.

Definition deg_in u : nat :=
  sum_list_with (λ ul : string * list (string * W),
                   if bool_decide (ul.1 = u) then length ul.2 else 0%nat)
                (map_to_list adj0).

Lemma potential_mono ds h ds' h' :
  (∀ v, closed ds h v = true → closed ds' h' v = true) →
  (potential ds' h' ≤ potential ds h)%nat.
Proof.
  intros Hcl. unfold potential.
  induction (map_to_list adj0) as [|ul L IH]; simpl; [done|].
  assert (open_deg ds' h' ul ≤ open_deg ds h ul)%nat; [|lia].
  unfold open_deg. destruct (closed ds h ul.1) eqn:Hc.
  - by rewrite (Hcl _ Hc).
  - destruct (closed ds' h' ul.1); lia.
Qed.

Lemma potential_close ds h rest u :
  closed ds rest u = true → closed ds h u = false →
  (∀ v, v ≠ u → closed ds rest v = closed ds h v) →
  (potential ds rest + deg_in u)%nat = potential ds h.
Proof.
  intros Hu1 Hu2 Hv. unfold potential, deg_in.
  induction (map_to_list adj0) as [|ul L IH]; simpl; [done|].
  rewrite <- IH. unfold open_deg. case_bool_decide as Hul.
  - rewrite Hul, Hu1, Hu2. lia.
  - rewrite (Hv _ Hul). lia.
Qed.

Lemma deg_in_ge u : (length (neighbours adj0 u) ≤ deg_in u)%nat.
Proof.
  unfold neighbours. destruct (adj0 !! u) as [l|] eqn:Hl; simpl; [|lia].
  apply elem_of_map_to_list in Hl. unfold deg_in.
  etrans; [|by apply sum_list_with_in]. simpl.
  by rewrite bool_decide_eq_true_2.
Qed.

Lemma potential_le ds h :
  (potential ds h ≤
   sum_list_with (λ ul : string * list (string * W), length ul.2) (map_to_list adj0))%nat.
Proof.
  unfold potential. induction (map_to_list adj0) as [|ul L IH]; simpl; [done|].
  unfold open_deg at 1. destruct (closed ds h ul.1); lia.
Qed.

(** *** Popping an entry *)

Lemma adj_getitem_spec u (a a' : gmap string (list (string * W))) l :
  adj_getitem u a = (l, a') →
  l = neighbours a u ∧ ∀ y, neighbours a' y = neighbours a y.
Proof.
  unfold adj_getitem, neighbours. destruct (a !! u) as [l0|] eqn:Hu.
  - by intros [= <- <-].
  - intros [= <- <-]. split; [done|]. intros y.
    rewrite lookup_insert. case_decide as Hy; [|done]. subst y. by rewrite Hu.
Qed.

Lemma pop_stale lo st d u rest du :
  Inv None lo st → (d, u) :: rest ≡ₚ heap st →
  (∀ e, e ∈ heap st → nle d e.1) →
  dist st !! u = Some du → nlt du d = true →
  let st1 := {| dist := dist st; prev := prev st; heap := rest;
                adj_now := adj_now st |} in
  Inv None d st1 ∧ S (measure st1) = measure st.
Proof.
  intros HI Hperm Hmin Hdu Hstale st1. subst st1.
  assert (∀ e, e ∈ rest → e ∈ heap st) as Hsub.
  { intros e He. rewrite <- Hperm. by right. }
  assert ((d, u) ∈ heap st) as Hin by (rewrite <- Hperm; by left).
  destruct (inv_heap _ _ _ HI d u Hin) as (Hd1 & Hd2 & _ & Hd4).
  assert (∀ v, pending (dist st) rest v = pending (dist st) (heap st) v) as Hpend.
  { intros v. rewrite (pending_pop _ _ _ _ v Hperm). unfold counts, fresh. simpl.
    rewrite (dist_get_some _ _ _ Hdu), Hstale. by rewrite andb_false_r. }
  assert (∀ v, closed (dist st) rest v = closed (dist st) (heap st) v) as Hcl.
  { intros v. unfold closed. by rewrite Hpend. }
  split.
  - split; cbn [dist heap adj_now prev]; try apply HI.
    + intros d' v Hin'. destruct (inv_heap _ _ _ HI d' v (Hsub _ Hin')) as (? & ? & ? & ?).
      splits; try done. apply (Hmin (d', v)). by apply Hsub.
    + eapply nle_transitive; [apply (inv_lo _ _ _ HI)|done].
    + intros v Hskip Hv. rewrite Hcl in Hv.
      destruct (inv_closed _ _ _ HI v Hskip Hv) as [Hvlo Hedges].
      split; [|done]. by eapply nle_transitive.
    + intros v. rewrite Hpend. apply (inv_once _ _ _ HI).
  - unfold measure. cbn [dist heap adj_now prev].
    rewrite <- (Permutation_length Hperm). simpl.
    assert (potential (dist st) rest = potential (dist st) (heap st)); [|lia].
    apply Nat.le_antisymm; apply potential_mono; intros v; by rewrite Hcl.
Qed.

Lemma pop_fresh lo st d u rest du a :
  Inv None lo st → (d, u) :: rest ≡ₚ heap st →
  (∀ e, e ∈ heap st → nle d e.1) →
  dist st !! u = Some du → nlt du d = false →
  (∀ y, neighbours a y = neighbours (adj_now st) y) →
  let st1 := {| dist := dist st; prev := prev st; heap := rest; adj_now := a |} in
  Inv (Some u) d st1 ∧ current d u st1 ∧
  S (length rest + potential (dist st) rest + deg_in u) = measure st.
Proof.
  intros HI Hperm Hmin Hdu Hfresh Ha st1. subst st1.
  assert (∀ e, e ∈ rest → e ∈ heap st) as Hsub.
  { intros e He. rewrite <- Hperm. by right. }
  assert ((d, u) ∈ heap st) as Hin by (rewrite <- Hperm; by left).
  destruct (inv_heap _ _ _ HI d u Hin) as (Hd1 & Hd2 & _ & Hd4).
  assert (pending (dist st) (heap st) u = S (pending (dist st) rest u)) as Hpu.
  { rewrite (pending_pop _ _ _ _ u Hperm). unfold counts, fresh. simpl.
    rewrite (dist_get_some _ _ _ Hdu), Hfresh. by rewrite bool_decide_eq_true_2. }
  assert (pending (dist st) rest u = 0%nat) as Hpu0.
  { pose proof (inv_once _ _ _ HI u). lia. }
  assert (∀ v, v ≠ u → pending (dist st) rest v = pending (dist st) (heap st) v) as Hpend.
  { intros v Hv. rewrite (pending_pop _ _ _ _ v Hperm). unfold counts. simpl.
    by rewrite bool_decide_eq_false_2 by congruence. }
  assert (∀ v, v ≠ u → closed (dist st) rest v = closed (dist st) (heap st) v) as Hcl.
  { intros v Hv. unfold closed. by rewrite Hpend. }
  split; [|split].
  - split; cbn [dist heap adj_now prev]; try apply HI.
    + intros y. rewrite Ha. apply (inv_adj _ _ _ HI).
    + intros d' v Hin'. destruct (inv_heap _ _ _ HI d' v (Hsub _ Hin')) as (? & ? & ? & ?).
      splits; try done. apply (Hmin (d', v)). by apply Hsub.
    + eapply nle_transitive; [apply (inv_lo _ _ _ HI)|done].
    + intros v Hskip Hv. rewrite Hcl in Hv by congruence.
      destruct (inv_closed _ _ _ HI v ltac:(done) Hv) as [Hvlo Hedges].
      split; [|done]. by eapply nle_transitive.
    + intros v. destruct (decide (v = u)) as [->|Hv]; [lia|].
      rewrite Hpend by done. apply (inv_once _ _ _ HI).
  - split; cbn [dist heap adj_now prev]; [by exists du|done| |done].
    by rewrite (dist_get_some _ _ _ Hdu).
  - unfold measure. rewrite <- (Permutation_length Hperm). simpl.
    rewrite <- (potential_close (dist st) (heap st) rest u); [lia| | |done].
    + unfold closed. rewrite Hpu0, bool_decide_eq_true_2, andb_true_r by done.
      by eapply nle_lt_trans.
    + unfold closed. rewrite Hpu. by rewrite bool_decide_eq_false_2, andb_false_r.
Qed.

(** *** The loop ends, with every reached vertex closed *)

Lemma loop_terminates (n : nat) st lo :
  Inv None lo st → (measure st ≤ n)%nat →
  ∃ st' lo', Inv None lo' st' ∧ heap st' = [] ∧
             ∀ fuel, (n < fuel)%nat → loop fuel st = Returns st'.
Proof.
  revert st lo. induction n as [n IH] using lt_wf_ind. intros st lo HI Hn.
  destruct (heap st) as [|x0 h0] eqn:Hheap.
  { exists st, lo. split; [done|]. split; [done|].
    intros [|fuel] Hfuel; [lia|]. simpl. by rewrite Hheap. }
  destruct (pop_least x0 h0) as [[d u] rest] eqn:Hpop.
  pose proof (pop_least_perm _ _ _ _ Hpop) as Hperm.
  pose proof (pop_least_min _ _ _ _ Hpop) as Hmin.
  rewrite <- Hheap in Hperm, Hmin.
  assert ((d, u) ∈ heap st) as Hin by (rewrite <- Hperm; by left).
  destruct (inv_heap _ _ _ HI d u Hin) as (_ & _ & [du Hdu] & _).
  destruct (nlt du d) eqn:Hstale.
  - destruct (pop_stale lo st d u rest du HI Hperm Hmin Hdu Hstale) as [HI1 Hm1].
    destruct (IH (measure {| dist := dist st; prev := prev st; heap := rest;
                             adj_now := adj_now st |}) ltac:(lia) _ d HI1 ltac:(lia))
      as (st' & lo' & HI' & Hempty & Hloop).
    exists st', lo'. split; [done|]. split; [done|].
    intros [|fuel] Hfuel; [lia|]. simpl. rewrite Hheap. simpl.
    rewrite Hpop, Hdu, Hstale. apply Hloop. lia.
  - destruct (adj_getitem u (adj_now st)) as [nbrs a] eqn:Hget.
    destruct (adj_getitem_spec _ _ _ _ Hget) as [Hnbrs Ha].
    destruct (pop_fresh lo st d u rest du a HI Hperm Hmin Hdu Hstale Ha)
      as (HI1 & Hc1 & Hm1).
    rewrite (inv_adj _ _ _ HI) in Hnbrs.
    destruct (relax_all_spec d u nbrs _ HI1 Hc1) as
      (st2 & Heq2 & HI2 & Hc2 & Hu2 & Hmono2 & Hall2 & Hlen2 & Hcl2).
    { intros x w Hxw. subst nbrs. unfold neighbours in Hxw.
      destruct (adj0 !! u) as [l|] eqn:Hl; simpl in Hxw.
      - by eapply weights_nonneg.
      - by apply elem_of_nil in Hxw. }
    assert (Inv None d st2) as HI2'.
    { apply (inv_release d u); [done|done|]. intros x w Hxw.
      rewrite Hu2. apply Hall2. by rewrite Hnbrs. }
    assert (measure st2 < measure st)%nat as Hm2.
    { unfold measure at 1. cbn [dist heap adj_now prev] in *.
      pose proof (potential_mono _ _ _ _ Hcl2). pose proof (deg_in_ge u).
      rewrite Hnbrs in Hlen2. lia. }
    destruct (IH (measure st2) ltac:(lia) st2 d HI2' ltac:(lia))
      as (st' & lo' & HI' & Hempty & Hloop).
    exists st', lo'. split; [done|]. split; [done|].
    intros [|fuel] Hfuel; [lia|]. simpl. rewrite Hheap. simpl.
    rewrite Hpop, Hdu, Hstale, Hget, Heq2. apply Hloop. lia.
Qed.

End dijkstra_invariant.

(** ** What [dijkstra] returns *)

Section dijkstra_result.
Context `{Number W}.
Implicit Types g : Graph W.

Lemma dist_get_init (a : gmap string (list (string * W))) v :
  dist_get ((λ _, ninf) <$> a) v = ninf.
Proof. unfold dist_get. rewrite lookup_fmap. by destruct (a !! v). Qed.

Lemma nonneg_weights_lookup g u l v (w : W) :
  nonneg_weights g → adj g !! u = Some l → (v, w) ∈ l → nle nzero w.
Proof.
  intros Hnn Hl Hin. apply (map_Forall_lookup_1 _ _ _ _ Hnn) in Hl.
  rewrite Forall_forall in Hl. by apply (Hl (v, w)).
Qed.

(** The state in which the loop is entered. *)
Lemma inv_init g source :
  is_Some (adj g !! source) →
  let st0 := {| dist := <[source := nzero]> ((λ _, ninf) <$> adj g);
                prev := (λ _, None) <$> adj g;
                heap := [(nzero, source)]; adj_now := adj g |} in
  Inv (adj g) source None nzero st0 ∧ (measure (adj g) st0 ≤ S (num_edges g))%nat.
Proof.
  intros Hsrc st0. subst st0.
  set (ds0 := <[source := nzero]> ((λ _ : list (string * W), ninf) <$> adj g)).
  assert (∀ v, dist_get ds0 v = if decide (source = v) then nzero else ninf) as Hget.
  { intros v. unfold ds0. rewrite dist_get_insert. case_decide; [done|].
    apply dist_get_init. }
  assert (∀ v, pending ds0 [(nzero, source)] v = if decide (source = v) then 1%nat else 0%nat)
    as Hpend.
  { intros v. unfold pending, counts, fresh. simpl. rewrite Hget.
    rewrite decide_True by done. rewrite nlt_irrefl. simpl.
    case_bool_decide; case_decide; done. }
  split.
  - split; cbn [dist heap adj_now prev]; fold ds0.
    + done.
    + intros d v [= -> ->]%list_elem_of_singleton. rewrite Hget, decide_True by done.
      splits.
      * apply nzero_lt_inf.
      * apply nle_refl.
      * unfold ds0. rewrite lookup_insert_eq. by eexists.
      * apply nle_refl.
    + intros v. rewrite Hget. case_decide; [apply nle_refl|apply nle_zero_inf].
    + apply nle_refl.
    + intros v _. unfold closed. rewrite Hget, Hpend. case_decide.
      * by rewrite andb_false_r.
      * by rewrite nlt_irrefl.
    + intros v. rewrite Hpend. case_decide; lia.
    + unfold ds0. by rewrite lookup_insert_eq.
    + intros v [l Hl]. unfold ds0. rewrite lookup_insert. case_decide; [by eexists|].
      rewrite lookup_fmap, Hl. by eexists.
  - unfold measure. cbn [dist heap adj_now prev]. simpl.
    pose proof (potential_le (adj g) ds0 [(nzero, source)]). unfold num_edges. lia.
Qed.

End dijkstra_result.

(** The graph of the scenario: [A -> B] of weight 1, [B -> C] of weight
    2, [A -> C] of weight 10, directed, every vertex added first. *)
Definition scenario : Graph pynum :=
  add_edge "A" "C" (Fin 10)
    (add_edge "B" "C" (Fin 2)
       (add_edge "A" "B" (Fin 1)
          (add_vertex "C" (add_vertex "B" (add_vertex "A" (new true)))))).

Example scenario_shortest_path :
  shortest_path 10 "A" "C" scenario = Returns (Fin 3, ["A"; "B"; "C"]%string).
Proof. by vm_compute. Qed.

(** C7 fails as stated: on the empty undirected graph [add_edge] makes
    both ends vertices, on the empty directed graph the source. *)
Lemma add_edge_creates_vertices :
  vertices (new (W := pynum) false) = [] ∧
  vertices (add_edge "a" "b" (Fin 1) (new false)) = ["a"; "b"]%string ∧
  vertices (add_edge "a" "b" (Fin 1) (new true)) = ["a"%string] ∧
  vertices (add_edge "a" "b" (Fin 1) (new false)) ≠ vertices (new (W := pynum) false).
Proof. by vm_compute. Qed.


(** ** Breadth-first and depth-first search *)

Section graph_search.
Context `{Number W}.
Implicit Types g : Graph W.
Implicit Types a : gmap string (list (string * W)).
Implicit Types visited : gset string.
Implicit Types order q stack new : list string.
Implicit Types u v x y start : string.

(** The body of [for v, _ in self.adj.get(u, []):] in [bfs]. *)
Fixpoint bfs_scan (nbrs : list (string * W)) visited q : gset string * list string :=
  match nbrs with
  | [] => (visited, q)
  | vw :: nbrs' =>
      if decide (vw.1 ∈ visited) then bfs_scan nbrs' visited q
      else bfs_scan nbrs' ({[vw.1]} ∪ visited) (q ++ [vw.1])
  end.

(** [while q:] of [bfs], with one unit of fuel for each test of the loop. *)
Fixpoint bfs_loop (fuel : nat) a visited order q : outcome (list string) :=
  match fuel with
  | O => OutOfFuel
  | S fuel' =>
      match q with
      | [] => Returns order
      | u :: q' =>
          let '(visited', q'') := bfs_scan (neighbours a u) visited q' in
          bfs_loop fuel' a visited' (order ++ [u]) q''
      end
  end.

(** [bfs(start)]. *)
Definition bfs (fuel : nat) start g : outcome (list string) :=
  bfs_loop fuel (adj g) {[start]} [] [start].

(** [for v in reversed(neighbors): if v not in visited: stack.append(v)];
    the stack is a list whose head is the top. *)
Fixpoint dfs_push (reversed : list string) visited stack : list string :=
  match reversed with
  | [] => stack
  | v :: vs => dfs_push vs visited (if decide (v ∈ visited) then stack else v :: stack)
  end.

(** [while stack:] of [dfs], with one unit of fuel for each test. *)
Fixpoint dfs_loop (fuel : nat) a visited order stack : outcome (list string) :=
  match fuel with
  | O => OutOfFuel
  | S fuel' =>
      match stack with
      | [] => Returns order
      | u :: stack' =>
          if decide (u ∈ visited) then dfs_loop fuel' a visited order stack'
          else
            let visited' := {[u]} ∪ visited in
            let neighbors := (neighbours a u).*1 in
            dfs_loop fuel' a visited' (order ++ [u])
                     (dfs_push (reverse neighbors) visited' stack')
      end
  end.

(** [dfs(start)]. *)
Definition dfs (fuel : nat) start g : outcome (list string) :=
  dfs_loop fuel (adj g) ∅ [] [start].

(** [u -> v] is an edge; [v] can be reached from [u]. *)
Definition edge a u v : Prop := ∃ w, (v, w) ∈ neighbours a u.

Definition reachable a u v : Prop := rtc (edge a) u v.

(** The neighbour entries of the vertices outside [finished]. *)
Definition rest_deg a (finished : gset string) : nat :=
  sum_list_with (λ ul : string * list (string * W),
                   if decide (ul.1 ∈ finished) then 0%nat else length ul.2)
                (map_to_list a).

Lemma rest_deg_empty g : rest_deg (adj g) ∅ = num_edges g.
Proof.
  unfold rest_deg, num_edges.
  induction (map_to_list (adj g)) as [|ul L IH]; simpl; [done|].
  rewrite IH. by rewrite decide_False by set_solver.
Qed.

Lemma rest_deg_add a finished u :
  u ∉ finished →
  (rest_deg a ({[u]} ∪ finished) + length (neighbours a u) ≤ rest_deg a finished)%nat.
Proof.
  intros Hu. pose proof (deg_in_ge a u) as Hdeg.
  assert (rest_deg a ({[u]} ∪ finished) + deg_in a u = rest_deg a finished)%nat; [|lia].
  unfold rest_deg, deg_in. clear Hdeg.
  induction (map_to_list a) as [|ul L IH]; simpl; [done|].
  rewrite <- IH. case_bool_decide as Hul.
  - rewrite decide_True by set_solver. rewrite decide_False by (by rewrite Hul). lia.
  - destruct (decide (ul.1 ∈ finished)).
    + rewrite decide_True by set_solver. lia.
    + rewrite decide_False; [lia|].
      rewrite elem_of_union, elem_of_singleton. intros [?|?]; done.
Qed.

Lemma reachable_closed a start (seen : string → Prop) :
  seen start → (∀ u v, seen u → edge a u v → seen v) →
  ∀ x, reachable a start x → seen x.
Proof.
  intros Hstart Hstep x Hreach.
  induction Hreach as [|u v x Huv Hvx IH]; [done|].
  apply IH. by eapply Hstep.
Qed.

(** *** [bfs] *)

Lemma bfs_scan_spec (nbrs : list (string * W)) visited q :
  ∃ new, bfs_scan nbrs visited q = (list_to_set new ∪ visited, q ++ new) ∧
         NoDup new ∧ (∀ x, x ∈ new → (x ∉ visited) ∧ x ∈ nbrs.*1) ∧
         (∀ v, v ∈ nbrs.*1 → v ∈ new ∨ v ∈ visited) ∧
         (length new ≤ length nbrs)%nat.
Proof.
  revert visited q. induction nbrs as [|[v w] nbrs IH]; intros visited q; simpl.
  - exists []. rewrite app_nil_r. splits; try done.
    + f_equal. simpl. by rewrite (left_id_L ∅ (∪)).
    + constructor.
    + intros x Hx. by apply elem_of_nil in Hx.
    + intros x Hx. by apply elem_of_nil in Hx.
  - destruct (decide (v ∈ visited)) as [Hv|Hv].
    + destruct (IH visited q) as (new & -> & Hnd & Hnew & Hall & Hlen).
      exists new. splits; try done.
      * intros x Hx. destruct (Hnew x Hx). split; [done|]. by right.
      * intros x [->|Hx]%elem_of_cons; [by right|by apply Hall].
      * lia.
    + destruct (IH ({[v]} ∪ visited) (q ++ [v])) as (new & -> & Hnd & Hnew & Hall & Hlen).
      exists (v :: new). splits.
      * f_equal; [|by rewrite <- app_assoc].
        apply set_eq. intros z. simpl. rewrite !elem_of_union. tauto.
      * constructor; [|done]. intros Hin. destruct (Hnew v Hin) as [Hnot _].
        apply Hnot, elem_of_union. left. by apply elem_of_singleton.
      * intros x [->|Hx]%elem_of_cons; [split; [done|by left]|].
        destruct (Hnew x Hx) as [Hnot Hin]. split; [|by right].
        intros Hxv. apply Hnot, elem_of_union. by right.
      * intros x [->|Hx]%elem_of_cons; [left; by left|].
        destruct (Hall x Hx) as [?|[->%elem_of_singleton|?]%elem_of_union].
        -- left. by right.
        -- left. by left.
        -- by right.
      * simpl. lia.
Qed.

Record bfs_inv a start visited order q : Prop := {
  bfs_nodup : NoDup (order ++ q);
  bfs_visited : ∀ x, x ∈ visited ↔ x ∈ order ++ q;
  bfs_sound : ∀ x, x ∈ visited → reachable a start x;
  bfs_first : ∃ tl, order ++ q = start :: tl;
  bfs_done : ∀ u v, u ∈ order → edge a u v → v ∈ visited
}.

Lemma bfs_inv_step a start visited order u q visited' q' :
  bfs_inv a start visited order (u :: q) →
  bfs_scan (neighbours a u) visited q = (visited', q') →
  bfs_inv a start visited' (order ++ [u]) q' ∧
  (length q' + rest_deg a (list_to_set (order ++ [u])) <
   length (u :: q) + rest_deg a (list_to_set order))%nat.
Proof.
  intros [Hnd Hvis Hsound [tl Hfirst] Hdone] Hscan.
  destruct (bfs_scan_spec (neighbours a u) visited q)
    as (new & Hscan' & Hndn & Hnew & Hall & Hlen).
  rewrite Hscan in Hscan'. injection Hscan' as -> ->.
  assert (u ∉ order) as Hu.
  { apply NoDup_app in Hnd as (_ & Hdisj & _). intros Hin.
    apply (Hdisj u Hin). by left. }
  split; [split|].
  - replace ((order ++ [u]) ++ q ++ new) with ((order ++ u :: q) ++ new)
      by (by rewrite <- !app_assoc).
    apply NoDup_app. split; [done|]. split; [|done].
    intros x Hx Hin. destruct (Hnew x Hin) as [Hnot _]. apply Hnot. by apply Hvis.
  - intros x. rewrite <- !app_assoc. simpl.
    rewrite elem_of_union, elem_of_list_to_set, Hvis.
    rewrite !elem_of_app, !elem_of_cons, elem_of_app. tauto.
  - intros x [Hx%elem_of_list_to_set|Hx]%elem_of_union; [|by apply Hsound].
    destruct (Hnew x Hx) as [_ Hin].
    apply list_elem_of_fmap in Hin as ([y w] & -> & Hin).
    eapply rtc_r; [apply (Hsound u)|by exists w].
    apply Hvis. apply elem_of_app. right. by left.
  - exists (tl ++ new).
    replace ((order ++ [u]) ++ q ++ new) with ((order ++ u :: q) ++ new)
      by (by rewrite <- !app_assoc).
    by rewrite Hfirst.
  - intros x v [Hx|Hx%list_elem_of_singleton]%elem_of_app Hedge.
    + apply elem_of_union. right. by eapply Hdone.
    + subst x. destruct Hedge as [w Hw].
      assert (v ∈ (neighbours a u).*1) as Hv by (apply list_elem_of_fmap; by exists (v, w)).
      apply elem_of_union. destruct (Hall v Hv); [left|right]; [|done].
      by apply elem_of_list_to_set.
  - rewrite length_app. simpl.
    pose proof (rest_deg_add a (list_to_set order) u) as Hdeg.
    rewrite elem_of_list_to_set in Hdeg. specialize (Hdeg Hu).
    replace (list_to_set (order ++ [u]) : gset string)
      with ({[u]} ∪ list_to_set order : gset string).
    + lia.
    + rewrite list_to_set_app_L. simpl. apply set_eq. intros z.
      rewrite !elem_of_union, elem_of_empty. tauto.
Qed.

Lemma bfs_loop_returns (n : nat) a start visited order q :
  bfs_inv a start visited order q →
  (length q + rest_deg a (list_to_set order) ≤ n)%nat →
  ∃ order', (∀ fuel, (n < fuel)%nat → bfs_loop fuel a visited order q = Returns order') ∧
            NoDup order' ∧ head order' = Some start ∧
            ∀ x, x ∈ order' ↔ reachable a start x.
Proof.
  revert visited order q. induction n as [|n IH]; intros visited order q HI Hn.
  - destruct q as [|u q]; [|simpl in Hn; lia].
    exists order. destruct HI as [Hnd Hvis Hsound [tl Hfirst] Hdone].
    rewrite app_nil_r in *. splits.
    + intros [|fuel] Hfuel; [lia|done].
    + done.
    + by rewrite Hfirst.
    + intros x. split; [intros Hx; by apply Hsound, Hvis|].
      intros Hreach. apply Hvis. revert x Hreach. apply reachable_closed.
      * apply Hvis. rewrite Hfirst. by left.
      * intros u v Hu Hedge. eapply Hdone; [|done]. by apply Hvis.
  - destruct q as [|u q].
    + exists order. destruct HI as [Hnd Hvis Hsound [tl Hfirst] Hdone].
      rewrite app_nil_r in *. splits.
      * intros [|fuel] Hfuel; [lia|done].
      * done.
      * by rewrite Hfirst.
      * intros x. split; [intros Hx; by apply Hsound, Hvis|].
        intros Hreach. apply Hvis. revert x Hreach. apply reachable_closed.
        -- apply Hvis. rewrite Hfirst. by left.
        -- intros u v Hu Hedge. eapply Hdone; [|done]. by apply Hvis.
    + destruct (bfs_scan (neighbours a u) visited q) as [visited' q'] eqn:Hscan.
      destruct (bfs_inv_step _ _ _ _ _ _ _ _ HI Hscan) as [HI' Hless].
      destruct (IH visited' (order ++ [u]) q' HI' ltac:(lia)) as (order' & Hret & Hrest).
      exists order'. split; [|done].
      intros [|fuel] Hfuel; [lia|]. simpl. rewrite Hscan. apply Hret. lia.
Qed.

(** *** [dfs] *)

Lemma dfs_push_reversed (vs : list string) visited stack :
  dfs_push vs visited stack = reverse (filter (λ v, v ∉ visited) vs) ++ stack.
Proof.
  revert stack. induction vs as [|v vs IH]; intros stack; simpl; [done|].
  rewrite IH. destruct (decide (v ∈ visited)) as [Hv|Hv].
  - by rewrite filter_cons_False by (intros Hn; by apply Hn).
  - rewrite filter_cons_True by done. rewrite reverse_cons, <- app_assoc. done.
Qed.

Lemma dfs_push_spec (neighbors : list string) visited stack :
  dfs_push (reverse neighbors) visited stack =
  filter (λ v, v ∉ visited) neighbors ++ stack.
Proof. by rewrite dfs_push_reversed, filter_reverse, reverse_involutive. Qed.

Record dfs_inv a start visited order stack : Prop := {
  dfs_nodup : NoDup order;
  dfs_visited : ∀ x, x ∈ visited ↔ x ∈ order;
  dfs_sound : ∀ x, x ∈ order ++ stack → reachable a start x;
  dfs_first : (order = [] ∧ stack = [start]) ∨ ∃ tl, order = start :: tl;
  dfs_done : ∀ u v, u ∈ order → edge a u v → v ∈ order ∨ v ∈ stack
}.

Lemma dfs_inv_skip a start visited order u stack :
  dfs_inv a start visited order (u :: stack) → u ∈ visited →
  dfs_inv a start visited order stack.
Proof.
  intros [Hnd Hvis Hsound Hfirst Hdone] Hu. apply Hvis in Hu. split; try done.
  - intros x Hx. apply Hsound. rewrite elem_of_app, elem_of_cons.
    rewrite elem_of_app in Hx. tauto.
  - destruct Hfirst as [[-> _]|Htl]; [by apply elem_of_nil in Hu|by right].
  - intros x v Hx Hedge.
    destruct (Hdone x v Hx Hedge) as [?|[->|?]%elem_of_cons]; auto.
Qed.

Lemma dfs_inv_visit a start visited order u stack :
  dfs_inv a start visited order (u :: stack) → u ∉ visited →
  dfs_inv a start ({[u]} ∪ visited) (order ++ [u])
    (filter (λ v, v ∉ {[u]} ∪ visited) (neighbours a u).*1 ++ stack) ∧
  (length (filter (λ v, v ∉ {[u]} ∪ visited) (neighbours a u).*1 ++ stack) +
   rest_deg a ({[u]} ∪ visited) <
   length (u :: stack) + rest_deg a visited)%nat.
Proof.
  intros [Hnd Hvis Hsound Hfirst Hdone] Hu.
  assert (u ∉ order) as Hu' by (by rewrite <- Hvis).
  assert (reachable a start u) as Hru.
  { apply Hsound. apply elem_of_app. right. by left. }
  split; [split|].
  - apply NoDup_app. split; [done|]. split; [|apply NoDup_singleton].
    intros x Hx [= ->]%list_elem_of_singleton. done.
  - intros x. rewrite elem_of_union, elem_of_singleton, Hvis.
    rewrite elem_of_app, list_elem_of_singleton. tauto.
  - intros x. rewrite <- app_assoc. simpl.
    intros [Hx|[->|[[_ Hx]%list_elem_of_filter|Hx]%elem_of_app]%elem_of_cons]%elem_of_app.
    + apply Hsound. apply elem_of_app. by left.
    + done.
    + apply list_elem_of_fmap in Hx as ([y w] & -> & Hin).
      eapply rtc_r; [exact Hru|by exists w].
    + apply Hsound. apply elem_of_app. right. by right.
  - right. destruct Hfirst as [[-> [= -> ->]]|[tl ->]]; [by exists []|].
    by exists (tl ++ [u]).
  - intros x v [Hx|Hx%list_elem_of_singleton]%elem_of_app Hedge.
    + destruct (Hdone x v Hx Hedge) as [Hv|[->|Hv]%elem_of_cons].
      * left. apply elem_of_app. by left.
      * left. apply elem_of_app. right. by left.
      * right. apply elem_of_app. by right.
    + subst x. destruct Hedge as [w Hw].
      destruct (decide (v ∈ {[u]} ∪ visited)) as [Hv|Hv].
      * left. apply elem_of_union in Hv as [->%elem_of_singleton|Hv].
        -- apply elem_of_app. right. by left.
        -- apply elem_of_app. left. by apply Hvis.
      * right. apply elem_of_app. left. apply list_elem_of_filter. split; [done|].
        apply list_elem_of_fmap. by exists (v, w).
  - pose proof (rest_deg_add a visited u Hu) as Hdeg.
    rewrite length_app.
    pose proof (length_filter (λ v, v ∉ {[u]} ∪ visited) (neighbours a u).*1) as Hlen.
    rewrite length_fmap in Hlen. simpl. lia.
Qed.

Lemma dfs_loop_returns (n : nat) a start visited order stack :
  dfs_inv a start visited order stack →
  (length stack + rest_deg a visited ≤ n)%nat →
  ∃ order', (∀ fuel, (n < fuel)%nat →
                     dfs_loop fuel a visited order stack = Returns order') ∧
            NoDup order' ∧ head order' = Some start ∧
            ∀ x, x ∈ order' ↔ reachable a start x.
Proof.
  assert (∀ visited order, dfs_inv a start visited order [] →
            NoDup order ∧ head order = Some start ∧
            ∀ x, x ∈ order ↔ reachable a start x) as Hfinal.
  { intros visited' order' [Hnd Hvis Hsound Hfirst Hdone].
    destruct Hfirst as [[_ [=]]|[tl ->]]. splits; [done..|].
    intros x. split; [intros Hx; apply Hsound; by rewrite app_nil_r|].
    revert x. apply reachable_closed; [by left|].
    intros u v Hu Hedge. destruct (Hdone u v Hu Hedge) as [?|Hnil]; [done|].
    by apply elem_of_nil in Hnil. }
  revert visited order stack. induction n as [|n IH]; intros visited order stack HI Hn.
  - destruct stack as [|u stack]; [|simpl in Hn; lia].
    exists order. split; [|by eapply Hfinal].
    intros [|fuel] Hfuel; [lia|done].
  - destruct stack as [|u stack].
    + exists order. split; [|by eapply Hfinal].
      intros [|fuel] Hfuel; [lia|done].
    + destruct (decide (u ∈ visited)) as [Hu|Hu].
      * destruct (IH visited order stack (dfs_inv_skip _ _ _ _ _ _ HI Hu))
          as (order' & Hret & Hrest); [simpl in Hn; lia|].
        exists order'. split; [|done].
        intros [|fuel] Hfuel; [lia|]. simpl. rewrite decide_True by done.
        apply Hret. lia.
      * destruct (dfs_inv_visit _ _ _ _ _ _ HI Hu) as [HI' Hless].
        destruct (IH _ _ _ HI' ltac:(lia)) as (order' & Hret & Hrest).
        exists order'. split; [|done].
        intros [|fuel] Hfuel; [lia|]. simpl. rewrite decide_False by done.
        rewrite dfs_push_spec. apply Hret. lia.
Qed.

(** X21: [bfs(start)] returns on every graph (with more than
    [num_edges + 1] units of fuel the model does, always the same list);
    the list begins with [start], holds no vertex twice, and holds
    exactly the vertices that can be reached from [start] along edges. *)
Theorem bfs_visits_reachable g start :
  ∃ order,
    (∀ fuel, (num_edges g + 1 < fuel)%nat → bfs fuel start g = Returns order) ∧
    NoDup order ∧ head order = Some start ∧
    ∀ x, x ∈ order ↔ reachable (adj g) start x.
Proof.
  apply (bfs_loop_returns (num_edges g + 1) (adj g) start {[start]} [] [start]).
  - split; simpl.
    + apply NoDup_singleton.
    + intros x. by rewrite elem_of_singleton, list_elem_of_singleton.
    + intros x ->%elem_of_singleton. apply rtc_refl.
    + by exists [].
    + intros u v Hu. by apply elem_of_nil in Hu.
  - simpl. rewrite rest_deg_empty. lia.
Qed.

(** X22: [dfs(start)] returns on every graph (with more than
    [num_edges + 1] units of fuel the model does, always the same list);
    the list begins with [start], holds no vertex twice, and holds
    exactly the vertices that can be reached from [start] along edges,
    so [bfs] and [dfs] visit the same vertices. *)
Theorem dfs_visits_reachable g start :
  ∃ order,
    (∀ fuel, (num_edges g + 1 < fuel)%nat → dfs fuel start g = Returns order) ∧
    NoDup order ∧ head order = Some start ∧
    ∀ x, x ∈ order ↔ reachable (adj g) start x.
Proof.
  apply (dfs_loop_returns (num_edges g + 1) (adj g) start ∅ [] [start]).
  - split; simpl.
    + constructor.
    + intros x. split; [set_solver|]. intros Hx. by apply elem_of_nil in Hx.
    + intros x ->%list_elem_of_singleton. apply rtc_refl.
    + by left.
    + intros u v Hu. by apply elem_of_nil in Hu.
  - simpl. rewrite rest_deg_empty. lia.
Qed.

End graph_search.


(** ** [bfs] visits nearer vertices first *)

Section bfs_order.
Context `{Number W}.
Implicit Types g : Graph W.
Implicit Types a : gmap string (list (string * W)).
Implicit Types visited : gset string.
Implicit Types order q new : list string.
Implicit Types u v x y start : string.
Implicit Types lev : string → nat.

(** [v] can be reached from [u] along [n] edges. *)
Inductive hops a u : nat → string → Prop :=
| hops_O : hops a u 0 u
| hops_S n x v : hops a u n x → edge a x v → hops a u (S n) v.

Lemma StronglySorted_ext {A : Type} (R R' : relation A) (l : list A) :
  (∀ b c : A, b ∈ l → c ∈ l → R b c → R' b c) →
  StronglySorted R l → StronglySorted R' l.
Proof.
  intros Himp Hs. induction Hs as [|b l Hs IH Hall]; [constructor|].
  constructor.
  - apply IH. intros c d Hc Hd. apply Himp; by right.
  - rewrite Forall_forall in *. intros c Hc. apply Himp; [by left|by right|by apply Hall].
Qed.

Lemma StronglySorted_all {A : Type} (R : relation A) (l : list A) :
  (∀ b c : A, b ∈ l → c ∈ l → R b c) → StronglySorted R l.
Proof.
  induction l as [|b l IH]; intros Hall; [constructor|]. constructor.
  - apply IH. intros c d Hc Hd. apply Hall; by right.
  - rewrite Forall_forall. intros c Hc. apply Hall; [by left|by right].
Qed.

(** [lev] counts the edges by which each vertex was reached. *)
Record bfs_levels a start lev order q : Prop := {
  bl_hops : ∀ x, x ∈ order ++ q → hops a start (lev x) x;
  bl_sorted : StronglySorted (λ x y, lev x ≤ lev y)%nat (order ++ q);
  bl_near : ∀ u y, head q = Some u → y ∈ q → (lev y ≤ S (lev u))%nat;
  bl_edges : ∀ u v, u ∈ order → edge a u v → (lev v ≤ S (lev u))%nat;
  bl_start : lev start = 0%nat
}.

Lemma bfs_levels_step a start lev visited order u q new :
  bfs_inv a start visited order (u :: q) → bfs_levels a start lev order (u :: q) →
  (∀ x, x ∈ new → (x ∉ visited) ∧ x ∈ (neighbours a u).*1) →
  (∀ v, v ∈ (neighbours a u).*1 → v ∈ new ∨ v ∈ visited) →
  bfs_levels a start (λ x, if decide (x ∈ new) then S (lev u) else lev x)
             (order ++ [u]) (q ++ new).
Proof.
  intros [Hnd Hvis Hsound [tl Hfirst] Hdone] [Hhops Hsorted Hnear Hedges Hstart] Hnew Hall.
  set (lev' := λ x, if decide (x ∈ new) then S (lev u) else lev x).
  assert (∀ x, x ∈ order ++ u :: q → lev' x = lev x) as Hold.
  { intros x Hx. unfold lev'. rewrite decide_False; [done|].
    intros Hin. destruct (Hnew x Hin) as [Hnot _]. by apply Hnot, Hvis. }
  assert (∀ x, x ∈ new → lev' x = S (lev u)) as Hfresh.
  { intros x Hx. unfold lev'. by rewrite decide_True. }
  assert (∀ x, x ∈ order ++ u :: q → (lev x ≤ S (lev u))%nat) as Hbound.
  { intros x [Hx|Hx]%elem_of_app.
    - pose proof (StronglySorted_app_1_elem_of _ _ _ x u Hsorted Hx ltac:(by left)) as Hxu.
      simpl in Hxu. lia.
    - by apply Hnear. }
  assert (u ∈ order ++ u :: q) as Hu by (apply elem_of_app; right; by left).
  assert ((order ++ [u]) ++ q ++ new = (order ++ u :: q) ++ new) as Hlist
    by (by rewrite <- !app_assoc).
  split; rewrite ?Hlist.
  - intros x [Hx|Hx]%elem_of_app.
    + rewrite Hold by done. by apply Hhops.
    + rewrite Hfresh by done. destruct (Hnew x Hx) as [_ Hin].
      apply list_elem_of_fmap in Hin as ([y w] & -> & Hin).
      eapply hops_S; [by apply Hhops|by exists w].
  - apply StronglySorted_app_2.
    + intros x1 x2 Hx1 Hx2. rewrite (Hold x1 Hx1), (Hfresh x2 Hx2). by apply Hbound.
    + eapply StronglySorted_ext; [|exact Hsorted].
      intros x y Hx Hy. by rewrite (Hold x Hx), (Hold y Hy).
    + apply StronglySorted_all. intros x y Hx Hy.
      by rewrite (Hfresh x Hx), (Hfresh y Hy).
  - intros u2 y Hhead Hy.
    assert (lev u ≤ lev' u2)%nat as Hu2.
    { destruct q as [|z q]; simpl in Hhead.
      - rewrite Hfresh; [lia|]. destruct new; [done|]. injection Hhead as ->. by left.
      - injection Hhead as ->. rewrite Hold by (apply elem_of_app; right; right; by left).
        apply StronglySorted_app_1_r, StronglySorted_inv in Hsorted as [_ Hall'].
        rewrite Forall_forall in Hall'. apply Hall'. by left. }
    apply elem_of_app in Hy as [Hy|Hy].
    + rewrite Hold by (apply elem_of_app; right; by right).
      pose proof (Hnear u y eq_refl ltac:(by right)). lia.
    + rewrite Hfresh by done. lia.
  - intros u0 v Hu0 Hedge.
    assert (u0 ∈ order ++ u :: q) as Hu0'.
    { apply elem_of_app in Hu0 as [?|Hu0%list_elem_of_singleton];
        apply elem_of_app; [by left|right; subst u0; by left]. }
    rewrite (Hold u0 Hu0').
    apply elem_of_app in Hu0 as [Hu0|Hu0%list_elem_of_singleton].
    + rewrite Hold; [by apply Hedges|]. by eapply Hvis, Hdone.
    + subst u0. destruct Hedge as [w Hw].
      destruct (Hall v) as [Hv|Hv]; [apply list_elem_of_fmap; by exists (v, w)| |].
      * by rewrite Hfresh.
      * apply Hvis in Hv. rewrite Hold by done. by apply Hbound.
  - rewrite Hold; [done|]. rewrite Hfirst. by left.
Qed.

Lemma bfs_loop_levels (n : nat) a start lev visited order q :
  bfs_inv a start visited order q → bfs_levels a start lev order q →
  (length q + rest_deg a (list_to_set order) ≤ n)%nat →
  ∃ order' visited' lev',
    (∀ fuel, (n < fuel)%nat → bfs_loop fuel a visited order q = Returns order') ∧
    bfs_inv a start visited' order' [] ∧ bfs_levels a start lev' order' [].
Proof.
  revert lev visited order q. induction n as [|n IH]; intros lev visited order q HI HL Hn.
  - destruct q as [|u q]; [|simpl in Hn; lia].
    exists order, visited, lev. split; [|done].
    intros [|fuel] Hfuel; [lia|done].
  - destruct q as [|u q].
    + exists order, visited, lev. split; [|done].
      intros [|fuel] Hfuel; [lia|done].
    + destruct (bfs_scan_spec (neighbours a u) visited q)
        as (new & Hscan & _ & Hnew & Hall & _).
      destruct (bfs_inv_step _ _ _ _ _ _ _ _ HI Hscan) as [HI' Hless].
      pose proof (bfs_levels_step _ _ _ _ _ _ _ _ HI HL Hnew Hall) as HL'.
      destruct (IH _ _ _ _ HI' HL' ltac:(lia)) as (order' & visited' & lev' & Hret & Hrest).
      exists order', visited', lev'. split; [|done].
      intros [|fuel] Hfuel; [lia|]. simpl. rewrite Hscan. apply Hret. lia.
Qed.

(** X29: in the list that [bfs(start)] returns, a vertex never comes
    before a vertex that is nearer to [start]: whenever a vertex of the
    list can be reached from [start] along [n] edges, every vertex
    listed before it can be reached along [n] edges or fewer. *)
Theorem bfs_nearest_first g start :
  ∃ order,
    (∀ fuel, (num_edges g + 1 < fuel)%nat → bfs fuel start g = Returns order) ∧
    ∀ l1 x l2 y l3 n,
      order = l1 ++ x :: l2 ++ y :: l3 → hops (adj g) start n y →
      ∃ m, (m ≤ n)%nat ∧ hops (adj g) start m x.
Proof.
  destruct (bfs_loop_levels (num_edges g + 1) (adj g) start (λ _, 0%nat)
              {[start]} [] [start])
    as (order & visited & lev & Hret & HI & HL).
  - split; simpl.
    + apply NoDup_singleton.
    + intros x. by rewrite elem_of_singleton, list_elem_of_singleton.
    + intros x ->%elem_of_singleton. apply rtc_refl.
    + by exists [].
    + intros u v Hu. by apply elem_of_nil in Hu.
  - split; simpl.
    + intros x ->%list_elem_of_singleton. constructor.
    + repeat constructor.
    + intros u y _ _. lia.
    + intros u v Hu. by apply elem_of_nil in Hu.
    + done.
  - simpl. rewrite rest_deg_empty. lia.
  - exists order. split; [exact Hret|].
    destruct HI as [Hnd Hvis Hsound [tl Hfirst] Hdone].
    destruct HL as [Hhops Hsorted Hnear Hedges Hstart].
    rewrite app_nil_r in *.
    assert (∀ n y, hops (adj g) start n y → y ∈ order ∧ (lev y ≤ n)%nat) as Hleast.
    { intros n y Hy. induction Hy as [|n x v Hx [IHin IHle] Hedge].
      - split; [rewrite Hfirst; by left|lia].
      - split; [by eapply Hvis, Hdone|].
        pose proof (Hedges x v IHin Hedge). lia. }
    intros l1 x l2 y l3 n -> Hy.
    destruct (Hleast n y Hy) as [_ Hle]. exists (lev x). split.
    + apply StronglySorted_app_1_r, StronglySorted_inv in Hsorted as [_ Hall].
      rewrite Forall_forall in Hall.
      pose proof (Hall y ltac:(apply elem_of_app; right; by left)) as Hxy.
      simpl in Hxy. lia.
    + apply Hhops. apply elem_of_app. right. by left.
Qed.

End bfs_order.

(** ** Graphs built by [add_vertex] and [add_edge] *)

(** The calls that build a graph. *)
Inductive build_op (W : Type) : Type :=
| AddVertex (v : string)
| AddEdge (u v : string) (weight : W).
Arguments AddVertex {W} v.
Arguments AddEdge {W} u v weight.

Section graph_build.
Context `{Number W}.
Implicit Types g : Graph W.
Implicit Types a : gmap string (list (string * W)).
Implicit Types u v x y : string.

Definition apply_build (o : build_op W) g : Graph W :=
  match o with
  | AddVertex v => add_vertex v g
  | AddEdge u v weight => add_edge u v weight g
  end.

Fixpoint build (ops : list (build_op W)) g : Graph W :=
  match ops with
  | [] => g
  | o :: ops' => build ops' (apply_build o g)
  end.

(** An undirected graph as the code keeps it: each edge is listed at both
    ends, and every end of an edge is a vertex. *)
Record undirected g : Prop := {
  und_flag : directed g = false;
  und_symmetric : ∀ u v (w : W),
    (v, w) ∈ neighbours (adj g) u → (u, w) ∈ neighbours (adj g) v;
  und_vertices : ∀ u v (w : W),
    (v, w) ∈ neighbours (adj g) u → u ∈ vertices g ∧ v ∈ vertices g
}.

Lemma neighbours_insert a u (l : list (string * W)) x :
  neighbours (<[u := l]> a) x = if decide (u = x) then l else neighbours a x.
Proof. unfold neighbours. rewrite lookup_insert. by case_decide. Qed.

Lemma neighbours_add_vertex v g x :
  neighbours (adj (add_vertex v g)) x = neighbours (adj g) x.
Proof.
  unfold add_vertex. destruct (adj g !! v) as [l|] eqn:Hv; [done|].
  simpl. rewrite neighbours_insert. case_decide as Hx; [|done].
  subst x. unfold neighbours. by rewrite Hv.
Qed.

Lemma vertices_add_vertex v g x :
  x ∈ vertices (add_vertex v g) ↔ x = v ∨ x ∈ vertices g.
Proof.
  rewrite !elem_of_vertices. unfold add_vertex.
  destruct (adj g !! v) as [l|] eqn:Hv.
  - split; [by right|]. intros [->|?]; [by eexists|done].
  - simpl. rewrite lookup_insert. case_decide as Hx.
    + subst x. split; [by left|]. intros _. by eexists.
    + split; [by right|]. by intros [?|?].
Qed.

Lemma adj_add_edge_undirected g u v (w : W) :
  directed g = false →
  adj (add_edge u v w g) =
  let a1 := <[u := neighbours (adj g) u ++ [(v, w)]]> (adj g) in
  <[v := neighbours a1 v ++ [(u, w)]]> a1.
Proof. intros Hd. unfold add_edge. rewrite Hd. simpl. by rewrite !adj_append_eq. Qed.

Lemma neighbours_add_edge_undirected g u v (w : W) x y (w' : W) :
  directed g = false →
  (y, w') ∈ neighbours (adj (add_edge u v w g)) x ↔
  (y, w') ∈ neighbours (adj g) x ∨ (x = u ∧ y = v ∧ w' = w) ∨ (x = v ∧ y = u ∧ w' = w).
Proof.
  intros Hd. rewrite (adj_add_edge_undirected g u v w Hd). cbv zeta.
  rewrite !neighbours_insert.
  destruct (decide (v = x)) as [->|Hvx], (decide (u = x)) as [->|Hux];
    try rewrite decide_True by done; try rewrite decide_False by done;
    rewrite ?elem_of_app, ?list_elem_of_singleton, ?pair_equal_spec;
    intuition congruence.
Qed.

Lemma vertices_add_edge_undirected g u v (w : W) x :
  directed g = false →
  x ∈ vertices (add_edge u v w g) ↔ x = u ∨ x = v ∨ x ∈ vertices g.
Proof.
  intros Hd. rewrite !elem_of_vertices, (adj_add_edge_undirected g u v w Hd). cbv zeta.
  rewrite !lookup_insert.
  destruct (decide (v = x)) as [->|Hvx]; [split; [auto|by eexists]|].
  destruct (decide (u = x)) as [->|Hux]; [split; [auto|by eexists]|].
  split; [auto|]. by intros [?|[?|?]].
Qed.

Lemma undirected_new : undirected (new false).
Proof.
  split; [done|intros u v w Hin; by apply elem_of_nil in Hin..].
Qed.

Lemma undirected_apply_build o g : undirected g → undirected (apply_build o g).
Proof.
  intros [Hd Hsym Hvert]. destruct o as [v|u v w]; simpl.
  - split.
    + unfold add_vertex. by destruct (adj g !! v).
    + intros x y w. rewrite !neighbours_add_vertex. apply Hsym.
    + intros x y w. rewrite neighbours_add_vertex, !vertices_add_vertex.
      intros Hin. destruct (Hvert x y w Hin). auto.
  - split.
    + done.
    + intros x y w'. rewrite !(neighbours_add_edge_undirected g u v w) by done.
      intros [Hin|[(-> & -> & ->)|(-> & -> & ->)]]; auto.
    + intros x y w'. rewrite (neighbours_add_edge_undirected g u v w) by done.
      rewrite !(vertices_add_edge_undirected g u v w) by done.
      intros [Hin|[(-> & -> & ->)|(-> & -> & ->)]]; auto.
      destruct (Hvert x y w' Hin). auto.
Qed.

Lemma undirected_build ops g : undirected g → undirected (build ops g).
Proof.
  revert g. induction ops as [|o ops IH]; intros g Hg; [done|].
  simpl. by apply IH, undirected_apply_build.
Qed.

(** X23: every graph built from [Graph()] by [add_vertex] and [add_edge]
    calls stays undirected, lists each edge at both of its ends with the
    same weight, and has both ends of every edge among its vertices. *)
Theorem built_graph_undirected (ops : list (build_op W)) :
  let g := build ops (new false) in
  directed g = false ∧
  (∀ u v (w : W), (v, w) ∈ neighbours (adj g) u ↔ (u, w) ∈ neighbours (adj g) v) ∧
  (∀ u v (w : W), (v, w) ∈ neighbours (adj g) u → u ∈ vertices g ∧ v ∈ vertices g).
Proof.
  intros g. destruct (undirected_build ops (new false) undirected_new)
    as [Hd Hsym Hvert].
  split; [done|]. split; [|done]. intros u v w. split; apply Hsym.
Qed.

(** *** A source that is not a vertex *)

Lemma neqb_refl (a : W) : neqb a a = true.
Proof. unfold neqb. by rewrite nlt_irrefl. Qed.

Lemma dijkstra_no_source g source fuel :
  adj g !! source = None →
  dijkstra fuel source g =
  Returns ((λ _, ninf) <$> adj g, (λ _, None) <$> adj g, g).
Proof. intros Hs. unfold dijkstra. by rewrite Hs. Qed.

(** X24: for a source that is not a vertex of the graph, [dijkstra]
    returns at once, with every vertex at [float('inf')] and without a
    predecessor, and the graph as it was; [shortest_path] then returns
    [(float('inf'), [])] for every target. *)
Theorem unknown_source g source target fuel :
  source ∉ vertices g →
  dijkstra fuel source g =
    Returns ((λ _, ninf) <$> adj g, (λ _, None) <$> adj g, g) ∧
  shortest_path fuel source target g = Returns (ninf, []).
Proof.
  intros Hs. rewrite elem_of_vertices, <- eq_None_not_Some in Hs.
  split; [by apply dijkstra_no_source|].
  unfold shortest_path. rewrite (dijkstra_no_source g source fuel Hs).
  by rewrite dist_get_init, neqb_refl.
Qed.

End graph_build.

Lemma unknown_source_witness :
  ("Z"%string ∉ vertices scenario) ∧
  shortest_path 0 "Z" "C" scenario = Returns (Inf, []).
Proof.
  assert ("Z"%string ∉ vertices scenario) as Hs.
  { rewrite elem_of_vertices. vm_compute. by intros [? ?]. }
  split; [exact Hs|].
  exact (proj2 (unknown_source scenario "Z" "C" 0 Hs)).
Defined.


(** ** What [dijkstra] does to the graph, and where its distances come from *)

(** A walk from [u] along edges, given by the weights of its edges. *)
Inductive walk `{Number W} (a : gmap string (list (string * W))) (u : string)
  : list W → string → Prop :=
| walk_nil : walk a u [] u
| walk_snoc ws x w v :
    walk a u ws x → (v, w) ∈ neighbours a x → walk a u (ws ++ [w]) v.

(** The weight of a walk, added up as the loop adds it up: from [0], one
    edge after the other. *)
Definition weight `{Number W} (ws : list W) : W := foldl nadd nzero ws.

Section dijkstra_trace.
Context `{Number W}.
Variable adj0 : gmap string (list (string * W)).
Variable source : string.
Hypothesis source_known : is_Some (adj0 !! source).

Implicit Types st : state W.
Implicit Types u v x y : string.

(** [d] is the weight of a walk from the source to [v]. *)
Definition attained v (d : W) : Prop :=
  ∃ ws, walk adj0 source ws v ∧ d = weight ws.

(** [x] is a key of the graph or the end of an edge. *)
Definition known x : Prop :=
  is_Some (adj0 !! x) ∨ ∃ u (w : W), (x, w) ∈ neighbours adj0 u.

Record Trace st : Prop := {
  tr_adj : ∀ u, neighbours (adj_now st) u = neighbours adj0 u;
  tr_keys : ∀ x, is_Some (adj0 !! x) → is_Some (adj_now st !! x);
  tr_new : ∀ x, is_Some (adj_now st !! x) → known x;
  tr_dist : ∀ v d, dist st !! v = Some d → d = ninf ∨ attained v d;
  tr_heap : ∀ d v, (d, v) ∈ heap st → ∃ dv, dist st !! v = Some dv ∧ attained v dv;
  tr_prev : ∀ v u, prev st !! v = Some (Some u) → ∃ w, (v, w) ∈ neighbours adj0 u
}.

Lemma attained_known v d : attained v d → known v.
Proof.
  intros (ws & Hwalk & _). destruct Hwalk as [|ws x w v Hwalk Hedge].
  - by left.
  - right. by exists x, w.
Qed.

Lemma attained_step u du v (w : W) :
  attained u du → (v, w) ∈ neighbours adj0 u → attained v (nadd du w).
Proof.
  intros (ws & Hwalk & ->) Hedge. exists (ws ++ [w]). split.
  - by eapply walk_snoc.
  - unfold weight. by rewrite foldl_snoc.
Qed.

Lemma trace_relax_edge u v (w : W) st st' :
  Trace st → (v, w) ∈ neighbours adj0 u →
  (∃ du, dist st !! u = Some du ∧ attained u du) →
  relax_edge u (v, w) st = Returns st' →
  Trace st' ∧ ∃ du, dist st' !! u = Some du ∧ attained u du.
Proof.
  intros [Hadj Hkeys Hnew Hdist Hheap Hprev] Hedge (du & Hdu & Hatt).
  unfold relax_edge. rewrite Hdu.
  destruct (nlt (nadd du w) (dist_get (dist st) v)).
  - rewrite lookup_insert_eq. intros [= <-].
    pose proof (attained_step u du v w Hatt Hedge) as Hv.
    split; [split; cbn [dist prev heap adj_now]|cbn [dist]]; try done.
    + intros x d. rewrite lookup_insert. case_decide as Hx.
      * subst x. intros [= <-]. by right.
      * apply Hdist.
    + intros d x [[= -> ->]|Hin]%elem_of_cons.
      * exists (nadd du w). by rewrite lookup_insert_eq.
      * rewrite lookup_insert. case_decide as Hx.
        -- subst x. by exists (nadd du w).
        -- by eapply Hheap.
    + intros x y. rewrite lookup_insert. case_decide as Hx.
      * subst x. intros [= <-]. by exists w.
      * apply Hprev.
    + rewrite lookup_insert. case_decide as Hx.
      * subst u. by exists (nadd du w).
      * by exists du.
  - intros [= <-]. split; [done|]. by exists du.
Qed.

Lemma trace_relax_all u (nbrs : list (string * W)) st st' :
  Trace st → (∀ vw, vw ∈ nbrs → vw ∈ neighbours adj0 u) →
  (∃ du, dist st !! u = Some du ∧ attained u du) →
  relax_all u nbrs st = Returns st' → Trace st'.
Proof.
  revert st. induction nbrs as [|[v w] nbrs IH]; intros st HT Hsub Hcur;
    cbn [relax_all].
  - by intros [= <-].
  - destruct (relax_edge u (v, w) st) as [st1| |] eqn:Hrel; [|done..].
    destruct (trace_relax_edge u v w st st1 HT) as [HT1 Hcur1]; try done.
    { apply Hsub. by left. }
    apply IH; [done| |done]. intros vw Hvw. apply Hsub. by right.
Qed.

Lemma trace_loop (fuel : nat) st st' :
  Trace st → loop fuel st = Returns st' → Trace st'.
Proof.
  revert st. induction fuel as [|fuel IH]; intros st HT; cbn [loop]; [done|].
  unfold heappop. destruct (heap st) as [|e h] eqn:Hh; [by intros [= <-]|].
  destruct (pop_least e h) as [[d u] rest] eqn:Hpop.
  pose proof (pop_least_perm _ _ _ _ Hpop) as Hperm. rewrite <- Hh in Hperm.
  destruct HT as [Hadj Hkeys Hnew Hdist Hheap Hprev].
  assert (∀ d' v, (d', v) ∈ rest → (d', v) ∈ heap st) as Hrest.
  { intros d' v Hin. rewrite <- Hperm. by right. }
  destruct (Hheap d u) as (dv & Hdv & Hatt); [rewrite <- Hperm; by left|].
  rewrite Hdv. destruct (nlt dv d).
  - apply IH. split; cbn [dist prev heap adj_now]; try done.
    intros d' v Hin. apply (Hheap d' v). by apply Hrest.
  - destruct (adj_getitem u (adj_now st)) as [nbrs a] eqn:Hget.
    destruct (adj_getitem_spec _ _ _ _ Hget) as [-> Ha].
    destruct (relax_all u (neighbours (adj_now st) u) _) as [st1| |] eqn:Hrel; [|done..].
    apply IH. eapply trace_relax_all; [| | |exact Hrel].
    + split; cbn [dist prev heap adj_now]; try done.
      * intros y. by rewrite Ha, Hadj.
      * intros y Hy. apply Hkeys in Hy. revert Hget. unfold adj_getitem.
        destruct (adj_now st !! u); intros [= _ <-]; [done|].
        rewrite lookup_insert. by case_decide.
      * intros y. revert Hget. unfold adj_getitem.
        destruct (adj_now st !! u); intros [= _ <-]; [apply Hnew|].
        rewrite lookup_insert. case_decide as Hy; [|apply Hnew].
        subst y. intros _. by eapply attained_known.
      * intros d' v Hin. apply (Hheap d' v). by apply Hrest.
    + intros vw. by rewrite Hadj.
    + by exists dv.
Qed.

End dijkstra_trace.

Section dijkstra_exit.
Context `{Number W}.
Variable adj0 : gmap string (list (string * W)).
Variable source : string.
Hypothesis weights_nonneg :
  ∀ u l v w, adj0 !! u = Some l → (v, w) ∈ l → nle nzero w.

Implicit Types st : state W.

(** At the exit of the loop every edge is relaxed. *)
Lemma exit_relaxed lo st :
  Inv adj0 source None lo st → heap st = [] →
  ∀ u v w, (v, w) ∈ neighbours adj0 u →
           ∃ du, dist st !! u = Some du ∧ nle (dist_get (dist st) v) (nadd du w).
Proof.
  intros HI Hempty u v w Hin.
  assert (is_Some (adj0 !! u)) as [l Hl].
  { unfold neighbours in Hin. destruct (adj0 !! u); [by eexists|].
    by apply elem_of_nil in Hin. }
  destruct (inv_dom _ _ _ _ _ HI u ltac:(by eexists)) as [du Hdu].
  exists du. split; [done|].
  assert (nle nzero w) as Hw.
  { apply (weights_nonneg u l v w Hl). unfold neighbours in Hin. by rewrite Hl in Hin. }
  destruct (nlt du ninf) eqn:Hreached.
  - destruct (inv_closed _ _ _ _ _ HI u ltac:(done)) as [_ Hedges].
    { unfold closed. rewrite (dist_get_some _ _ _ Hdu), Hreached, Hempty. done. }
    rewrite <- (dist_get_some _ _ _ Hdu). by apply Hedges.
  - eapply nle_transitive; [apply nle_inf|].
    eapply nle_transitive; [exact Hreached|]. by apply nle_add.
Qed.

Lemma exit_least lo st :
  (∀ a b w : W, nle a b → nle (nadd a w) (nadd b w)) →
  Inv adj0 source None lo st → heap st = [] →
  ∀ v ws, walk adj0 source ws v → nle (dist_get (dist st) v) (weight ws).
Proof.
  intros Hmono HI Hempty v ws Hwalk.
  induction Hwalk as [|ws x w v Hwalk IH Hedge].
  - rewrite (dist_get_some _ _ _ (inv_source _ _ _ _ _ HI)). apply nle_refl.
  - destruct (exit_relaxed lo st HI Hempty x v w Hedge) as (du & Hdu & Hle).
    rewrite (dist_get_some _ _ _ Hdu) in IH.
    unfold weight. rewrite foldl_snoc.
    eapply nle_transitive; [exact Hle|]. by apply Hmono.
Qed.

End dijkstra_exit.

Section dijkstra_laws.
Context `{Number W}.
Implicit Types g : Graph W.

Lemma trace_init g source :
  is_Some (adj g !! source) →
  Trace (adj g) source
    {| dist := <[source := nzero]> ((λ _, ninf) <$> adj g);
       prev := (λ _, None) <$> adj g;
       heap := [(nzero, source)]; adj_now := adj g |}.
Proof.
  intros Hsrc.
  assert (attained (adj g) source source nzero) as Hatt.
  { exists []. split; [constructor|done]. }
  split; cbn [dist prev heap adj_now]; try done.
  - intros x Hx. by left.
  - intros v d. rewrite lookup_insert. case_decide as Hv.
    + subst v. intros [= <-]. by right.
    + rewrite lookup_fmap. destruct (adj g !! v); simpl; [|done].
      intros [= <-]. by left.
  - intros d v [= -> ->]%list_elem_of_singleton.
    exists nzero. by rewrite lookup_insert_eq.
  - intros v u. rewrite lookup_fmap. by destruct (adj g !! v).
Qed.

Lemma dijkstra_trace g source fuel ds pv g' :
  dijkstra fuel source g = Returns (ds, pv, g') →
  directed g' = directed g ∧
  (∀ u, neighbours (adj g') u = neighbours (adj g) u) ∧
  (∀ x, is_Some (adj g !! x) → is_Some (adj g' !! x)) ∧
  (∀ x, is_Some (adj g' !! x) → known (adj g) x) ∧
  (∀ v d, ds !! v = Some d → d = ninf ∨ attained (adj g) source v d) ∧
  (∀ v u, pv !! v = Some (Some u) → ∃ w, (v, w) ∈ neighbours (adj g) u).
Proof.
  unfold dijkstra. destruct (adj g !! source) as [l|] eqn:Hsrc.
  - destruct (loop fuel _) as [st'| |] eqn:Hloop; [|done..].
    intros [= <- <- <-].
    destruct (trace_loop (adj g) source ltac:(by eexists) fuel _ _
                (trace_init g source ltac:(by eexists)) Hloop)
      as [Hadj Hkeys Hnew Hdist Hheap Hprev].
    done.
  - intros [= <- <- <-]. splits; try done.
    + intros x Hx. by left.
    + intros v d. rewrite lookup_fmap. destruct (adj g !! v); simpl; [|done].
      intros [= <-]. by left.
    + intros v u. rewrite lookup_fmap. by destruct (adj g !! v).
Qed.

Lemma walk_reachable (a : gmap string (list (string * W))) u (ws : list W) v :
  walk a u ws v → reachable a u v.
Proof.
  intros Hwalk. induction Hwalk as [|ws x w v Hwalk IH Hedge]; [apply rtc_refl|].
  eapply rtc_r; [exact IH|by exists w].
Qed.

(** C9: for a graph whose weights are all at least [0] and a source
    that is one of its vertices, [dijkstra(source)] returns (with enough
    fuel the model does, always the same result); in the [dist] it
    returns, [dist[source] = 0], every edge [u -> v] of weight [w] has
    [dist[v] <= dist[u] + w], where a vertex without an entry counts as
    infinitely far, as in [dist.get(v, float('inf'))], and every distance
    is at least [0].  Every vertex of the graph has an entry, and the
    distance of every vertex that cannot be reached from the source
    along edges is [float('inf')]. *)
Theorem dijkstra_relaxation g source :
  nonneg_weights g → source ∈ vertices g →
  ∃ dist prev g',
    (∀ fuel, (num_edges g + 1 < fuel)%nat →
             dijkstra fuel source g = Returns (dist, prev, g')) ∧
    dist !! source = Some nzero ∧
    (∀ u v w, (v, w) ∈ neighbours (adj g) u →
              ∃ du, dist !! u = Some du ∧ nle (dist_get dist v) (nadd du w)) ∧
    (∀ v d, dist !! v = Some d → nle nzero d) ∧
    (∀ v, v ∈ vertices g → is_Some (dist !! v)) ∧
    (∀ v, ¬ reachable (adj g) source v → dist_get dist v = ninf).
Proof.
  intros Hnn Hsrc. apply elem_of_vertices in Hsrc.
  pose proof (λ u l v w, nonneg_weights_lookup g u l v w Hnn) as Hws.
  destruct (inv_init g source Hsrc) as [HI0 Hm0].
  destruct (loop_terminates (adj g) source Hws _ _ _ HI0 Hm0)
    as (st' & lo' & HI' & Hempty & Hloop).
  assert (∀ fuel, (num_edges g + 1 < fuel)%nat →
            dijkstra fuel source g =
            Returns (Graph.dist st', Graph.prev st',
                     {| adj := adj_now st'; directed := directed g |})) as Hret.
  { intros fuel Hfuel. unfold dijkstra. destruct Hsrc as [l0 ->].
    by rewrite Hloop by lia. }
  exists (Graph.dist st'), (Graph.prev st'),
    {| adj := adj_now st'; directed := directed g |}.
  splits.
  - exact Hret.
  - apply (inv_source _ _ _ _ _ HI').
  - by apply (exit_relaxed (adj g) source Hws lo' st').
  - intros v d Hd. rewrite <- (dist_get_some _ _ _ Hd). apply (inv_nonneg _ _ _ _ _ HI').
  - intros v Hv. apply elem_of_vertices in Hv. by apply (inv_dom _ _ _ _ _ HI').
  - intros v Hnot.
    destruct (dijkstra_trace g source (S (S (num_edges g))) _ _ _
                (Hret (S (S (num_edges g))) ltac:(lia)))
      as (_ & _ & _ & _ & Hdist & _).
    unfold dist_get. destruct (Graph.dist st' !! v) as [d|] eqn:Hd; [|done]. simpl.
    destruct (Hdist v d Hd) as [->|(ws & Hwalk & _)]; [done|].
    destruct Hnot. by eapply walk_reachable.
Qed.

(** X25: whenever [dijkstra] returns, whatever the weights, it has left
    every adjacency list and the [directed] flag as they were; the only
    change it can make to the graph is to turn ends of edges that were
    not vertices into vertices without neighbours (its [self.adj[u]]
    reads a [defaultdict]), so on a graph where every end of an edge is
    a vertex it changes nothing. *)
Theorem dijkstra_keeps_the_edges g source fuel ds pv g' :
  dijkstra fuel source g = Returns (ds, pv, g') →
  directed g' = directed g ∧
  (∀ u, neighbours (adj g') u = neighbours (adj g) u) ∧
  (∀ x, x ∈ vertices g → x ∈ vertices g') ∧
  (∀ x, x ∈ vertices g' →
        x ∈ vertices g ∨ ∃ u (w : W), (x, w) ∈ neighbours (adj g) u) ∧
  ((∀ u v (w : W), (v, w) ∈ neighbours (adj g) u → v ∈ vertices g) → g' = g).
Proof.
  intros Hret.
  destruct (dijkstra_trace _ _ _ _ _ _ Hret) as (Hd & Hadj & Hkeys & Hnew & _ & _).
  splits; try done.
  - intros x. rewrite !elem_of_vertices. apply Hkeys.
  - intros x. rewrite !elem_of_vertices. apply Hnew.
  - intros Hclosed. destruct g as [a d], g' as [a' d']. simpl in *. subst d'.
    f_equal. apply map_eq. intros x. specialize (Hadj x). unfold neighbours in Hadj.
    destruct (a !! x) as [l|] eqn:Hx.
    + destruct (Hkeys x ltac:(by eexists)) as [l' Hl']. rewrite Hl' in *. simpl in Hadj.
      by subst l'.
    + destruct (a' !! x) as [l'|] eqn:Hx'; [|done]. exfalso.
      destruct (Hnew x ltac:(by eexists)) as [[l Hl]|(u & w & Hedge)]; [congruence|].
      apply Hclosed, elem_of_vertices in Hedge as [l Hl]. simpl in Hl. congruence.
Qed.

(** X26: whenever [dijkstra] returns, whatever the weights, every
    distance it reports is [float('inf')] as set at the start or the
    weight of a walk from the source to that vertex, added up edge by
    edge from [0]; and every predecessor it reports is joined to its
    vertex by an edge. *)
Theorem dijkstra_distances_are_walks g source fuel ds pv g' :
  dijkstra fuel source g = Returns (ds, pv, g') →
  (∀ v d, ds !! v = Some d →
          d = ninf ∨ ∃ ws, walk (adj g) source ws v ∧ d = weight ws) ∧
  (∀ v u, pv !! v = Some (Some u) → ∃ w, (v, w) ∈ neighbours (adj g) u).
Proof.
  intros Hret.
  destruct (dijkstra_trace _ _ _ _ _ _ Hret) as (_ & _ & _ & _ & Hdist & Hprev).
  done.
Qed.

(** X27: for weights of at least [0], a source that is a vertex, and
    numbers whose addition is monotone in its first argument (as that of
    Python's integers and floats is), [dijkstra] returns and the
    distance it reports for a vertex is at most the weight of every walk
    from the source to that vertex. *)
Theorem dijkstra_least_weight g source :
  (∀ a b w : W, nle a b → nle (nadd a w) (nadd b w)) →
  nonneg_weights g → source ∈ vertices g →
  ∃ ds pv g',
    (∀ fuel, (num_edges g + 1 < fuel)%nat →
             dijkstra fuel source g = Returns (ds, pv, g')) ∧
    ∀ v ws, walk (adj g) source ws v → nle (dist_get ds v) (weight ws).
Proof.
  intros Hmono Hnn Hsrc. apply elem_of_vertices in Hsrc.
  pose proof (λ u l v w, nonneg_weights_lookup g u l v w Hnn) as Hws.
  destruct (inv_init g source Hsrc) as [HI0 Hm0].
  destruct (loop_terminates (adj g) source Hws _ _ _ HI0 Hm0)
    as (st' & lo' & HI' & Hempty & Hloop).
  exists (dist st'), (prev st'), {| adj := adj_now st'; directed := directed g |}.
  split.
  - intros fuel Hfuel. unfold dijkstra. destruct Hsrc as [l0 ->].
    by rewrite Hloop by lia.
  - by apply (exit_least (adj g) source Hws lo' st').
Qed.

End dijkstra_laws.

(** A directed graph whose only edge ends in a vertex that was never
    added. *)
Definition one_way : Graph pynum := add_edge "a" "b" (Fin 1) (new true).

(** In the scenario no edge ends in [A]. *)
Lemma scenario_unreachable : ¬ reachable (adj scenario) "B" "A".
Proof.
  assert (map_to_list (adj scenario) =
          [("C", []); ("A", [("B", Fin 1); ("C", Fin 10)]); ("B", [("C", Fin 2)])]%string)
    as Hlist by (by vm_compute).
  intros Hreach.
  apply (reachable_closed (adj scenario) "B" (λ x, x ≠ "A"%string)) in Hreach;
    [done|done|].
  intros u v _ [w Hw] ->. unfold neighbours in Hw.
  destruct (adj scenario !! u) as [l|] eqn:Hl; [|by apply elem_of_nil in Hw].
  apply elem_of_map_to_list in Hl. rewrite Hlist in Hl. simpl in Hw.
  rewrite !elem_of_cons, elem_of_nil in Hl.
  destruct Hl as [Hl|[Hl|[Hl|[]]]]; injection Hl as -> ->;
    rewrite ?elem_of_cons, elem_of_nil in Hw; intuition discriminate.
Qed.

Lemma dijkstra_relaxation_witness :
  nonneg_weights scenario ∧ "B"%string ∈ vertices scenario ∧
  (¬ reachable (adj scenario) "B" "A") ∧
  ∃ dist prev g',
    (∀ fuel, (num_edges scenario + 1 < fuel)%nat →
             dijkstra fuel "B" scenario = Returns (dist, prev, g')) ∧
    dist !! "B"%string = Some (Fin 0) ∧
    (∀ u v w, (v, w) ∈ neighbours (adj scenario) u →
              ∃ du, dist !! u = Some du ∧ nle (dist_get dist v) (nadd du w)) ∧
    (∀ v d, dist !! v = Some d → nle nzero d) ∧
    (∀ v, v ∈ vertices scenario → is_Some (dist !! v)) ∧
    dist_get dist "A" = Inf.
Proof.
  assert (nonneg_weights scenario) as Hnn.
  { apply map_Forall_to_list. vm_compute. repeat constructor. }
  assert ("B"%string ∈ vertices scenario) as Hsrc.
  { apply elem_of_vertices. vm_compute. by eexists. }
  split; [exact Hnn|]. split; [exact Hsrc|]. split; [exact scenario_unreachable|].
  destruct (dijkstra_relaxation scenario "B" Hnn Hsrc)
    as (dist & prev & g' & Hret & Hzero & Hrel & Hnonneg & Hdom & Hfar).
  exists dist, prev, g'.
  exact (conj Hret (conj Hzero (conj Hrel (conj Hnonneg (conj Hdom
           (Hfar "A"%string scenario_unreachable)))))).
Defined.

Lemma dijkstra_keeps_the_edges_witness :
  ∃ ds pv g',
    dijkstra 5 "a" one_way = Returns (ds, pv, g') ∧
    vertices one_way = ["a"%string] ∧ vertices g' = ["a"; "b"]%string ∧
    directed g' = directed one_way ∧
    ∀ u, neighbours (adj g') u = neighbours (adj one_way) u.
Proof.
  destruct (dijkstra 5 "a" one_way) as [[[ds pv] g']| |] eqn:Hret;
    [|by vm_compute in Hret..].
  exists ds, pv, g'. split; [done|].
  destruct (dijkstra_keeps_the_edges one_way "a" 5 ds pv g' Hret) as (Hd & Hadj & _).
  split; [by vm_compute|]. split; [|by split].
  vm_compute in Hret. injection Hret as _ _ <-. by vm_compute.
Defined.

Lemma dijkstra_distances_are_walks_witness :
  ∃ ds pv g',
    dijkstra 10 "A" scenario = Returns (ds, pv, g') ∧
    ds !! "C"%string = Some (Fin 3) ∧
    (Fin 3 = Inf ∨ ∃ ws, walk (adj scenario) "A" ws "C" ∧ Fin 3 = weight ws).
Proof.
  destruct (dijkstra 10 "A" scenario) as [[[ds pv] g']| |] eqn:Hret;
    [|by vm_compute in Hret..].
  exists ds, pv, g'. split; [done|].
  destruct (dijkstra_distances_are_walks scenario "A" 10 ds pv g' Hret) as [Hwalks _].
  assert (ds !! "C"%string = Some (Fin 3)) as HC.
  { vm_compute in Hret. injection Hret as <- _ _. by vm_compute. }
  split; [exact HC|]. exact (Hwalks "C"%string (Fin 3) HC).
Defined.

Lemma pynum_add_mono (a b w : pynum) : nle a b → nle (nadd a w) (nadd b w).
Proof.
  unfold nle. destruct a as [x|], b as [y|], w as [z|]; simpl; try done.
  rewrite !Z.ltb_ge. lia.
Qed.

Lemma dijkstra_least_weight_witness :
  nonneg_weights scenario ∧ "A"%string ∈ vertices scenario ∧
  ∃ ds pv g',
    (∀ fuel, (num_edges scenario + 1 < fuel)%nat →
             dijkstra fuel "A" scenario = Returns (ds, pv, g')) ∧
    ∀ v ws, walk (adj scenario) "A" ws v → nle (dist_get ds v) (weight ws).
Proof.
  assert (nonneg_weights scenario) as Hnn.
  { apply map_Forall_to_list. vm_compute. repeat constructor. }
  assert ("A"%string ∈ vertices scenario) as Hsrc.
  { apply elem_of_vertices. vm_compute. by eexists. }
  split; [exact Hnn|]. split; [exact Hsrc|].
  exact (dijkstra_least_weight scenario "A" pynum_add_mono Hnn Hsrc).
Defined.


(** ** The path of [shortest_path] *)

(** [p] is a list of vertices joined, one to the next, by edges of the
    weights [ws]. *)
Fixpoint trail `{Number W} (a : gmap string (list (string * W)))
    (p : list string) (ws : list W) : Prop :=
  match p, ws with
  | [_], [] => True
  | u :: ((x :: _) as p'), w :: ws' => (x, w) ∈ neighbours a u ∧ trail a p' ws'
  | _, _ => False
  end.

Section predecessors.
Context `{Number W}.
Variable adj0 : gmap string (list (string * W)).
Variable source : string.
Hypothesis weights_nonneg :
  ∀ u l v w, adj0 !! u = Some l → (v, w) ∈ l → nle nzero w.

Implicit Types st : state W.
Implicit Types u v x y c : string.
Implicit Types finished l : list string.

(** What the loop keeps true of [prev]; [finished] lists the vertices
    whose neighbours have been relaxed, the latest first. *)
Record Pred finished (lo : W) st : Prop := {
  pd_source : ∀ u, prev st !! source ≠ Some (Some u);
  pd_done : ∀ v u, prev st !! v = Some (Some u) → u ∈ finished;
  pd_order : ∀ l1 v l2 u,
    finished = l1 ++ v :: l2 → prev st !! v = Some (Some u) → u ∈ l2;
  pd_low : ∀ v, v ∈ finished →
    nle (dist_get (dist st) v) lo ∧ nlt (dist_get (dist st) v) ninf = true;
  pd_has : ∀ v, v ≠ source → nlt (dist_get (dist st) v) ninf = true →
    ∃ u, prev st !! v = Some (Some u);
  pd_sum : ∀ v u, prev st !! v = Some (Some u) →
    ∃ w du, (v, w) ∈ neighbours adj0 u ∧ dist st !! u = Some du ∧
            dist st !! v = Some (nadd du w)
}.

Lemma pred_relax_edge finished lo u x (w : W) st st' :
  Inv adj0 source (Some u) lo st → current lo u st → nle nzero w →
  (x, w) ∈ neighbours adj0 u → Pred finished lo st → u ∈ finished →
  relax_edge u (x, w) st = Returns st' → Pred finished lo st'.
Proof.
  intros HI [[du Hdu] Hle Hge Hpend] Hw Hedge HP Hu. unfold relax_edge. rewrite Hdu.
  rewrite (dist_get_some _ _ _ Hdu) in *.
  destruct (nlt (nadd du w) (dist_get (dist st) x)) eqn:Hrelax; [|by intros [= <-]].
  rewrite lookup_insert_eq. intros [= <-].
  destruct HP as [Hsrc Hdone Horder Hlow Hhas Hsum].
  assert (nle du (nadd du w)) as Hdu_alt by (by apply nle_add).
  assert (x ∉ finished) as Hx.
  { intros Hx. destruct (Hlow x Hx) as [Hxlo _].
    assert (nle (dist_get (dist st) x) (nadd du w)) as Hcontra.
    { eapply nle_transitive; [exact Hxlo|]. by eapply nle_transitive. }
    unfold nle in Hcontra. congruence. }
  assert (x ≠ u) as Hxu by (by intros ->).
  assert (x ≠ source) as Hxs.
  { intros ->. rewrite (dist_get_some _ _ _ (inv_source _ _ _ _ _ HI)) in Hrelax.
    assert (nle nzero (nadd du w)) as Hz.
    { eapply nle_transitive; [|exact Hdu_alt].
      rewrite <- (dist_get_some _ _ _ Hdu). apply (inv_nonneg _ _ _ _ _ HI). }
    unfold nle in Hz. congruence. }
  split; cbn [dist prev heap adj_now].
  - intros u'. rewrite lookup_insert_ne by done. apply Hsrc.
  - intros v u'. rewrite lookup_insert. case_decide as Hv.
    + by intros [= <-].
    + apply Hdone.
  - intros l1 v l2 u' Hsplit. rewrite lookup_insert_ne.
    + by apply (Horder l1 v l2 u').
    + intros ->. apply Hx. rewrite Hsplit. apply elem_of_app. right. by left.
  - intros v Hv. rewrite dist_get_insert, decide_False; [by apply Hlow|].
    by intros ->.
  - intros v Hvs. rewrite dist_get_insert, lookup_insert. case_decide as Hv.
    + intros _. by exists u.
    + by apply Hhas.
  - intros v u'. rewrite lookup_insert. case_decide as Hv.
    + subst v. intros [= <-]. exists w, du. split; [done|].
      rewrite lookup_insert_ne by done. by rewrite lookup_insert_eq.
    + intros Hpv. destruct (Hsum v u' Hpv) as (w' & du' & Hin & Hdu' & Hdv).
      exists w', du'. split; [done|]. rewrite !lookup_insert_ne; [done|done|].
      intros ->. by apply Hx, (Hdone v).
Qed.

Lemma pred_relax_all finished lo u (l : list (string * W)) st st' :
  Inv adj0 source (Some u) lo st → current lo u st →
  (∀ x w, (x, w) ∈ l → nle nzero w ∧ (x, w) ∈ neighbours adj0 u) →
  Pred finished lo st → u ∈ finished →
  relax_all u l st = Returns st' → Pred finished lo st'.
Proof.
  revert st. induction l as [|[x w] l IH]; intros st HI Hc Hl HP Hu; cbn [relax_all].
  - by intros [= <-].
  - destruct (Hl x w ltac:(by left)) as [Hw Hedge].
    destruct (relax_edge_spec adj0 source lo u x w st HI Hc Hw)
      as (st1 & Heq1 & HI1 & Hc1 & _).
    rewrite Heq1. apply IH; try done.
    + intros y w' Hin. apply Hl. by right.
    + exact (pred_relax_edge finished lo u x w st st1 HI Hc Hw Hedge HP Hu Heq1).
Qed.

Lemma pred_raise finished lo (d : W) st st1 :
  dist st1 = dist st → prev st1 = prev st → nle lo d →
  Pred finished lo st → Pred finished d st1.
Proof.
  intros Hd Hp Hlo [Hsrc Hdone Horder Hlow Hhas Hsum].
  split; rewrite ?Hd, ?Hp; try done.
  intros v Hv. destruct (Hlow v Hv). split; [|done]. by eapply nle_transitive.
Qed.

Lemma pred_finish finished (d : W) u st :
  nle (dist_get (dist st) u) d → nlt (dist_get (dist st) u) ninf = true →
  Pred finished d st → Pred (u :: finished) d st.
Proof.
  intros Hud Hfin [Hsrc Hdone Horder Hlow Hhas Hsum]. split; try done.
  - intros v u' Hpv. right. by eapply Hdone.
  - intros l1 v l2 u' Hsplit Hpv. destruct l1 as [|y l1]; simpl in Hsplit.
    + injection Hsplit as <- <-. by eapply Hdone.
    + injection Hsplit as _ Hsplit. by eapply Horder.
  - intros v [->|Hv]%elem_of_cons; [done|by apply Hlow].
Qed.

(** The loop ends, and [prev] leads from every reached vertex back to
    the source. *)
Lemma loop_terminates_pred (bound n : nat) st lo finished :
  Inv adj0 source None lo st → Pred finished lo st → (measure adj0 st ≤ n)%nat →
  (length finished + measure adj0 st ≤ bound)%nat →
  ∃ st' lo' finished',
    Inv adj0 source None lo' st' ∧ Pred finished' lo' st' ∧ heap st' = [] ∧
    (length finished' ≤ bound)%nat ∧
    ∀ fuel, (n < fuel)%nat → loop fuel st = Returns st'.
Proof.
  revert st lo finished. induction n as [n IH] using lt_wf_ind.
  intros st lo finished HI HP Hn Hbound.
  destruct (heap st) as [|x0 h0] eqn:Hheap.
  { exists st, lo, finished. splits; try done; [lia|].
    intros [|fuel] Hfuel; [lia|]. simpl. by rewrite Hheap. }
  destruct (pop_least x0 h0) as [[d u] rest] eqn:Hpop.
  pose proof (pop_least_perm _ _ _ _ Hpop) as Hperm.
  pose proof (pop_least_min _ _ _ _ Hpop) as Hmin.
  rewrite <- Hheap in Hperm, Hmin.
  assert ((d, u) ∈ heap st) as Hin by (rewrite <- Hperm; by left).
  destruct (inv_heap _ _ _ _ _ HI d u Hin) as (Hd1 & Hd2 & [du Hdu] & Hd4).
  destruct (nlt du d) eqn:Hstale.
  - destruct (pop_stale adj0 source lo st d u rest du HI Hperm Hmin Hdu Hstale)
      as [HI1 Hm1].
    destruct (IH (measure adj0 {| dist := dist st; prev := prev st; heap := rest;
                                  adj_now := adj_now st |}) ltac:(lia) _ d finished HI1)
      as (st' & lo' & finished' & HI' & HP' & Hempty & Hlen & Hloop); [|lia|lia|].
    { by apply (pred_raise finished lo d st). }
    exists st', lo', finished'. splits; try done.
    intros [|fuel] Hfuel; [lia|]. simpl. rewrite Hheap. simpl.
    rewrite Hpop, Hdu, Hstale. apply Hloop. lia.
  - destruct (adj_getitem u (adj_now st)) as [nbrs a] eqn:Hget.
    destruct (adj_getitem_spec _ _ _ _ Hget) as [Hnbrs Ha].
    destruct (pop_fresh adj0 source lo st d u rest du a HI Hperm Hmin Hdu Hstale Ha)
      as (HI1 & Hc1 & Hm1).
    rewrite (inv_adj _ _ _ _ _ HI) in Hnbrs.
    assert (∀ x w, (x, w) ∈ nbrs → nle nzero w) as Hws.
    { intros x w Hxw. subst nbrs. unfold neighbours in Hxw.
      destruct (adj0 !! u) as [l|] eqn:Hl; simpl in Hxw.
      - by eapply weights_nonneg.
      - by apply elem_of_nil in Hxw. }
    destruct (relax_all_spec adj0 source d u nbrs _ HI1 Hc1 Hws) as
      (st2 & Heq2 & HI2 & Hc2 & Hu2 & Hmono2 & Hall2 & Hlen2 & Hcl2).
    assert (Inv adj0 source None d st2) as HI2'.
    { apply (inv_release adj0 source d u); [done|done|]. intros x w Hxw.
      rewrite Hu2. apply Hall2. by rewrite Hnbrs. }
    assert (Pred (u :: finished) d st2) as HP2.
    { apply (pred_relax_all (u :: finished) d u nbrs _ st2 HI1 Hc1); [| |by left|done].
      - intros x w Hxw. split; [by eapply Hws|by rewrite <- Hnbrs].
      - apply pred_finish; cbn [dist].
        + done.
        + by eapply nle_lt_trans.
        + by apply (pred_raise finished lo d st). }
    assert (measure adj0 st2 < measure adj0 st)%nat as Hm2.
    { unfold measure at 1. cbn [dist heap adj_now prev] in *.
      pose proof (potential_mono adj0 _ _ _ _ Hcl2). pose proof (deg_in_ge adj0 u).
      rewrite Hnbrs in Hlen2. lia. }
    destruct (IH (measure adj0 st2) ltac:(lia) st2 d (u :: finished) HI2' HP2 ltac:(lia))
      as (st' & lo' & finished' & HI' & HP' & Hempty & Hlen & Hloop); [simpl; lia|].
    exists st', lo', finished'. splits; try done.
    intros [|fuel] Hfuel; [lia|]. simpl. rewrite Hheap. simpl.
    rewrite Hpop, Hdu, Hstale, Hget, Heq2. apply Hloop. lia.
Qed.

(** The walk back along [prev] ends at the source, over edges whose
    weights add up to the distance. *)
Lemma walk_back_spec finished lo st (dt : W) :
  Pred finished lo st → dist st !! source = Some nzero →
  ∀ (k : nat) l c path ws,
    (length l ≤ k)%nat → (∃ l0, finished = l0 ++ l) →
    (c = source ∨
     (nlt (dist_get (dist st) c) ninf = true ∧
      ∀ u, prev st !! c = Some (Some u) → u ∈ l)) →
    trail adj0 (c :: path) ws →
    (∃ dc, dist st !! c = Some dc ∧ dt = foldl nadd dc ws) →
    ∃ p ws', (∀ fuel, (k < fuel)%nat →
                      walk_back fuel (prev st) (Some c) path = source :: p) ∧
             trail adj0 (source :: p) ws' ∧ dt = weight ws' ∧
             last (source :: p) = last (c :: path).
Proof.
  intros [Hsrc Hdone Horder Hlow Hhas Hsum] Hzero.
  assert (∀ (k : nat) path ws,
            trail adj0 (source :: path) ws → dt = foldl nadd nzero ws →
            ∃ p ws', (∀ fuel, (k < fuel)%nat →
                        walk_back fuel (prev st) (Some source) path = source :: p) ∧
                     trail adj0 (source :: p) ws' ∧ dt = weight ws' ∧
                     last (source :: p) = last (source :: path)) as Hstop.
  { intros k path ws Htrail Hdt. exists path, ws. splits; try done.
    intros [|fuel] Hfuel; [lia|]. cbn [walk_back].
    assert (default None (prev st !! source) = None) as ->.
    { destruct (prev st !! source) as [[u|]|] eqn:Hp; [|done..]. by destruct (Hsrc u). }
    by destruct fuel. }
  induction k as [|k IH]; intros l c path ws Hk Hsuffix Hc Htrail (dc & Hdc & Hdt).
  - destruct (decide (c = source)) as [->|Hcs].
    + apply (Hstop _ _ ws); [done|congruence].
    + destruct Hc as [?|[Hfin Hin]]; [done|].
      destruct (Hhas c Hcs Hfin) as [u Hu]. specialize (Hin u Hu).
      destruct l; [by apply elem_of_nil in Hin|simpl in Hk; lia].
  - destruct (decide (c = source)) as [->|Hcs].
    + apply (Hstop _ _ ws); [done|congruence].
    + destruct Hc as [?|[Hfin Hin]]; [done|].
      destruct (Hhas c Hcs Hfin) as [u Hu]. specialize (Hin u Hu).
      apply list_elem_of_split in Hin as (l1 & l2 & ->).
      destruct Hsuffix as [l0 Hl0].
      destruct (Hsum c u Hu) as (w & du & Hedge & Hdu & Hdc').
      assert (finished = (l0 ++ l1) ++ u :: l2) as Hsplit by (by rewrite Hl0, <- app_assoc).
      destruct (IH l2 u (c :: path) (w :: ws)) as (p & ws' & Hwalk & Htr & Hw & Hlast).
      * rewrite length_app in Hk. simpl in Hk. lia.
      * exists (l0 ++ l1 ++ [u]). by rewrite Hl0, <- !app_assoc.
      * right. split.
        -- apply Hlow. rewrite Hsplit. apply elem_of_app. right. by left.
        -- intros u' Hu'. by eapply Horder.
      * by split.
      * exists du. split; [done|]. simpl. congruence.
      * exists p, ws'. splits; try done.
        intros [|fuel] Hfuel; [lia|]. cbn [walk_back]. rewrite Hu. simpl.
        apply Hwalk. lia.
Qed.

End predecessors.

Section shortest_path_laws.
Context `{Number W}.
Implicit Types g : Graph W.

Lemma walk_cons (a : gmap string (list (string * W))) u x (w : W) ws v :
  (x, w) ∈ neighbours a u → walk a x ws v → walk a u (w :: ws) v.
Proof.
  intros Hedge Hwalk. induction Hwalk as [|ws y w' v Hwalk IH Hedge'].
  - by apply (walk_snoc a u [] u w x); [constructor|].
  - rewrite app_comm_cons. by eapply walk_snoc.
Qed.

Lemma trail_walk (a : gmap string (list (string * W))) u p (ws : list W) v :
  trail a (u :: p) ws → last (u :: p) = Some v → walk a u ws v.
Proof.
  revert u ws. induction p as [|x p IH]; intros u ws.
  - destruct ws; [|done]. intros _ [= <-]. constructor.
  - destruct ws as [|w ws]; [done|]. intros [Hedge Htrail] Hlast.
    eapply walk_cons; [done|]. apply IH; [done|].
    by rewrite last_cons_cons in Hlast.
Qed.

Lemma pred_init g source :
  is_Some (adj g !! source) →
  Pred (adj g) source [] nzero
    {| dist := <[source := nzero]> ((λ _, ninf) <$> adj g);
       prev := (λ _, None) <$> adj g;
       heap := [(nzero, source)]; adj_now := adj g |}.
Proof.
  intros Hsrc.
  assert (∀ v u, ((λ _ : list (string * W), @None string) <$> adj g) !! v ≠ Some (Some u))
    as Hprev.
  { intros v u. rewrite lookup_fmap. by destruct (adj g !! v). }
  split; cbn [dist prev heap adj_now].
  - intros u. apply Hprev.
  - intros v u Hp. by destruct (Hprev v u).
  - intros l1 v l2 u Hsplit. by destruct l1.
  - intros v Hv. by apply elem_of_nil in Hv.
  - intros v Hv. rewrite dist_get_insert, decide_False by done.
    by rewrite dist_get_init, nlt_irrefl.
  - intros v u Hp. by destruct (Hprev v u).
Qed.

(** X28: for weights of at least [0], a source that is a vertex, and
    numbers whose addition is monotone in its first argument,
    [shortest_path(source, target)] returns (with more than
    [2 * num_edges + 2] units of fuel the model does, always the same
    result).  The distance it returns is at most
    the weight of every walk from the source to the target.  It returns
    [(float('inf'), [])] when the distance of the target equals
    [float('inf')]; otherwise it returns the distance with a path that
    begins at the source, ends at the target, goes along edges of the
    graph, and whose weights, added up from [0], give the distance. *)
Theorem shortest_path_correct g source target :
  (∀ a b w : W, nle a b → nle (nadd a w) (nadd b w)) →
  nonneg_weights g → source ∈ vertices g →
  ∃ (d : W) (path : list string),
    (∀ fuel, (2 * num_edges g + 2 < fuel)%nat →
             shortest_path fuel source target g = Returns (d, path)) ∧
    (∀ ws, walk (adj g) source ws target → nle d (weight ws)) ∧
    ((d = ninf ∧ path = []) ∨
     (nlt d ninf = true ∧
      ∃ p ws, path = source :: p ∧ last path = Some target ∧
              trail (adj g) path ws ∧ walk (adj g) source ws target ∧
              d = weight ws)).
Proof.
  intros Hmono Hnn Hsrc. apply elem_of_vertices in Hsrc.
  pose proof (λ u l v w, nonneg_weights_lookup g u l v w Hnn) as Hws.
  destruct (inv_init g source Hsrc) as [HI0 Hm0].
  destruct (loop_terminates_pred (adj g) source Hws (S (num_edges g)) _ _ _ [] HI0
              (pred_init g source Hsrc) Hm0 Hm0)
    as (st' & lo' & finished & HI' & HP' & Hempty & Hlen & Hloop).
  pose proof (exit_least (adj g) source Hws lo' st' Hmono HI' Hempty target) as Hleast.
  pose proof (inv_source _ _ _ _ _ HI') as Hzero.
  assert (∀ fuel, (S (num_edges g) < fuel)%nat →
            dijkstra fuel source g =
            Returns (dist st', prev st',
                     {| adj := adj_now st'; directed := directed g |})) as Hdij.
  { intros fuel Hfuel. unfold dijkstra. destruct Hsrc as [l0 ->].
    by rewrite Hloop by lia. }
  destruct (neqb (dist_get (dist st') target) ninf) eqn:Hinf.
  - exists ninf, []. splits.
    + intros fuel Hfuel. unfold shortest_path. rewrite Hdij by lia. by rewrite Hinf.
    + intros ws Hwalk. eapply nle_transitive; [|by apply Hleast].
      unfold neqb in Hinf. apply andb_true_iff in Hinf as [Hge _].
      by apply negb_true_iff in Hge.
    + by left.
  - assert (nlt (dist_get (dist st') target) ninf = true) as Hfin.
    { unfold neqb in Hinf. rewrite ninf_top in Hinf. simpl in Hinf.
      rewrite andb_true_r in Hinf. by apply negb_false_iff in Hinf. }
    destruct (dist st' !! target) as [dt|] eqn:Hdt; last first.
    { unfold dist_get in Hfin. rewrite Hdt in Hfin. simpl in Hfin.
      by rewrite nlt_irrefl in Hfin. }
    rewrite (dist_get_some _ _ _ Hdt) in Hfin, Hleast.
    destruct (walk_back_spec (adj g) source finished lo' st' dt HP' Hzero
                (length finished) finished target [] [])
      as (p & ws & Hback & Htrail & Hw & Hlast); [done|by exists []| |done| |].
    { right. split; [by rewrite (dist_get_some _ _ _ Hdt)|].
      intros u Hu. by apply (pd_done _ _ _ _ _ HP' target). }
    { by exists dt. }
    exists dt, (source :: p). splits.
    + intros fuel Hfuel. unfold shortest_path.
      rewrite Hdij by lia. rewrite Hinf, Hdt. by rewrite Hback by lia.
    + done.
    + right. split; [done|]. exists p, ws. splits; try done.
      by apply (trail_walk (adj g) source p ws target).
Qed.

End shortest_path_laws.


Lemma shortest_path_correct_witness :
  nonneg_weights scenario ∧ "A"%string ∈ vertices scenario ∧
  ∃ d path,
    (∀ fuel, (2 * num_edges scenario + 2 < fuel)%nat →
             shortest_path fuel "A" "C" scenario = Returns (d, path)) ∧
    (∀ ws, walk (adj scenario) "A" ws "C" → nle d (weight ws)) ∧
    d = Fin 3 ∧ path = ["A"; "B"; "C"]%string.
Proof.
  assert (nonneg_weights scenario) as Hnn.
  { apply map_Forall_to_list. vm_compute. repeat constructor. }
  assert ("A"%string ∈ vertices scenario) as Hsrc.
  { apply elem_of_vertices. vm_compute. by eexists. }
  split; [exact Hnn|]. split; [exact Hsrc|].
  destruct (shortest_path_correct scenario "A" "C" pynum_add_mono Hnn Hsrc)
    as (d & path & Hret & Hleast & _).
  exists d, path. split; [exact Hret|]. split; [exact Hleast|].
  assert (2 * num_edges scenario + 2 < 10)%nat as Hfuel by (vm_compute; lia).
  specialize (Hret 10%nat Hfuel). vm_compute in Hret.
  by injection Hret as <- <-.
Defined.

End Graph.
